(** * Application Share: session and process lifecycle core

    A shallow embedding of the lifecycle code of the repository:
    - [AppManager]: [server/app_manager.py], class [ApplicationManager];
    - [SessionManager]: [server/session_manager.py], class [SessionManager];
    - [WebSocketHandler]: [server/websocket_handler.py], class
      [WebSocketHandler];
    - [LiveStreamer]: the part of [server/live_streamer.py] that streams
      frames to the connected clients.

    Python dictionaries are finite maps ([gmap]), Python sets are finite sets
    ([gset]), and every coroutine is a function on the state of its object.
    Whatever the code obtains from outside (the clock, random tokens, the
    outcome of a process spawn, the reaction of a process to a signal, the
    outcome of a network send) is an explicit argument; a call reads the
    clock once, as [now]. Each module of definitions is followed, further
    down, by a module of facts about it and a module of further facts
    (invariants of the reachable states, round trips, refusals). *)

From stdpp Require Import gmap strings list fin_maps numbers.

(** ** ApplicationManager *)

Module AppManager.

(** [app_info] dictionaries are shared: the table [running_apps], the monitor
    task and the caller of [start_application] hold the same object. They live
    in a store and are referred to by location. *)
Definition loc := nat.

(** [asyncio.subprocess.Process]: [returncode] is [None] until the process
    has exited. *)
Record process := Process {
  pid : Z;
  returncode : option Z }.

(** The dictionary built in [start_application]; [info_process] stands for
    the keys "process" and "pid". Timestamps are clock readings. *)
Record app_info := AppInfo {
  info_id : string;
  info_name : string;
  info_user_id : string;
  info_process : process;
  started_at : Z;
  status : string;
  stopped_at : option Z }.

(** [ApplicationManager]: [monitors] are the tasks made by
    [asyncio.create_task(self._monitor_application(app_id))] that have read
    their [app_info] and wait in [await process.wait()]. *)
Record manager := Manager {
  store : gmap loc app_info;
  running_apps : gmap string loc;
  allowed_apps : list string;
  max_concurrent : Z;
  monitors : list (string * loc) }.

(** The failures of the supervisor, named as the error taxonomy names them:
    - [NotAllowed]: [ValueError("Application ... is not allowed")];
    - [CapacityExceeded]: [ValueError("Maximum concurrent applications ...")];
    - [LaunchFailed]: [Exception("Failed to start application ...")];
    - [NotFound]: [ValueError("Application ... is not running")];
    - [Forbidden]: [PermissionError]. *)
Inductive error := NotAllowed | CapacityExceeded | LaunchFailed | NotFound | Forbidden.

Definition set_store (f : gmap loc app_info → gmap loc app_info) (m : manager) : manager :=
  Manager (f (store m)) (running_apps m) (allowed_apps m) (max_concurrent m) (monitors m).

Definition set_running_apps (f : gmap string loc → gmap string loc) (m : manager) : manager :=
  Manager (store m) (f (running_apps m)) (allowed_apps m) (max_concurrent m) (monitors m).

Definition set_monitors (f : list (string * loc) → list (string * loc)) (m : manager) : manager :=
  Manager (store m) (running_apps m) (allowed_apps m) (max_concurrent m) (f (monitors m)).

Definition set_returncode (rc : option Z) (o : app_info) : app_info :=
  AppInfo (info_id o) (info_name o) (info_user_id o)
          (Process (pid (info_process o)) rc)
          (started_at o) (status o) (stopped_at o).

(** [app_info["status"] = "stopped"; app_info["stopped_at"] = now]. *)
Definition mark_stopped (now : Z) (o : app_info) : app_info :=
  AppInfo (info_id o) (info_name o) (info_user_id o) (info_process o)
          (started_at o) "stopped" (Some now).

(** [__init__] with the two values read from the environment. *)
Definition init (allowed : list string) (max : Z) : manager :=
  Manager ∅ ∅ allowed max [].

(** [start_application(app_name, user_id)]. [token] is the value of
    [secrets.token_urlsafe(16)], [spawn] the outcome of
    [asyncio.create_subprocess_exec]: the pid of the new process, or [None]
    when the call raised. The result is the [app_info] object. This is the
    call with nothing else running while it is suspended in the spawn
    ([start_check] and [start_resume] are its two halves), and with its
    monitor task started at once. *)
Definition start_application (token : string) (spawn : option Z) (now : Z)
    (app_name user_id : string) (m : manager) : (error + loc) * manager :=
  if negb (bool_decide (app_name ∈ allowed_apps m)) then (inl NotAllowed, m)
  else if (max_concurrent m <=? Z.of_nat (size (running_apps m)))%Z
  then (inl CapacityExceeded, m)
  else match spawn with
       | None => (inl LaunchFailed, m)
       | Some p =>
           let l := fresh (dom (store m)) in
           let o := AppInfo token app_name user_id (Process p None) now "running" None in
           (inr l,
            Manager (<[l := o]> (store m)) (<[token := l]> (running_apps m))
                    (allowed_apps m) (max_concurrent m)
                    (monitors m ++ [(token, l)]))
       end.

(** The event loop records the exit of the process of [l]. *)
Definition process_exited (l : loc) (code : Z) (m : manager) : manager :=
  set_store (alter (set_returncode (Some code)) l) m.

(** [_monitor_application] from the point where [await process.wait()]
    returns: the status update, then the [finally] block. *)
Definition monitor_resume (now : Z) (app_id : string) (l : loc) (m : manager) : manager :=
  let m1 := set_store (alter (mark_stopped now) l) m in
  let m2 := match running_apps m1 !! app_id with
            | Some _ => set_running_apps (delete app_id) m1
            | None => m1
            end in
  set_monitors (filter (λ t, t ≠ (app_id, l))) m2.

(** A process exits without any [stop_application] and its monitor wakes. *)
Definition monitor_wake (code now : Z) (app_id : string) (l : loc) (m : manager) : manager :=
  monitor_resume now app_id l (process_exited l code m).

(** The dictionary returned by [get_application_status]. *)
Record app_view := AppView {
  view_id : string;
  view_name : string;
  view_status : string;
  view_pid : Z;
  view_started_at : Z;
  view_stopped_at : option Z }.

(** The check "if process is still running" of [get_application_status]. *)
Definition refresh (now : Z) (o : app_info) : app_info :=
  match returncode (info_process o) with
  | Some _ => mark_stopped now o
  | None => o
  end.

Definition view_of (o : app_info) : app_view :=
  AppView (info_id o) (info_name o) (status o) (pid (info_process o))
          (started_at o) (stopped_at o).

(** [get_application_status(app_id)]; a location of the table always holds
    an object (see [wf]), the last branch is never taken. *)
Definition get_application_status (now : Z) (app_id : string) (m : manager)
  : option app_view * manager :=
  match running_apps m !! app_id with
  | None => (None, m)
  | Some l =>
      match store m !! l with
      | Some o =>
          let o' := refresh now o in
          (Some (view_of o'), set_store (<[l := o']>) m)
      | None => (None, m)
      end
  end.

(** [list_running_applications(user_id)]: one call of
    [get_application_status] for every entry that passes the filter. *)
Definition list_step (now : Z) (user_id : option string)
    (acc : list app_view * manager) (kv : string * loc) : list app_view * manager :=
  let '(apps, m) := acc in
  match store m !! kv.2 with
  | Some o =>
      if bool_decide (user_id = None ∨ user_id = Some (info_user_id o))
      then match get_application_status now kv.1 m with
           | (Some v, m') => (apps ++ [v], m')
           | (None, m') => (apps, m')
           end
      else (apps, m)
  | None => (apps, m)
  end.

Definition list_running_applications (now : Z) (user_id : option string) (m : manager)
  : list app_view * manager :=
  foldl (list_step now user_id) ([], m) (map_to_list (running_apps m)).

(** *** [stop_application] *)

(** The reaction of the operating system to the two signals: after SIGTERM
    the process exits by itself after [d] milliseconds with return code [c]
    ([term_exit = Some (d, c)]) or not at all; after SIGKILL it exits with
    [kill_code]. *)
Record os_behaviour := OsBehaviour {
  term_exit : option (Z * Z);
  kill_code : Z }.

(** [timeout=5.0] of [asyncio.wait_for], in milliseconds. *)
Definition grace_period : Z := 5000.

(** What [stop_application] does, step by step. *)
Inductive event :=
| EvTerminate (p : Z)
| EvWaitFor (timeout : Z) (exited : bool)
| EvKill (p : Z)
| EvWait (p : Z)
| EvDelete (app_id : string)
| EvKeyError (app_id : string).

(** A run: every step with the manager as it is after the step. *)
Definition run := list (event * manager).

(** The permission check: [user_id and app_info["user_id"] != user_id]
    raises [PermissionError]; no requester, or an empty one, passes. *)
Definition permitted (user_id : option string) (o : app_info) : bool :=
  match user_id with
  | Some u => negb (negb (bool_decide (u = "")) && negb (bool_decide (info_user_id o = u)))
  | None => true
  end.

(** [del self.running_apps[app_id]] and [return True], or the [KeyError]
    that the handler of [stop_application] turns into [return False]. *)
Definition stop_delete (app_id : string) (m : manager) : bool * manager * run :=
  match running_apps m !! app_id with
  | Some _ =>
      let m' := set_running_apps (delete app_id) m in
      (true, m', [(EvDelete app_id, m')])
  | None => (false, m, [(EvKeyError app_id, m)])
  end.

(** The process of [l] exits while [stop_application] is suspended. The
    monitor of the instance waits for the same exit; [monitor_first] tells
    whether the event loop resumes it before [stop_application]. *)
Definition exit_while_suspended (monitor_first : bool) (now code : Z)
    (app_id : string) (l : loc) (m : manager) : manager :=
  let m1 := process_exited l code m in
  if monitor_first && bool_decide ((app_id, l) ∈ monitors m1)
  then monitor_resume now app_id l m1
  else m1.

(** [stop_application(app_id, user_id)], called at time [now], for a process
    on which every wait returns. While the call is suspended in [wait_for] or
    [wait], the process exits and, of the other tasks, the monitor of the
    instance may run. An entry of the table always refers to an object of the
    store (see [wf]): the second [NotFound] is never returned. *)
Definition stop_application (os : os_behaviour) (monitor_first : bool) (now : Z)
    (app_id : string) (user_id : option string) (m : manager)
  : (error + bool) * manager * run :=
  match running_apps m !! app_id with
  | None => (inl NotFound, m, [])
  | Some l =>
      match store m !! l with
      | None => (inl NotFound, m, [])
      | Some o =>
          if negb (permitted user_id o) then (inl Forbidden, m, [])
          else
            let p := pid (info_process o) in
            match returncode (info_process o) with
            | Some _ =>
                let '(b, m', r) := stop_delete app_id m in (inr b, m', r)
            | None =>
                let in_time :=
                  match term_exit os with
                  | Some (d, c) => if (d <? grace_period)%Z then Some (d, c) else None
                  | None => None
                  end in
                match in_time with
                | Some (d, c) =>
                    let m1 := exit_while_suspended monitor_first (now + d) c app_id l m in
                    let '(b, m', r) := stop_delete app_id m1 in
                    (inr b, m',
                     [(EvTerminate p, m); (EvWaitFor grace_period true, m1)] ++ r)
                | None =>
                    let m1 := exit_while_suspended monitor_first
                                (now + grace_period) (kill_code os) app_id l m in
                    let '(b, m', r) := stop_delete app_id m1 in
                    (inr b, m',
                     [(EvTerminate p, m); (EvWaitFor grace_period false, m);
                      (EvKill p, m); (EvWait p, m1)] ++ r)
                end
            end
      end
  end.

(** What a caller of [stop_application] gets: the call returns or raises
    ([StopReturned], with the manager and the run), or it stays suspended for
    ever ([StopPending], with the manager as it is while the call is
    suspended and the run up to there). *)
Inductive stop_outcome :=
| StopReturned (res : (error + bool) * manager * run)
| StopPending (m : manager) (r : run).

(** [stop_application(app_id, user_id)] with its last wait as it is written:
    [await process.wait()] after [process.kill()] has no timeout. asyncio lets
    a wait on a process return once the process has exited and its pipes are
    closed; [start_application] gives the process a pipe for stdout and one
    for stderr and nothing reads them. [wait_returns] tells whether that last
    wait ever returns; when it does not, the monitor of the instance, which is
    suspended in a wait on the same process, does not run either. The wait
    inside [wait_for] is cut off by the timeout: it returns in time exactly
    when [term_exit] says so. *)
Definition stop_application_outcome (wait_returns : bool) (os : os_behaviour)
    (monitor_first : bool) (now : Z) (app_id : string) (user_id : option string)
    (m : manager) : stop_outcome :=
  match running_apps m !! app_id with
  | None => StopReturned (inl NotFound, m, [])
  | Some l =>
      match store m !! l with
      | None => StopReturned (inl NotFound, m, [])
      | Some o =>
          if negb (permitted user_id o) then StopReturned (inl Forbidden, m, [])
          else
            let p := pid (info_process o) in
            match returncode (info_process o) with
            | Some _ =>
                let '(b, m', r) := stop_delete app_id m in StopReturned (inr b, m', r)
            | None =>
                let in_time :=
                  match term_exit os with
                  | Some (d, c) => if (d <? grace_period)%Z then Some (d, c) else None
                  | None => None
                  end in
                match in_time with
                | Some (d, c) =>
                    let m1 := exit_while_suspended monitor_first (now + d) c app_id l m in
                    let '(b, m', r) := stop_delete app_id m1 in
                    StopReturned
                      (inr b, m',
                       [(EvTerminate p, m); (EvWaitFor grace_period true, m1)] ++ r)
                | None =>
                    if wait_returns
                    then
                      let m1 := exit_while_suspended monitor_first
                                  (now + grace_period) (kill_code os) app_id l m in
                      let '(b, m', r) := stop_delete app_id m1 in
                      StopReturned
                        (inr b, m',
                         [(EvTerminate p, m); (EvWaitFor grace_period false, m);
                          (EvKill p, m); (EvWait p, m1)] ++ r)
                    else
                      StopPending m
                        [(EvTerminate p, m); (EvWaitFor grace_period false, m);
                         (EvKill p, m)]
                end
            end
      end
  end.

(** *** Invariants and derived notions *)

(** Every entry of the table refers to an object of the store that carries
    the key as its "id". *)
Definition wf (m : manager) : Prop :=
  ∀ k l, running_apps m !! k = Some l → info_id <$> (store m !! l) = Some k.

(** Every entry of the table has its monitor task. *)
Definition monitored (m : manager) : Prop :=
  ∀ k l, running_apps m !! k = Some l → (k, l) ∈ monitors m.

(** The states the manager can be in: [init], then calls of its methods,
    process exits and monitor wake-ups in any order, every call running to
    its end before the next step. *)
Inductive reachable : manager → Prop :=
| reach_init allowed max :
    reachable (init allowed max)
| reach_start token spawn now app_name user_id m :
    reachable m →
    reachable (start_application token spawn now app_name user_id m).2
| reach_stop os monitor_first now app_id user_id m :
    reachable m →
    reachable (stop_application os monitor_first now app_id user_id m).1.2
| reach_status now app_id m :
    reachable m →
    reachable (get_application_status now app_id m).2
| reach_list now user_id m :
    reachable m →
    reachable (list_running_applications now user_id m).2
| reach_exit l code m :
    reachable m →
    reachable (process_exited l code m)
| reach_resume now app_id l m :
    reachable m → (app_id, l) ∈ monitors m →
    reachable (monitor_resume now app_id l m)
| reach_monitor code now app_id l m :
    reachable m → (app_id, l) ∈ monitors m →
    reachable (monitor_wake code now app_id l m).

(** The process of the object at [l] has exited. *)
Definition exited (l : loc) (m : manager) : Prop :=
  ∃ o, store m !! l = Some o ∧ is_Some (returncode (info_process o)).

(** The status strings of the code: an instance is non-terminal while its
    status is "running" (the record is created with it), terminal once it is
    "stopped". *)
Definition non_terminal (m : manager) (kv : string * loc) : Prop :=
  status <$> (store m !! kv.2) = Some "running".

Global Instance non_terminal_dec m kv : Decision (non_terminal m kv).
Proof. unfold non_terminal. apply _. Defined.

Definition non_terminal_count (m : manager) : nat :=
  size (filter (non_terminal m) (running_apps m)).

(** One [start_application] call with all it reads from outside. *)
Record start_call := StartCall {
  call_token : string;
  call_spawn : option Z;
  call_now : Z;
  call_app_name : string;
  call_user_id : string }.

Definition start_call_run (c : start_call) (m : manager) : (error + loc) * manager :=
  start_application (call_token c) (call_spawn c) (call_now c)
                    (call_app_name c) (call_user_id c) m.

(** A sequence of [start_application] calls, with the result of each. *)
Fixpoint start_all (cs : list start_call) (m : manager) : list (error + loc) * manager :=
  match cs with
  | [] => ([], m)
  | c :: cs' =>
      let '(r, m1) := start_call_run c m in
      let '(rs, m2) := start_all cs' m1 in
      (r :: rs, m2)
  end.

(** The lifecycle state that the specification derives from the exit code
    of the process: "stopped" after a clean exit, "crashed" otherwise. *)
Definition exit_state_spec (code : Z) : string :=
  if (code =? 0)%Z then "stopped" else "crashed".

(** The sequence of steps that the contract of [stop] prescribes for a
    process with return code [rc] at the time of the call: nothing but the
    removal when it has exited already; otherwise terminate, wait for the
    grace period, and kill and wait again when the grace period ran out. *)
Definition exits_in_time (os : os_behaviour) : bool :=
  match term_exit os with
  | Some (d, _) => (d <? grace_period)%Z
  | None => false
  end.


Definition stop_last_step (app_id : string) (b : bool) : event :=
  if b then EvDelete app_id else EvKeyError app_id.



(** *** The two halves of a start *)

(** [start_application] is suspended once, in
    [await asyncio.create_subprocess_exec(...)], between its two checks and
    the insertion into the table, and other coroutines run meanwhile.
    [start_check] is the call up to the suspension: the error it raises, if
    any. *)
Definition start_check (app_name : string) (m : manager) : option error :=
  if negb (bool_decide (app_name ∈ allowed_apps m)) then Some NotAllowed
  else if (max_concurrent m <=? Z.of_nat (size (running_apps m)))%Z
  then Some CapacityExceeded
  else None.

(** [start_resume] is the call from the return of the spawn on, in the
    manager as it is by then. *)
Definition start_resume (token : string) (spawn : option Z) (now : Z)
    (app_name user_id : string) (m : manager) : (error + loc) * manager :=
  match spawn with
  | None => (inl LaunchFailed, m)
  | Some p =>
      let l := fresh (dom (store m)) in
      let o := AppInfo token app_name user_id (Process p None) now "running" None in
      (inr l,
       Manager (<[l := o]> (store m)) (<[token := l]> (running_apps m))
               (allowed_apps m) (max_concurrent m)
               (monitors m ++ [(token, l)]))
  end.

(** Two calls that overlap: both have run up to their suspension, in the
    same manager, before the first of them is resumed. *)
Definition start_overlapping (c1 c2 : start_call) (m : manager)
  : (error + loc) * (error + loc) * manager :=
  let check1 := start_check (call_app_name c1) m in
  let check2 := start_check (call_app_name c2) m in
  let '(r1, m1) :=
    match check1 with
    | Some e => (inl e, m)
    | None => start_resume (call_token c1) (call_spawn c1) (call_now c1)
                           (call_app_name c1) (call_user_id c1) m
    end in
  let '(r2, m2) :=
    match check2 with
    | Some e => (inl e, m1)
    | None => start_resume (call_token c2) (call_spawn c2) (call_now c2)
                           (call_app_name c2) (call_user_id c2) m1
    end in
  (r1, r2, m2).

(** *** Shutdown and ownership *)

(** The loop of [cleanup()]:
    [for app_id in list(self.running_apps.keys()): await self.stop_application(app_id, None)].
    Every instance has its own process ([os], [wait_returns]), its own
    scheduling of the monitor ([monitor_first]) and its own time of call
    ([clock]). An exception of [stop_application] is not caught: it ends the
    loop. The result is [None] when a call stays suspended for ever, and the
    loop with it. *)
Fixpoint stop_all (wait_returns : string → bool) (os : string → os_behaviour)
    (monitor_first : string → bool) (clock : string → Z) (ids : list string)
    (m : manager) : option (option error * manager) :=
  match ids with
  | [] => Some (None, m)
  | app_id :: rest =>
      match stop_application_outcome (wait_returns app_id) (os app_id)
              (monitor_first app_id) (clock app_id) app_id None m with
      | StopPending _ _ => None
      | StopReturned (inl e, m', _) => Some (Some e, m')
      | StopReturned (inr _, m', _) => stop_all wait_returns os monitor_first clock rest m'
      end
  end.

Definition cleanup (wait_returns : string → bool) (os : string → os_behaviour)
    (monitor_first : string → bool) (clock : string → Z) (m : manager)
  : option (option error * manager) :=
  stop_all wait_returns os monitor_first clock (map_to_list (running_apps m)).*1 m.

(** The filter of [list_running_applications] on an entry of the table:
    [user_id is None or app_info["user_id"] == user_id]. *)
Definition owned_by (m : manager) (user_id : option string) (kv : string * loc) : bool :=
  match store m !! kv.2 with
  | Some o => bool_decide (user_id = None ∨ user_id = Some (info_user_id o))
  | None => false
  end.

(** The table and, object by object, the id and the owner are the same in
    both managers. *)
Definition same_entries (m m' : manager) : Prop :=
  running_apps m' = running_apps m ∧
  ∀ l, (λ o, (info_id o, info_user_id o)) <$> (store m' !! l)
       = (λ o, (info_id o, info_user_id o)) <$> (store m !! l).

(** *** Sample states *)

(** A manager that allows two applications and one instance at a time. *)
Definition sample_init : manager := init ["firefox"; "gedit"] 1.

(** Alice has started firefox: token "tok", process 4242, at time 100. *)
Definition sample_running : manager :=
  (start_application "tok" (Some 4242%Z) 100 "firefox" "alice" sample_init).2.

(** A process that ignores SIGTERM and dies of SIGKILL. *)
Definition sample_stubborn : os_behaviour := OsBehaviour None (-9).

End AppManager.

(** ** Iteration over Python sets

    The order in which Python iterates over a [set] is not specified: it is
    some enumeration of the elements, each once. The code below iterates with
    a given [set_order]; the facts hold for every one that is
    [set_order_ok]. *)

Definition set_order := gset string → list string.

Definition set_order_ok (iter : set_order) : Prop :=
  ∀ X, iter X ≡ₚ elements X.

(** One such enumeration: the order of [elements]. *)
Definition sample_iter : set_order := elements.

(** ** SessionManager *)

Module SessionManager.

(** [session["settings"]]. *)
Record settings := Settings {
  allow_guests : bool;
  max_participants : Z;
  recording_enabled : bool;
  chat_enabled : bool }.

(** An entry of [session["applications"]]. *)
Record binding := Binding {
  added_by : string;
  added_at : Z;
  shared : bool }.

(** A session dictionary; "closed_at" is absent until [close_session]. *)
Record session := Session {
  session_id : string;
  session_name : string;
  owner_id : string;
  created_at : Z;
  last_activity : Z;
  session_status : string;
  participants : gset string;
  applications : gmap string binding;
  session_settings : settings;
  closed_at : option Z }.

(** [SessionManager]. *)
Record registry := Registry {
  sessions : gmap string session;
  user_sessions : gmap string string;
  session_participants : gmap string (gset string);
  session_timeout : Z }.

Definition set_sessions (f : gmap string session → gmap string session) (r : registry) : registry :=
  Registry (f (sessions r)) (user_sessions r) (session_participants r) (session_timeout r).

Definition set_user_sessions (f : gmap string string → gmap string string) (r : registry) : registry :=
  Registry (sessions r) (f (user_sessions r)) (session_participants r) (session_timeout r).

Definition set_session_participants
    (f : gmap string (gset string) → gmap string (gset string)) (r : registry) : registry :=
  Registry (sessions r) (user_sessions r) (f (session_participants r)) (session_timeout r).

Definition set_participants (ps : gset string) (s : session) : session :=
  Session (session_id s) (session_name s) (owner_id s) (created_at s) (last_activity s)
          (session_status s) ps (applications s) (session_settings s) (closed_at s).

Definition set_last_activity (now : Z) (s : session) : session :=
  Session (session_id s) (session_name s) (owner_id s) (created_at s) now
          (session_status s) (participants s) (applications s) (session_settings s) (closed_at s).

Definition set_owner_id (u : string) (s : session) : session :=
  Session (session_id s) (session_name s) u (created_at s) (last_activity s)
          (session_status s) (participants s) (applications s) (session_settings s) (closed_at s).

Definition set_applications (f : gmap string binding → gmap string binding) (s : session) : session :=
  Session (session_id s) (session_name s) (owner_id s) (created_at s) (last_activity s)
          (session_status s) (participants s) (f (applications s)) (session_settings s) (closed_at s).

(** [session["status"] = "closed"; session["closed_at"] = now]. *)
Definition mark_closed (now : Z) (s : session) : session :=
  Session (session_id s) (session_name s) (owner_id s) (created_at s) (last_activity s)
          "closed" (participants s) (applications s) (session_settings s) (Some now).

(** [__init__] with the timeout read from the environment. *)
Definition init (timeout : Z) : registry := Registry ∅ ∅ ∅ timeout.

Definition default_settings : settings := Settings true 10 false true.

(** [create_session(owner_id, session_name)]; [uuid] is [str(uuid.uuid4())],
    [now] the value of [time.time()]. *)
Definition create_session (uuid : string) (now : Z) (owner : string)
    (name : option string) (r : registry) : session * registry :=
  let name' := match name with
               | Some n => if bool_decide (n = "") then "Session " +:+ String.substring 0 8 uuid else n
               | None => "Session " +:+ String.substring 0 8 uuid
               end in
  let s := Session uuid name' owner now now "active" {[owner]} ∅ default_settings None in
  (s, Registry (<[uuid := s]> (sessions r)) (<[owner := uuid]> (user_sessions r))
               (<[uuid := {[owner]}]> (session_participants r)) (session_timeout r)).

(** [join_session(session_id, user_id)]. The lookup
    [self.session_participants[session_id]] raises when the key is missing;
    the handler then returns [False] with the updates made so far. *)
Definition join_session (now : Z) (sid user : string) (r : registry) : bool * registry :=
  match sessions r !! sid with
  | None => (false, r)
  | Some s =>
      if negb (bool_decide (session_status s = "active")) then (false, r)
      else if (max_participants (session_settings s) <=? Z.of_nat (size (participants s)))%Z
      then (false, r)
      else
        let s1 := set_participants (participants s ∪ {[user]}) s in
        let r1 := set_user_sessions (<[user := sid]>) (set_sessions (<[sid := s1]>) r) in
        match session_participants r1 !! sid with
        | None => (false, r1)
        | Some ps =>
            (true,
             set_sessions (<[sid := set_last_activity now s1]>)
               (set_session_participants (<[sid := ps ∪ {[user]}]>) r1))
        end
  end.

(** [close_session(session_id)]; the loop over the participants runs in the
    order [iter] gives. *)
Definition close_session (iter : set_order) (now : Z) (sid : string) (r : registry)
  : bool * registry :=
  match sessions r !! sid with
  | None => (false, r)
  | Some s =>
      let s1 := mark_closed now s in
      let us := foldl (λ us u, delete u us) (user_sessions r) (iter (participants s1)) in
      (true,
       Registry (<[sid := s1]> (sessions r)) us
                (<[sid := ∅]> (session_participants r)) (session_timeout r))
  end.

(** [leave_session(user_id)]. [self.sessions[session_id]] and
    [self.session_participants[session_id]] raise when the key is missing,
    [next(iter(...))] raises on an empty iteration; the handler returns
    [False] with the updates made so far. *)
Definition leave_session (iter : set_order) (now : Z) (user : string) (r : registry)
  : bool * registry :=
  match user_sessions r !! user with
  | None => (false, r)
  | Some sid =>
      match sessions r !! sid with
      | None => (false, r)
      | Some s =>
          let s1 := set_participants (participants s ∖ {[user]}) s in
          let r1 := set_sessions (<[sid := s1]>) r in
          match session_participants r1 !! sid with
          | None => (false, r1)
          | Some ps =>
              let s2 := set_last_activity now s1 in
              let r2 := set_sessions (<[sid := s2]>)
                          (set_user_sessions (delete user)
                             (set_session_participants (<[sid := ps ∖ {[user]}]>) r1)) in
              if bool_decide (owner_id s2 = user) then
                if bool_decide (participants s2 = ∅) then
                  (true, (close_session iter now sid r2).2)
                else
                  match iter (participants s2) with
                  | new_owner :: _ =>
                      (true, set_sessions (<[sid := set_owner_id new_owner s2]>) r2)
                  | [] => (false, r2)
                  end
              else (true, r2)
          end
      end
  end.

(** [get_session] and [get_user_session]. *)
Definition get_session (sid : string) (r : registry) : option session :=
  sessions r !! sid.

Definition get_user_session (user : string) (r : registry) : option session :=
  match user_sessions r !! user with
  | None => None
  | Some sid => sessions r !! sid
  end.

(** [add_application_to_session(session_id, app_id, user_id)]. *)
Definition add_application_to_session (now : Z) (sid app_id user : string) (r : registry)
  : bool * registry :=
  match sessions r !! sid with
  | None => (false, r)
  | Some s =>
      if negb (bool_decide (user ∈ participants s)) then (false, r)
      else
        let s1 := set_applications (<[app_id := Binding user now true]>) s in
        (true, set_sessions (<[sid := set_last_activity now s1]>) r)
  end.

(** [remove_application_from_session(session_id, app_id, user_id)]. *)
Definition remove_application_from_session (now : Z) (sid app_id user : string) (r : registry)
  : bool * registry :=
  match sessions r !! sid with
  | None => (false, r)
  | Some s =>
      if negb (bool_decide (user ∈ participants s)) then (false, r)
      else
        match applications s !! app_id with
        | Some _ =>
            let s1 := set_applications (delete app_id) s in
            (true, set_sessions (<[sid := set_last_activity now s1]>) r)
        | None => (false, r)
        end
  end.

(** The [settings] argument of [update_session_settings]: the keys of
    [session["settings"]] that it carries. *)
Record settings_update := SettingsUpdate {
  new_allow_guests : option bool;
  new_max_participants : option Z;
  new_recording_enabled : option bool;
  new_chat_enabled : option bool }.

Definition update_settings (u : settings_update) (t : settings) : settings :=
  Settings (default (allow_guests t) (new_allow_guests u))
           (default (max_participants t) (new_max_participants u))
           (default (recording_enabled t) (new_recording_enabled u))
           (default (chat_enabled t) (new_chat_enabled u)).

Definition set_settings (t : settings) (s : session) : session :=
  Session (session_id s) (session_name s) (owner_id s) (created_at s) (last_activity s)
          (session_status s) (participants s) (applications s) t (closed_at s).

(** [update_session_settings(session_id, user_id, settings)]. *)
Definition update_session_settings (now : Z) (sid user : string) (u : settings_update)
    (r : registry) : bool * registry :=
  match sessions r !! sid with
  | None => (false, r)
  | Some s =>
      if negb (bool_decide (owner_id s = user)) then (false, r)
      else
        let s1 := set_settings (update_settings u (session_settings s)) s in
        (true, set_sessions (<[sid := set_last_activity now s1]>) r)
  end.

(** The test of [cleanup_expired_sessions]:
    [(current_time - session["last_activity"]) > self.session_timeout]. *)
Definition expired (now timeout : Z) (s : session) : bool :=
  (timeout <? now - last_activity s)%Z.

(** [cleanup_expired_sessions()]: the ids of the expired sessions are
    collected first, then each one is closed. *)
Definition expired_sessions (now : Z) (r : registry) : list string :=
  (filter (λ kv, expired now (session_timeout r) kv.2 = true) (map_to_list (sessions r))).*1.

Definition cleanup_expired_sessions (iter : set_order) (now : Z) (r : registry) : registry :=
  foldl (λ r sid, (close_session iter now sid r).2) r (expired_sessions now r).

(** *** Listings and statistics *)

(** An entry of the result of [list_sessions]. *)
Record session_summary := SessionSummary {
  summary_id : string;
  summary_name : string;
  summary_owner_id : string;
  participant_count : nat;
  summary_max_participants : Z;
  summary_created_at : Z;
  can_join : bool }.

(** [list_sessions(user_id)]: the active sessions; without a user,
    [user_id in session["participants"]] is false. *)
Definition summary_of (user_id : option string) (s : session) : session_summary :=
  SessionSummary (session_id s) (session_name s) (owner_id s) (size (participants s))
    (max_participants (session_settings s)) (created_at s)
    (match user_id with
     | Some u => bool_decide (u ∈ participants s)
     | None => false
     end || allow_guests (session_settings s)).

Definition active (s : session) : Prop := session_status s = "active".

Definition list_sessions (user_id : option string) (r : registry) : list session_summary :=
  summary_of user_id <$> filter active (map_to_list (sessions r)).*2.

(** The dictionary returned by [get_session_stats]. *)
Record session_stats := SessionStats {
  active_sessions : nat;
  total_participants : nat;
  total_sessions : nat }.

Definition get_session_stats (r : registry) : session_stats :=
  let act := filter active (map_to_list (sessions r)).*2 in
  SessionStats (length act) (sum_list ((λ s, size (participants s)) <$> act))
               (size (sessions r)).

(** *** Calls and runs *)

(** A call of a method that changes the registry, with what the call reads
    from outside. *)
Inductive call :=
| CreateSession (uuid : string) (now : Z) (owner : string) (name : option string)
| JoinSession (now : Z) (sid user : string)
| LeaveSession (now : Z) (user : string)
| CloseSession (now : Z) (sid : string)
| AddApplication (now : Z) (sid app_id user : string)
| RemoveApplication (now : Z) (sid app_id user : string)
| UpdateSettings (now : Z) (sid user : string) (u : settings_update)
| CleanupExpired (now : Z).

Definition exec (iter : set_order) (c : call) (r : registry) : registry :=
  match c with
  | CreateSession uuid now owner name => (create_session uuid now owner name r).2
  | JoinSession now sid user => (join_session now sid user r).2
  | LeaveSession now user => (leave_session iter now user r).2
  | CloseSession now sid => (close_session iter now sid r).2
  | AddApplication now sid app_id user => (add_application_to_session now sid app_id user r).2
  | RemoveApplication now sid app_id user =>
      (remove_application_from_session now sid app_id user r).2
  | UpdateSettings now sid user u => (update_session_settings now sid user u r).2
  | CleanupExpired now => cleanup_expired_sessions iter now r
  end.

(** [uuid.uuid4()] gives an id that no session of the table has. *)
Definition fresh_call (c : call) (r : registry) : Prop :=
  match c with
  | CreateSession uuid _ _ _ => sessions r !! uuid = None
  | _ => True
  end.

(** A run of calls, each with a fresh id where it creates a session. *)
Inductive runs (iter : set_order) : registry → list call → registry → Prop :=
| runs_nil r : runs iter r [] r
| runs_cons r c cs r' :
    fresh_call c r → runs iter (exec iter c r) cs r' → runs iter r (c :: cs) r'.

(** *** Invariant and reachable states *)

(** Every session has its entry in [session_participants], and the reverse
    map only names sessions of the table. *)
Definition inv (r : registry) : Prop :=
  (∀ sid, is_Some (sessions r !! sid) → is_Some (session_participants r !! sid)) ∧
  (∀ u sid, user_sessions r !! u = Some sid → is_Some (sessions r !! sid)).


(** While a session is active, its entry in [session_participants] is its
    set of participants. *)
Definition mirrored (r : registry) : Prop :=
  ∀ sid s, sessions r !! sid = Some s → session_status s = "active" →
           session_participants r !! sid = Some (participants s).

(** The owner of every active session is one of its participants. *)
Definition owner_member (r : registry) : Prop :=
  ∀ sid s, sessions r !! sid = Some s → active s → owner_id s ∈ participants s.

(** The reverse map sends a user to an active session that has the user
    among its participants. *)
Definition pointed (r : registry) : Prop :=
  ∀ u sid, user_sessions r !! u = Some sid →
           ∃ s, sessions r !! sid = Some s ∧ active s ∧ u ∈ participants s.

(** Every session of [r] is still in [r'], closed if it was closed, created
    when it was created. *)
Definition kept (r r' : registry) : Prop :=
  ∀ sid s, sessions r !! sid = Some s →
    ∃ s', sessions r' !! sid = Some s' ∧
          (session_status s = "closed" → session_status s' = "closed") ∧
          created_at s' = created_at s.

(** The states of the registry: [init], then calls of its methods. *)
Inductive reachable (iter : set_order) : registry → Prop :=
| reach_init timeout :
    reachable iter (init timeout)
| reach_create uuid now owner name r :
    reachable iter r → reachable iter (create_session uuid now owner name r).2
| reach_join now sid user r :
    reachable iter r → reachable iter (join_session now sid user r).2
| reach_leave now user r :
    reachable iter r → reachable iter (leave_session iter now user r).2
| reach_close now sid r :
    reachable iter r → reachable iter (close_session iter now sid r).2
| reach_add now sid app_id user r :
    reachable iter r → reachable iter (add_application_to_session now sid app_id user r).2
| reach_remove now sid app_id user r :
    reachable iter r → reachable iter (remove_application_from_session now sid app_id user r).2
| reach_update now sid user u r :
    reachable iter r → reachable iter (update_session_settings now sid user u r).2
| reach_cleanup now r :
    reachable iter r → reachable iter (cleanup_expired_sessions iter now r).

(** *** Sample states *)

(** u1 creates "sess-A" at time 0 and u2 joins at time 10. *)
Definition sample_created : registry :=
  (create_session "sess-A" 0 "u1" (Some "alpha") (init 3600)).2.

Definition sample_joined : registry :=
  (join_session 10 "sess-A" "u2" sample_created).2.

(** "sess-A" of [sample_created] is swept at time 4000, u1 creates "sess-B"
    at time 4100. *)
Definition sample_swept : registry :=
  cleanup_expired_sessions sample_iter 4000 sample_created.

Definition sample_resumed : registry :=
  (create_session "sess-B" 4100 "u1" None sample_swept).2.


(** The calls that lead to [sample_joined]. *)
Definition sample_calls : list call :=
  [CreateSession "sess-A" 0 "u1" (Some "alpha"); JoinSession 10 "sess-A" "u2"].

End SessionManager.

(** ** WebSocketHandler *)

Module WebSocketHandler.

(** The dictionaries that the handler sends to clients, by their "type". *)
Inductive message :=
| AppJoined (app_id : string) (timestamp : Z)
| MouseEvent (client_id : string) (event_type : option string) (x y button : Z) (timestamp : Z)
| KeyboardEvent (client_id : string) (key : option string) (modifiers : list string)
                (timestamp : Z)
| AppUpdate (update_type data : string) (timestamp : Z)
| WindowUpdate (window : string) (timestamp : Z)
| ScreenshotUpdate (screenshot : string) (timestamp : Z).

(** The [xdotool] commands that [WindowManager.send_mouse_event] and
    [WindowManager.send_keyboard_event] run for a window. *)
Inductive injection :=
| InjectMouse (window_id event_type : string) (x y button : Z)
| InjectKey (window_id key : string) (modifiers : list string).

(** The [data] of a mouse event and of a keyboard event, with the keys
    that the handler reads. *)
Record mouse_data := MouseData {
  mouse_type : option string;
  mouse_x : option Z;
  mouse_y : option Z;
  mouse_button : option Z }.

Record keyboard_data := KeyboardData {
  keyboard_key : option string;
  keyboard_modifiers : option (list string) }.

(** What surrounds the handler: whether a send to a client goes through
    (else it raises), and the windows that [get_application_windows] finds
    for an application. *)
Record world := World {
  send_ok : string → bool;
  windows : string → list string }.

(** [WebSocketHandler], with what has left it: [sent] holds for every
    client the messages delivered to it, oldest first, and [injected] the
    commands run on the display. *)
Record handler := Handler {
  connected_clients : gset string;
  app_sessions : gmap string (gset string);
  client_apps : gmap string string;
  sent : gmap string (list message);
  injected : list injection }.

Definition init : handler := Handler ∅ ∅ ∅ ∅ [].

Definition sent_to (c : string) (h : handler) : list message :=
  default [] (sent h !! c).

(** The subscribers of a room. *)
Definition room (app_id : string) (h : handler) : gset string :=
  default ∅ (app_sessions h !! app_id).

Definition set_app_sessions
    (f : gmap string (gset string) → gmap string (gset string)) (h : handler) : handler :=
  Handler (connected_clients h) (f (app_sessions h)) (client_apps h) (sent h) (injected h).

Definition set_client_apps (f : gmap string string → gmap string string) (h : handler) : handler :=
  Handler (connected_clients h) (app_sessions h) (f (client_apps h)) (sent h) (injected h).

Definition set_connected_clients (f : gset string → gset string) (h : handler) : handler :=
  Handler (f (connected_clients h)) (app_sessions h) (client_apps h) (sent h) (injected h).

Definition add_injection (i : injection) (h : handler) : handler :=
  Handler (connected_clients h) (app_sessions h) (client_apps h) (sent h) (injected h ++ [i]).

(** [send_to_client(client_id, data)]: an exception of the send is caught
    inside, nothing propagates to the caller. *)
Definition send_to_client (w : world) (c : string) (data : message) (h : handler) : handler :=
  if send_ok w c
  then Handler (connected_clients h) (app_sessions h) (client_apps h)
               (<[c := sent_to c h ++ [data]]> (sent h)) (injected h)
  else h.

(** [broadcast_to_app(app_id, data, exclude_client)]. *)
Definition broadcast_to_app (iter : set_order) (w : world) (app_id : string)
    (data : message) (exclude_client : option string) (h : handler) : handler :=
  match app_sessions h !! app_id with
  | None => h
  | Some subscribers =>
      foldl (λ h c, if bool_decide (Some c ≠ exclude_client)
                    then send_to_client w c data h else h)
            h (iter subscribers)
  end.

(** [handle_connect] and [handle_disconnect]. *)
Definition handle_connect (c : string) (h : handler) : handler :=
  set_connected_clients (λ X, X ∪ {[c]}) h.

(** The part shared by [handle_disconnect] and [leave_application]. *)
Definition leave_application (c : string) (h : handler) : handler :=
  match client_apps h !! c with
  | None => h
  | Some app_id =>
      let h1 :=
        match app_sessions h !! app_id with
        | None => h
        | Some subscribers =>
            let rest := subscribers ∖ {[c]} in
            if bool_decide (rest = ∅)
            then set_app_sessions (delete app_id) h
            else set_app_sessions (<[app_id := rest]>) h
        end in
      set_client_apps (delete c) h1
  end.

Definition handle_disconnect (c : string) (h : handler) : handler :=
  leave_application c (set_connected_clients (λ X, X ∖ {[c]}) h).

(** [join_application(client_id, app_id)]. *)
Definition join_application (w : world) (now : Z) (c app_id : string) (h : handler) : handler :=
  let h1 := leave_application c h in
  let h2 := set_app_sessions (<[app_id := room app_id h1 ∪ {[c]}]>) h1 in
  let h3 := set_client_apps (<[c := app_id]>) h2 in
  send_to_client w c (AppJoined app_id now) h3.

(** [WindowManager.send_mouse_event]: the four event types it knows run a
    command, any other does nothing. *)
Definition send_mouse_event (window_id : string) (event_type : option string)
    (x y button : Z) (h : handler) : handler :=
  match event_type with
  | Some t =>
      if bool_decide (t ∈ ["click"; "mousemove"; "mousedown"; "mouseup"])
      then add_injection (InjectMouse window_id t x y button) h
      else h
  | None => h
  end.

(** [WindowManager.send_keyboard_event]: without a key the command cannot
    be built, the exception is caught inside. *)
Definition send_keyboard_event (window_id : string) (key : option string)
    (modifiers : list string) (h : handler) : handler :=
  match key with
  | Some k => add_injection (InjectKey window_id k modifiers) h
  | None => h
  end.


(** The window a command acts on. *)
Definition injection_window (i : injection) : string :=
  match i with
  | InjectMouse win _ _ _ _ => win
  | InjectKey win _ _ => win
  end.

(** The first window of the application, if it has one. *)
Definition main_window (w : world) (app_id : string) : option string :=
  head (windows w app_id).

(** [handle_mouse_event(client_id, data)]; [not app_id] holds for a client
    without an entry as for an empty id. *)
Definition handle_mouse_event (iter : set_order) (w : world) (now : Z)
    (c : string) (data : mouse_data) (h : handler) : handler :=
  match client_apps h !! c with
  | None => h
  | Some app_id =>
      if bool_decide (app_id = "") then h
      else
        let event_type := mouse_type data in
        let x := default 0%Z (mouse_x data) in
        let y := default 0%Z (mouse_y data) in
        let button := default 1%Z (mouse_button data) in
        let h1 := match main_window w app_id with
                  | Some win => send_mouse_event win event_type x y button h
                  | None => h
                  end in
        broadcast_to_app iter w app_id (MouseEvent c event_type x y button now) (Some c) h1
  end.

(** [handle_keyboard_event(client_id, data)]. *)
Definition handle_keyboard_event (iter : set_order) (w : world) (now : Z)
    (c : string) (data : keyboard_data) (h : handler) : handler :=
  match client_apps h !! c with
  | None => h
  | Some app_id =>
      if bool_decide (app_id = "") then h
      else
        let key := keyboard_key data in
        let modifiers := default [] (keyboard_modifiers data) in
        let h1 := match main_window w app_id with
                  | Some win => send_keyboard_event win key modifiers h
                  | None => h
                  end in
        broadcast_to_app iter w app_id (KeyboardEvent c key modifiers now) (Some c) h1
  end.


(** *** Other broadcasts *)

(** [broadcast_to_all(data, exclude_client)]. *)
Definition broadcast_to_all (iter : set_order) (w : world) (data : message)
    (exclude_client : option string) (h : handler) : handler :=
  foldl (λ h c, if bool_decide (Some c ≠ exclude_client)
                then send_to_client w c data h else h)
        h (iter (connected_clients h)).

(** [send_app_update], [send_window_update] and [send_screenshot_update]:
    a message of the given type to the room, no client excluded. *)
Definition send_app_update (iter : set_order) (w : world) (now : Z)
    (app_id update_type data : string) (h : handler) : handler :=
  broadcast_to_app iter w app_id (AppUpdate update_type data now) None h.

Definition send_window_update (iter : set_order) (w : world) (now : Z)
    (app_id window_data : string) (h : handler) : handler :=
  broadcast_to_app iter w app_id (WindowUpdate window_data now) None h.

Definition send_screenshot_update (iter : set_order) (w : world) (now : Z)
    (app_id screenshot_data : string) (h : handler) : handler :=
  broadcast_to_app iter w app_id (ScreenshotUpdate screenshot_data now) None h.

(** *** Calls and runs *)

(** A call of a method of the handler. *)
Inductive call :=
| Connect (c : string)
| Disconnect (c : string)
| JoinApplication (now : Z) (c app_id : string)
| LeaveApplication (c : string)
| MouseInput (now : Z) (c : string) (data : mouse_data)
| KeyboardInput (now : Z) (c : string) (data : keyboard_data)
| BroadcastToApp (app_id : string) (data : message) (exclude_client : option string)
| BroadcastToAll (data : message) (exclude_client : option string).

Definition exec (iter : set_order) (w : world) (c : call) (h : handler) : handler :=
  match c with
  | Connect c => handle_connect c h
  | Disconnect c => handle_disconnect c h
  | JoinApplication now c app_id => join_application w now c app_id h
  | LeaveApplication c => leave_application c h
  | MouseInput now c data => handle_mouse_event iter w now c data h
  | KeyboardInput now c data => handle_keyboard_event iter w now c data h
  | BroadcastToApp app_id data exclude_client =>
      broadcast_to_app iter w app_id data exclude_client h
  | BroadcastToAll data exclude_client => broadcast_to_all iter w data exclude_client h
  end.

Definition run (iter : set_order) (w : world) (cs : list call) (h : handler) : handler :=
  foldl (λ h c, exec iter w c h) h cs.

(** The two tables agree, and no room is empty: a client is a subscriber of
    a room exactly when [client_apps] sends it there. *)
Definition consistent (h : handler) : Prop :=
  (∀ c app_id, c ∈ room app_id h ↔ client_apps h !! c = Some app_id) ∧
  (∀ app_id, app_sessions h !! app_id ≠ Some ∅).

(** *** Derived notions *)

(** Two handlers with the same tables and the same commands run. *)
Definition same_tables (h h' : handler) : Prop :=
  connected_clients h' = connected_clients h ∧ app_sessions h' = app_sessions h ∧
  client_apps h' = client_apps h ∧ injected h' = injected h.

(** What one send adds to the messages of a client: [data] when it goes
    through, nothing when it fails. *)
Definition received (ok : bool) (data : message) : list message :=
  if ok then [data] else [].

(** The command that [WindowManager.send_mouse_event] runs for the mouse
    event [data] on the main window, if the application has one: a click, a
    move, a press or a release at the coordinates and with the button of the
    event (0, 0 and button 1 where the event has none). *)
Definition mouse_commands (win : option string) (data : mouse_data) : list injection :=
  match win, mouse_type data with
  | Some window_id, Some t =>
      if bool_decide (t ∈ ["click"; "mousemove"; "mousedown"; "mouseup"])
      then [InjectMouse window_id t (default 0%Z (mouse_x data)) (default 0%Z (mouse_y data))
                        (default 1%Z (mouse_button data))]
      else []
  | _, _ => []
  end.

(** The command that [WindowManager.send_keyboard_event] runs for the
    keyboard event [data] on the main window: the key with its modifiers. *)
Definition keyboard_commands (win : option string) (data : keyboard_data) : list injection :=
  match win, keyboard_key data with
  | Some window_id, Some k =>
      [InjectKey window_id k (default [] (keyboard_modifiers data))]
  | _, _ => []
  end.

(** An input event of [c], a subscriber of the room [app_id], travels two
    ways: the commands [cmds] are run on the display, and [msg] is sent to
    every subscriber of the room but [c]. The tables stay as they are. *)
Definition forwarded (w : world) (c app_id : string) (cmds : list injection)
    (msg : message) (h h' : handler) : Prop :=
  connected_clients h' = connected_clients h ∧
  app_sessions h' = app_sessions h ∧
  client_apps h' = client_apps h ∧
  injected h' = injected h ++ cmds ∧
  ∀ c', sent_to c' h'
        = sent_to c' h
          ++ received (bool_decide (c' ∈ room app_id h ∧ c' ≠ c) && send_ok w c') msg.

(** *** Sample states *)

(** Clients a, b and f have joined "app1"; sends to f fail. *)
Definition sample_world : world :=
  World (λ c, bool_decide (c ≠ "f")) (λ app_id, if bool_decide (app_id = "app1") then ["0x2a"] else []).

Definition sample_room : handler :=
  join_application sample_world 3 "f" "app1"
    (join_application sample_world 2 "b" "app1"
       (join_application sample_world 1 "a" "app1" init)).


End WebSocketHandler.

(** ** LiveStreamer *)

Module LiveStreamer.

(** The "frame" message of [capture_and_stream]. *)
Record frame := Frame {
  frame_data : string;
  frame_timestamp : Z }.

(** [LiveStreamer], with the frames delivered to every client. *)
Record streamer := Streamer {
  clients : gset string;
  is_streaming : bool;
  delivered : gmap string (list frame) }.

Definition delivered_to (c : string) (st : streamer) : list frame :=
  default [] (delivered st !! c).

(** [client.send(message)] under [asyncio.gather(..., return_exceptions=True)]:
    a send that raises yields its exception as a result and nothing else. *)
Definition send (send_ok : string → bool) (message : frame) (st : streamer) (c : string)
  : streamer :=
  if send_ok c
  then Streamer (clients st) (is_streaming st)
                (<[c := delivered_to c st ++ [message]]> (delivered st))
  else st.

(** One turn of the loop of [capture_and_stream]; [screenshot] is the result
    of [capture_screen]. *)
Definition capture_and_stream_step (iter : set_order) (send_ok : string → bool)
    (screenshot : option string) (now : Z) (st : streamer) : streamer :=
  match screenshot with
  | Some data =>
      if bool_decide (data ≠ "") && bool_decide (clients st ≠ ∅)
      then foldl (send send_ok (Frame data now)) st (iter (clients st))
      else st
  | None => st
  end.

(** The turns of the loop for a sequence of captures. *)
Definition capture_and_stream (iter : set_order) (send_ok : string → bool)
    (captures : list (option string * Z)) (st : streamer) : streamer :=
  foldl (λ st cap, capture_and_stream_step iter send_ok cap.1 cap.2 st) st captures.


(** The frames that a sequence of captures puts on the wire: one for every
    capture that produced an image. *)
Definition frames_of (captures : list (option string * Z)) : list frame :=
  omap (λ cap, match cap.1 with
               | Some data => if bool_decide (data ≠ "") then Some (Frame data cap.2) else None
               | None => None
               end) captures.

(** The [finally] block of [handle_client]: the connection of [c] is
    closed. *)
Definition client_disconnected (c : string) (st : streamer) : streamer :=
  Streamer (clients st ∖ {[c]}) (is_streaming st) (delivered st).






(** Three clients, of which f cannot be sent to. *)
Definition sample_streamer : streamer := Streamer {["a"; "b"; "f"]} true ∅.

End LiveStreamer.

(** ** Facts about the iteration order *)

Lemma sample_iter_ok : set_order_ok sample_iter.
Proof. intros X. reflexivity. Defined.

(** ** Facts about ApplicationManager *)

Module AppManagerFacts.
Import AppManager.

Section store_updates.
Context (f : app_info → app_info) (Hf : ∀ o, info_id (f o) = info_id o).

Lemma alter_keeps_id (s : gmap loc app_info) (l l' : loc) :
  info_id <$> (alter f l s !! l') = info_id <$> (s !! l').
Proof using Hf.
  destruct (decide (l = l')) as [->|Hne].
  - rewrite lookup_alter_eq. destruct (s !! l') as [o|]; simpl; [by rewrite Hf | done].
  - by rewrite lookup_alter_ne.
Qed.

Lemma wf_alter (l : loc) (m : manager) : wf m → wf (set_store (alter f l) m).
Proof using Hf. intros Hwf k l' Hk. simpl. rewrite alter_keeps_id. by apply Hwf. Qed.

End store_updates.

Lemma refresh_keeps_id now o : info_id (refresh now o) = info_id o.
Proof. unfold refresh. by destruct (returncode (info_process o)). Qed.

Lemma wf_delete (k : string) (m : manager) : wf m → wf (set_running_apps (delete k) m).
Proof.
  intros Hwf k' l Hk. simpl in *.
  apply lookup_delete_Some in Hk as [_ Hk]. by apply Hwf.
Qed.

Lemma wf_set_monitors g (m : manager) : wf m → wf (set_monitors g m).
Proof. intros Hwf k l Hk. by apply Hwf. Qed.

Lemma wf_process_exited l code m : wf m → wf (process_exited l code m).
Proof. by apply wf_alter. Qed.

Lemma wf_monitor_resume now app_id l m : wf m → wf (monitor_resume now app_id l m).
Proof.
  intros Hwf. unfold monitor_resume. apply wf_set_monitors.
  pose proof (wf_alter (mark_stopped now) (λ _, eq_refl) l m Hwf) as H1.
  destruct (running_apps _ !! app_id); [by apply wf_delete | done].
Qed.

Lemma wf_start token spawn now app_name user_id m :
  wf m → wf (start_application token spawn now app_name user_id m).2.
Proof.
  intros Hwf. unfold start_application.
  repeat case_match; simpl; try done.
  intros k l Hk. simpl in *.
  destruct (decide (token = k)) as [->|Hne].
  - rewrite lookup_insert_eq in Hk. injection Hk as <-. by rewrite lookup_insert_eq.
  - rewrite lookup_insert_ne in Hk by done.
    pose proof (Hwf _ _ Hk) as Hl.
    rewrite lookup_insert_ne; [done|].
    intros <-. pose proof (is_fresh (dom (store m))) as Hfr.
    apply Hfr, elem_of_dom. destruct (store m !! _); [eauto | done].
Qed.

Lemma wf_status now app_id m : wf m → wf (get_application_status now app_id m).2.
Proof.
  intros Hwf. unfold get_application_status.
  destruct (running_apps m !! app_id) as [l|] eqn:Hl; [|done].
  destruct (store m !! l) as [o|] eqn:Ho; [|done].
  intros k l' Hk. simpl in *.
  destruct (decide (l = l')) as [->|Hne].
  - rewrite lookup_insert_eq. simpl. rewrite refresh_keeps_id.
    specialize (Hwf _ _ Hk). by rewrite Ho in Hwf.
  - rewrite lookup_insert_ne by done. by apply Hwf.
Qed.

Lemma status_running_apps now app_id m :
  running_apps (get_application_status now app_id m).2 = running_apps m.
Proof. unfold get_application_status. by repeat case_match. Qed.

Lemma status_monitors now app_id m :
  monitors (get_application_status now app_id m).2 = monitors m.
Proof. unfold get_application_status. by repeat case_match. Qed.

(** A view returned by [get_application_status] carries the requested id. *)
Lemma status_view_id now app_id m v :
  wf m → (get_application_status now app_id m).1 = Some v → view_id v = app_id.
Proof.
  intros Hwf. unfold get_application_status.
  destruct (running_apps m !! app_id) as [l|] eqn:Hl; [|done].
  specialize (Hwf _ _ Hl).
  destruct (store m !! l) as [o|] eqn:Ho; [|done].
  simpl in *. intros [= <-]. simpl. rewrite refresh_keeps_id. congruence.
Qed.

(** The loop of [list_running_applications], entry by entry. *)
Lemma list_fold_spec now user_id (kvs : list (string * loc)) apps m :
  wf m →
  let r := foldl (list_step now user_id) (apps, m) kvs in
  wf r.2 ∧ running_apps r.2 = running_apps m ∧ monitors r.2 = monitors m ∧
  ∀ v, v ∈ r.1 → v ∈ apps ∨ ∃ kv, kv ∈ kvs ∧ view_id v = kv.1.
Proof.
  revert apps m. induction kvs as [|kv kvs IH]; intros apps m Hwf; cbn [foldl].
  { simpl. repeat split; auto. }
  assert (∃ apps' m', list_step now user_id (apps, m) kv = (apps', m') ∧
            wf m' ∧ running_apps m' = running_apps m ∧ monitors m' = monitors m ∧
            ∀ v, v ∈ apps' → v ∈ apps ∨ view_id v = kv.1) as (apps' & m' & -> & Hwf' & Hr & Hm & Hv).
  { assert (∃ apps' m', (apps, m) = (apps', m') ∧
            wf m' ∧ running_apps m' = running_apps m ∧ monitors m' = monitors m ∧
            ∀ v, v ∈ apps' → v ∈ apps ∨ view_id v = kv.1) as Hkeep.
    { exists apps, m. repeat split; auto. }
    unfold list_step. destruct (store m !! kv.2) as [o|]; [|exact Hkeep].
    case_bool_decide; [|exact Hkeep].
    pose proof (wf_status now kv.1 m Hwf) as H1.
    pose proof (status_running_apps now kv.1 m) as H2.
    pose proof (status_monitors now kv.1 m) as H3.
    pose proof (status_view_id now kv.1 m) as H4.
    destruct (get_application_status now kv.1 m) as [[v|] m1]; simpl in *.
    - eexists _, _. split; [done|]. split; [exact H1|]. split; [done|]. split; [done|].
      intros v' [Hv'|Hv']%elem_of_app; [by left|].
      apply list_elem_of_singleton in Hv' as ->. right. by apply H4.
    - exists apps, m1. repeat split; auto. }
  destruct (IH apps' m' Hwf') as (IH1 & IH2 & IH3 & IH4).
  split; [exact IH1|]. split; [congruence|]. split; [congruence|].
  intros v Hv0. destruct (IH4 v Hv0) as [Hin|(kv' & Hin & Heq)].
  - destruct (Hv v Hin) as [?|?]; [by left|]. right. exists kv. split; [left|done].
  - right. exists kv'. split; [by right|done].
Qed.

Lemma wf_list now user_id m : wf m → wf (list_running_applications now user_id m).2.
Proof. intros Hwf. by apply (list_fold_spec now user_id _ [] m Hwf). Qed.

(** Every view that [list_running_applications] returns is the view of a key
    of the table. *)
Lemma list_view_ids now user_id m v :
  wf m → v ∈ (list_running_applications now user_id m).1 →
  is_Some (running_apps m !! view_id v).
Proof.
  intros Hwf Hv.
  destruct (list_fold_spec now user_id (map_to_list (running_apps m)) [] m Hwf)
    as (_ & _ & _ & H).
  destruct (H v Hv) as [Hnil|([k l] & Hin & ->)]; [by apply elem_of_nil in Hnil|].
  apply elem_of_map_to_list in Hin. eauto.
Qed.

Lemma list_absent now user_id m app_id v :
  wf m → running_apps m !! app_id = None →
  v ∈ (list_running_applications now user_id m).1 → view_id v ≠ app_id.
Proof.
  intros Hwf Hnone Hv <-.
  destruct (list_view_ids now user_id m v Hwf Hv) as [l Hl]. congruence.
Qed.


Lemma wf_stop_delete app_id m : wf m → wf (stop_delete app_id m).1.2.
Proof.
  intros Hwf. unfold stop_delete.
  destruct (running_apps m !! app_id); simpl; [by apply wf_delete | done].
Qed.

Lemma wf_exit_while_suspended mf now code app_id l m :
  wf m → wf (exit_while_suspended mf now code app_id l m).
Proof.
  intros Hwf. unfold exit_while_suspended.
  destruct (mf && _); [apply wf_monitor_resume|]; by apply wf_process_exited.
Qed.

Lemma wf_stop os mf now app_id user_id m :
  wf m → wf (stop_application os mf now app_id user_id m).1.2.
Proof.
  intros Hwf. unfold stop_application.
  destruct (running_apps m !! app_id) as [l|]; [|done].
  destruct (store m !! l) as [o|]; [|done].
  destruct (negb (permitted user_id o)); [done|].
  destruct (returncode (info_process o)).
  { pose proof (wf_stop_delete app_id m Hwf) as H.
    by destruct (stop_delete app_id m) as [[b m'] r]. }
  destruct (match term_exit os with Some _ => _ | None => _ end) as [[d c]|].
  - pose proof (wf_stop_delete app_id _
      (wf_exit_while_suspended mf (now + d) c app_id l m Hwf)) as H.
    by destruct (stop_delete app_id _) as [[b m'] r].
  - pose proof (wf_stop_delete app_id _
      (wf_exit_while_suspended mf (now + grace_period) (kill_code os) app_id l m Hwf)) as H.
    by destruct (stop_delete app_id _) as [[b m'] r].
Qed.

Lemma monitored_delete k m : monitored m → monitored (set_running_apps (delete k) m).
Proof.
  intros Hm k' l Hk. simpl in *.
  apply lookup_delete_Some in Hk as [_ Hk]. by apply Hm.
Qed.

Lemma monitored_monitor_resume now app_id l m :
  monitored m → monitored (monitor_resume now app_id l m).
Proof.
  intros Hm k l' Hk. unfold monitor_resume in *. simpl in *.
  apply list_elem_of_filter.
  destruct (running_apps m !! app_id) as [l0|] eqn:Hl0; simpl in *.
  - apply lookup_delete_Some in Hk as [Hne Hk]. split; [congruence | by apply Hm].
  - split; [intros [= -> ->]; congruence | by apply Hm].
Qed.

Lemma monitored_stop_delete app_id m : monitored m → monitored (stop_delete app_id m).1.2.
Proof.
  intros Hm. unfold stop_delete.
  destruct (running_apps m !! app_id); simpl; [by apply monitored_delete | done].
Qed.

Lemma monitored_exit_while_suspended mf now code app_id l m :
  monitored m → monitored (exit_while_suspended mf now code app_id l m).
Proof.
  intros Hm. unfold exit_while_suspended.
  destruct (mf && _); [apply monitored_monitor_resume|]; exact Hm.
Qed.

Lemma monitored_stop os mf now app_id user_id m :
  monitored m → monitored (stop_application os mf now app_id user_id m).1.2.
Proof.
  intros Hm. unfold stop_application.
  destruct (running_apps m !! app_id) as [l|]; [|done].
  destruct (store m !! l) as [o|]; [|done].
  destruct (negb (permitted user_id o)); [done|].
  destruct (returncode (info_process o)).
  { pose proof (monitored_stop_delete app_id m Hm) as H.
    by destruct (stop_delete app_id m) as [[b m'] r]. }
  destruct (match term_exit os with Some _ => _ | None => _ end) as [[d c]|].
  - pose proof (monitored_stop_delete app_id _
      (monitored_exit_while_suspended mf (now + d) c app_id l m Hm)) as H.
    by destruct (stop_delete app_id _) as [[b m'] r].
  - pose proof (monitored_stop_delete app_id _
      (monitored_exit_while_suspended mf (now + grace_period) (kill_code os) app_id l m Hm)) as H.
    by destruct (stop_delete app_id _) as [[b m'] r].
Qed.

Lemma monitored_start token spawn now app_name user_id m :
  monitored m → monitored (start_application token spawn now app_name user_id m).2.
Proof.
  intros Hm. unfold start_application.
  repeat case_match; simpl; try done.
  intros k l Hk. simpl in *. apply elem_of_app.
  destruct (decide (token = k)) as [->|Hne].
  - rewrite lookup_insert_eq in Hk. injection Hk as <-. right. by apply list_elem_of_singleton.
  - rewrite lookup_insert_ne in Hk by done. left. by apply Hm.
Qed.

(** The invariants hold in every state the manager can reach. *)
Lemma reachable_wf_monitored m : reachable m → wf m ∧ monitored m.
Proof.
  induction 1 as [allowed max| token spawn now app_name user_id m _ [IH1 IH2]
                 | os mf now app_id user_id m _ [IH1 IH2]
                 | now app_id m _ [IH1 IH2] | now user_id m _ [IH1 IH2]
                 | l code m _ [IH1 IH2] | now app_id l m _ [IH1 IH2] Hin
                 | code now app_id l m _ [IH1 IH2] Hin].
  - split; intros k l Hk; simpl in Hk; by rewrite lookup_empty in Hk.
  - split; [by apply wf_start | by apply monitored_start].
  - split; [by apply wf_stop | by apply monitored_stop].
  - split; [by apply wf_status|].
    intros k l. rewrite status_running_apps, status_monitors. apply IH2.
  - split; [by apply wf_list|].
    destruct (list_fold_spec now user_id (map_to_list (running_apps m)) [] m IH1)
      as (_ & Hr & Hmon & _).
    intros k l. unfold list_running_applications. rewrite Hr, Hmon. apply IH2.
  - split; [by apply wf_process_exited | exact IH2].
  - split; [by apply wf_monitor_resume | by apply monitored_monitor_resume].
  - split; [by apply wf_monitor_resume, wf_process_exited|].
    by apply monitored_monitor_resume.
Qed.


(** *** Stopping an instance *)

Lemma stop_delete_spec app_id m :
  ∃ b m', stop_delete app_id m = (b, m', [(stop_last_step app_id b, m')]) ∧
          running_apps m' !! app_id = None ∧ store m' = store m ∧
          running_apps m' = delete app_id (running_apps m).
Proof.
  unfold stop_delete. destruct (running_apps m !! app_id) as [l|] eqn:Hl.
  - eexists true, _. split; [done|]. simpl. by rewrite lookup_delete_eq.
  - exists false, m. split; [done|]. split; [done|]. split; [done|].
    by rewrite delete_id.
Qed.

Lemma exit_while_suspended_spec mf now code app_id l o m :
  store m !! l = Some o →
  let m1 := exit_while_suspended mf now code app_id l m in
  (∃ o1, store m1 !! l = Some o1 ∧ returncode (info_process o1) = Some code) ∧
  (running_apps m1 = running_apps m ∨ running_apps m1 = delete app_id (running_apps m)).
Proof.
  intros Ho. unfold exit_while_suspended.
  destruct (mf && _); simpl.
  - split.
    + exists (mark_stopped now (set_returncode (Some code) o)).
      unfold monitor_resume. simpl.
      assert (∀ m2, store m2 = alter (mark_stopped now) l
                                  (alter (set_returncode (Some code)) l (store m)) →
                store m2 !! l = Some (mark_stopped now (set_returncode (Some code) o))) as Hst.
      { intros m2 ->. by rewrite !lookup_alter_eq, Ho. }
      split; [|done]. destruct (running_apps m !! app_id); by apply Hst.
    + unfold monitor_resume. simpl.
      destruct (running_apps m !! app_id) eqn:Hk; simpl; [by right|by left].
  - split; [|by left].
    exists (set_returncode (Some code) o). by rewrite lookup_alter_eq, Ho.
Qed.

(** The end of every run: the process has exited while the call was
    suspended, the deletion follows. *)
Lemma stop_after_exit mf t code app_id l o m :
  wf m → store m !! l = Some o →
  let m1 := exit_while_suspended mf t code app_id l m in
  ∃ b m' o',
    stop_delete app_id m1 = (b, m', [(stop_last_step app_id b, m')]) ∧
    wf m' ∧ running_apps m' !! app_id = None ∧
    store m' !! l = Some o' ∧ is_Some (returncode (info_process o')) ∧
    exited l m1 ∧ exited l m'.
Proof.
  intros Hwf Ho m1.
  destruct (exit_while_suspended_spec mf t code app_id l o m Ho) as ((o1 & Ho1 & Hc1) & _).
  pose proof (wf_stop_delete app_id m1 (wf_exit_while_suspended mf t code app_id l m Hwf))
    as Hwf'.
  destruct (stop_delete_spec app_id m1) as (b & m' & Heq & Hgone & Hst & _).
  rewrite Heq in Hwf'. exists b, m', o1.
  assert (is_Some (returncode (info_process o1))) as Hsome by (by rewrite Hc1).
  split; [done|]. split; [done|]. split; [done|]. split; [by rewrite Hst|].
  split; [done|]. split; exists o1; [done | by rewrite Hst].
Qed.




(** Whenever its last wait returns, the call is the one above. *)
Lemma stop_outcome_returned wr os mf now app_id user_id m :
  wr = true ∨ exits_in_time os = true ∨
  (∃ l o, running_apps m !! app_id = Some l ∧ store m !! l = Some o ∧
          is_Some (returncode (info_process o))) →
  stop_application_outcome wr os mf now app_id user_id m
  = StopReturned (stop_application os mf now app_id user_id m).
Proof.
  intros H. unfold stop_application_outcome, stop_application, exits_in_time in *.
  destruct (running_apps m !! app_id) as [l|] eqn:Hl; [|done].
  destruct (store m !! l) as [o|] eqn:Ho; [|done].
  destruct (negb (permitted user_id o)); [done|].
  destruct (returncode (info_process o)) as [c0|] eqn:Hrc.
  { by destruct (stop_delete app_id m) as [[b m'] r]. }
  destruct (term_exit os) as [[d c]|]; [destruct (d <? grace_period)%Z|].
  - by destruct (stop_delete app_id _) as [[b m'] r].
  - destruct wr.
    + by destruct (stop_delete app_id _) as [[b m'] r].
    + exfalso. destruct H as [?|[?|(l' & o' & ? & ? & [c' Hc'])]]; [done | done |].
      congruence.
  - destruct wr.
    + by destruct (stop_delete app_id _) as [[b m'] r].
    + exfalso. destruct H as [?|[?|(l' & o' & ? & ? & [c' Hc'])]]; [done | done |].
      congruence.
Qed.


(** A second [stop_application] for the same id, once the first has
    returned, finds no such application. *)
Lemma stop_application_again os mf now app_id requester m :
  running_apps m !! app_id = None →
  stop_application os mf now app_id requester m = (inl NotFound, m, []).
Proof. intros Hgone. unfold stop_application. by rewrite Hgone. Qed.

(** *** The monitor task *)

(** C2 (as the code has it). When the process of an instance of the table
    exits with any return code and no [stop_application] is involved, the
    instance has a monitor task, and once that task has woken the object is
    marked "stopped" (whatever the return code was) with the wake-up time as
    its "stopped_at", the process carries the return code, and the record is
    gone from the table, from [get_application_status] and from
    [list_running_applications]; no other entry of the table is touched. *)
Theorem monitor_wake_stopped code now app_id l m :
  reachable m →
  running_apps m !! app_id = Some l →
  (app_id, l) ∈ monitors m ∧
  ∃ o, store m !! l = Some o ∧
    let m' := monitor_wake code now app_id l m in
    store m' !! l = Some (mark_stopped now (set_returncode (Some code) o)) ∧
    status <$> (store m' !! l) = Some "stopped" ∧
    stopped_at <$> (store m' !! l) = Some (Some now) ∧
    returncode ∘ info_process <$> (store m' !! l) = Some (Some code) ∧
    running_apps m' = delete app_id (running_apps m) ∧
    (∀ t, (get_application_status t app_id m').1 = None) ∧
    (∀ t u v, v ∈ (list_running_applications t u m').1 → view_id v ≠ app_id).
Proof.
  intros Hreach Hl. destruct (reachable_wf_monitored m Hreach) as [Hwf Hmon].
  split; [by apply Hmon|].
  pose proof (Hwf _ _ Hl) as Hid.
  destruct (store m !! l) as [o|] eqn:Ho; [|done].
  exists o. split; [done|]. intros m'.
  assert (store m' !! l = Some (mark_stopped now (set_returncode (Some code) o))) as Hst.
  { unfold m', monitor_wake, monitor_resume. simpl. rewrite Hl. simpl.
    by rewrite !lookup_alter_eq, Ho. }
  assert (running_apps m' = delete app_id (running_apps m)) as Hra.
  { unfold m', monitor_wake, monitor_resume. simpl. by rewrite Hl. }
  assert (wf m') as Hwf'.
  { by apply wf_monitor_resume, wf_process_exited. }
  assert (running_apps m' !! app_id = None) as Hgone.
  { rewrite Hra. apply lookup_delete_eq. }
  rewrite Hst. split_and!; try done.
  - intros t. unfold get_application_status. by rewrite Hgone.
  - intros t u v. by apply list_absent.
Qed.

(** *** Starting an instance *)

Lemma non_terminal_count_le m : non_terminal_count m ≤ size (running_apps m).
Proof. apply map_subseteq_size, map_filter_subseteq. Qed.

Lemma start_at_capacity token spawn now app_name user_id m :
  app_name ∈ allowed_apps m →
  (max_concurrent m ≤ Z.of_nat (size (running_apps m)))%Z →
  start_application token spawn now app_name user_id m = (inl CapacityExceeded, m).
Proof.
  intros Hin Hmax. unfold start_application.
  rewrite bool_decide_eq_true_2 by done. simpl.
  by rewrite (proj2 (Z.leb_le _ _) Hmax).
Qed.

Lemma start_success_below_capacity token spawn now app_name user_id m l m' :
  start_application token spawn now app_name user_id m = (inr l, m') →
  (Z.of_nat (size (running_apps m)) < max_concurrent m)%Z.
Proof.
  unfold start_application.
  destruct (negb _); [done|].
  destruct (max_concurrent m <=? _)%Z eqn:E; [done|].
  intros _. by apply Z.leb_gt.
Qed.

(** C3. Once the number of non-terminal instances has reached
    [max_concurrent], every further [start_application] with an allowed name
    fails with [CapacityExceeded] and changes nothing, however many calls
    follow; and a later call can succeed only in a state from which some key
    of the table has been removed. *)
Theorem start_capacity_exceeded cs m :
  (max_concurrent m ≤ Z.of_nat (non_terminal_count m))%Z →
  Forall (λ c, call_app_name c ∈ allowed_apps m) cs →
  start_all cs m = (replicate (length cs) (inl CapacityExceeded), m) ∧
  ∀ c m' l m'',
    max_concurrent m' = max_concurrent m →
    start_call_run c m' = (inr l, m'') →
    ∃ k, k ∈ dom (running_apps m) ∧ k ∉ dom (running_apps m').
Proof.
  intros Hmax Hall.
  pose proof (non_terminal_count_le m) as Hle.
  split.
  - induction Hall as [|c cs Hc _ IH]; [done|].
    cbn [start_all length replicate]. unfold start_call_run.
    rewrite start_at_capacity by (done || lia). by rewrite IH.
  - intros c m' l m'' Hcfg Hok.
    apply start_success_below_capacity in Hok.
    assert (size (dom (running_apps m')) < size (dom (running_apps m))) as Hlt.
    { rewrite !size_dom. lia. }
    destruct (set_choose_or_empty (dom (running_apps m) ∖ dom (running_apps m')))
      as [[k Hk]|Hempty].
    + exists k. set_solver.
    + assert (dom (running_apps m) ⊆ dom (running_apps m')) as Hsub.
      { intros k Hk. destruct (decide (k ∈ dom (running_apps m'))); [done|].
        exfalso. eapply (not_elem_of_empty (C:=gset string) k).
        rewrite <- Hempty. set_solver. }
      apply subseteq_size in Hsub. lia.
Qed.

(** C8. When the spawn raises, [start_application] fails with
    [LaunchFailed] in the call itself and the manager is left as it was: no
    record, no object, no monitor. More generally a failed start, whatever
    its reason, changes nothing. *)
Theorem start_spawn_failure token now app_name user_id m :
  app_name ∈ allowed_apps m →
  (Z.of_nat (size (running_apps m)) < max_concurrent m)%Z →
  start_application token None now app_name user_id m = (inl LaunchFailed, m) ∧
  ∀ spawn e m', start_application token spawn now app_name user_id m = (inl e, m') → m' = m.
Proof.
  intros Hin Hlt. split.
  - unfold start_application. rewrite bool_decide_eq_true_2 by done. simpl.
    by rewrite (proj2 (Z.leb_gt _ _) Hlt).
  - intros spawn e m'. unfold start_application.
    repeat case_match; congruence.
Qed.


(** *** The theorems at the sample states *)

Lemma sample_running_reachable : reachable sample_running.
Proof. apply reach_start, reach_init. Defined.



Lemma monitor_wake_stopped_witness :
  reachable sample_running ∧
  running_apps sample_running !! "tok" = Some 0 ∧
  status <$> (store (monitor_wake 0 250 "tok" 0 sample_running) !! 0) = Some "stopped".
Proof.
  split; [exact sample_running_reachable|]. split; [reflexivity|].
  destruct (monitor_wake_stopped 0 250 "tok" 0 sample_running sample_running_reachable)
    as (_ & o & _ & _ & H & _); [reflexivity | exact H].
Defined.

(** C2, as the specification states it, fails: a process killed out of band
    (return code -9) leaves its instance "stopped", where the exit code asks
    for "crashed". *)
Lemma monitor_wake_killed_is_stopped :
  status <$> (store (monitor_wake (-9) 250 "tok" 0 sample_running) !! 0) = Some "stopped" ∧
  exit_state_spec (-9) = "crashed" ∧
  status <$> (store (monitor_wake (-9) 250 "tok" 0 sample_running) !! 0)
    ≠ Some (exit_state_spec (-9)).
Proof. split; [reflexivity|]. split; [reflexivity|]. vm_compute. discriminate. Qed.

Lemma start_capacity_exceeded_witness :
  (max_concurrent sample_running ≤ Z.of_nat (non_terminal_count sample_running))%Z ∧
  start_all [StartCall "t2" (Some 4243%Z) 300 "gedit" "bob";
             StartCall "t3" (Some 4244%Z) 400 "firefox" "alice"] sample_running
    = ([inl CapacityExceeded; inl CapacityExceeded], sample_running).
Proof.
  assert (max_concurrent sample_running ≤ Z.of_nat (non_terminal_count sample_running))%Z
    as Hmax by (vm_compute; discriminate).
  split; [exact Hmax|].
  refine (proj1 (start_capacity_exceeded _ sample_running Hmax _)).
  repeat constructor; apply (bool_decide_unpack _); reflexivity.
Defined.

Lemma start_spawn_failure_witness :
  "gedit" ∈ allowed_apps sample_init ∧
  (Z.of_nat (size (running_apps sample_init)) < max_concurrent sample_init)%Z ∧
  start_application "t0" None 50 "gedit" "bob" sample_init = (inl LaunchFailed, sample_init).
Proof.
  assert ("gedit" ∈ allowed_apps sample_init) as Hin
    by (apply (bool_decide_unpack _); reflexivity).
  assert (Z.of_nat (size (running_apps sample_init)) < max_concurrent sample_init)%Z as Hlt
    by reflexivity.
  split; [exact Hin|]. split; [exact Hlt|].
  exact (proj1 (start_spawn_failure "t0" 50 "gedit" "bob" sample_init Hin Hlt)).
Defined.

End AppManagerFacts.

(** ** More facts about ApplicationManager *)

Module AppManagerExtra.
Import AppManager AppManagerFacts.

(** *** What a stop changes *)

Lemma exit_while_suspended_frame mf now code app_id l m :
  let m1 := exit_while_suspended mf now code app_id l m in
  allowed_apps m1 = allowed_apps m ∧ max_concurrent m1 = max_concurrent m ∧
  (running_apps m1 = running_apps m ∨ running_apps m1 = delete app_id (running_apps m)).
Proof.
  unfold exit_while_suspended. destruct (mf && _); simpl; [|by auto].
  unfold monitor_resume. simpl.
  destruct (running_apps m !! app_id); simpl; auto.
Qed.

Lemma stop_delete_frame app_id m :
  allowed_apps (stop_delete app_id m).1.2 = allowed_apps m ∧
  max_concurrent (stop_delete app_id m).1.2 = max_concurrent m.
Proof. unfold stop_delete. by destruct (running_apps m !! app_id). Qed.

(** A stop that returns has deleted the key and nothing else of the table;
    a stop that raises has changed nothing. The configuration stays. *)
Lemma stop_application_frame os mf now app_id user_id m :
  let res := stop_application os mf now app_id user_id m in
  allowed_apps res.1.2 = allowed_apps m ∧ max_concurrent res.1.2 = max_concurrent m ∧
  match res.1.1 with
  | inr _ => running_apps res.1.2 = delete app_id (running_apps m)
  | inl _ => res.1.2 = m
  end.
Proof.
  assert (∀ mf t code l,
            let m1 := exit_while_suspended mf t code app_id l m in
            let d := stop_delete app_id m1 in
            allowed_apps d.1.2 = allowed_apps m ∧ max_concurrent d.1.2 = max_concurrent m ∧
            running_apps d.1.2 = delete app_id (running_apps m)) as Hexit.
  { intros mf' t code l m1 d.
    destruct (exit_while_suspended_frame mf' t code app_id l m) as (Ha & Hm & Hr).
    destruct (stop_delete_frame app_id m1) as [Ha' Hm'].
    destruct (stop_delete_spec app_id m1) as (b & m' & Heq & _ & _ & Hdel).
    fold m1 in Ha, Hm, Hr. unfold d in *. rewrite Heq in *. simpl in *.
    split; [congruence|]. split; [congruence|].
    rewrite Hdel. destruct Hr as [-> | ->]; [done | by rewrite delete_delete_eq]. }
  unfold stop_application.
  destruct (running_apps m !! app_id) as [l|] eqn:Hl; [|done].
  destruct (store m !! l) as [o|]; [|done].
  destruct (negb (permitted user_id o)); [done|].
  destruct (returncode (info_process o)).
  { destruct (stop_delete_frame app_id m) as [Ha Hm].
    destruct (stop_delete_spec app_id m) as (b & m' & Heq & _ & _ & Hdel).
    rewrite Heq in *. by simpl in *. }
  destruct (match term_exit os with Some _ => _ | None => _ end) as [[d c]|].
  - specialize (Hexit mf (now + d)%Z c l). simpl in Hexit.
    by destruct (stop_delete app_id _) as [[b m'] r].
  - specialize (Hexit mf (now + grace_period)%Z (kill_code os) l). simpl in Hexit.
    by destruct (stop_delete app_id _) as [[b m'] r].
Qed.

Lemma exited_alter (f : app_info → app_info) l l' m :
  (∀ o, is_Some (returncode (info_process o)) → is_Some (returncode (info_process (f o)))) →
  exited l m → exited l (set_store (alter f l') m).
Proof.
  intros Hf (o & Ho & Hsome). destruct (decide (l' = l)) as [->|Hne].
  - exists (f o). simpl. rewrite lookup_alter_eq, Ho. split; [done | by apply Hf].
  - exists o. simpl. by rewrite lookup_alter_ne.
Qed.

Lemma exited_exit_while_suspended mf now code app_id l' l m :
  exited l m → exited l (exit_while_suspended mf now code app_id l' m).
Proof.
  intros Hex. unfold exit_while_suspended.
  assert (exited l (process_exited l' code m)) as H1.
  { apply exited_alter; [|done]. intros o _. simpl. eauto. }
  destruct (mf && _); [|done].
  destruct H1 as (o & Ho & Hsome). unfold monitor_resume.
  destruct (exited_alter (mark_stopped now) l l' (process_exited l' code m))
    as (o2 & Ho2 & Hsome2); [by intros ? ? | by exists o |].
  exists o2. split; [|done].
  simpl in *. by destruct (running_apps m !! app_id).
Qed.

Lemma exited_stop_delete app_id l m : exited l m → exited l (stop_delete app_id m).1.2.
Proof. unfold stop_delete. by destruct (running_apps m !! app_id). Qed.

(** A process that has exited stays so through any [stop_application]. *)
Lemma exited_stop os mf now app_id user_id l m :
  exited l m → exited l (stop_application os mf now app_id user_id m).1.2.
Proof.
  intros Hex. unfold stop_application.
  destruct (running_apps m !! app_id) as [l'|]; [|done].
  destruct (store m !! l') as [o|]; [|done].
  destruct (negb (permitted user_id o)); [done|].
  destruct (returncode (info_process o)).
  { pose proof (exited_stop_delete app_id l m Hex) as H.
    by destruct (stop_delete app_id m) as [[b m'] r]. }
  destruct (match term_exit os with Some _ => _ | None => _ end) as [[d c]|].
  - pose proof (exited_stop_delete app_id l _
      (exited_exit_while_suspended mf (now + d) c app_id l' l m Hex)) as H.
    by destruct (stop_delete app_id _) as [[b m'] r].
  - pose proof (exited_stop_delete app_id l _
      (exited_exit_while_suspended mf (now + grace_period) (kill_code os) app_id l' l m Hex)) as H.
    by destruct (stop_delete app_id _) as [[b m'] r].
Qed.

(** A system stop (no requester) of an instance of the table returns, with
    the process exited. *)
Lemma stop_system os mf now app_id l m :
  wf m → running_apps m !! app_id = Some l →
  ∃ b m' r, stop_application os mf now app_id None m = (inr b, m', r) ∧ exited l m'.
Proof.
  intros Hwf Hl. pose proof (Hwf _ _ Hl) as Hid.
  destruct (store m !! l) as [o|] eqn:Ho; [|done].
  unfold stop_application. rewrite Hl, Ho. simpl.
  destruct (returncode (info_process o)) as [c0|] eqn:Hrc.
  { destruct (stop_delete_spec app_id m) as (b & m' & -> & _ & Hst & _).
    exists b, m', [(stop_last_step app_id b, m')]. split; [done|].
    exists o. rewrite Hst. split; [done|]. by rewrite Hrc. }
  destruct (term_exit os) as [[d c]|]; [destruct (d <? grace_period)%Z|];
    match goal with
    | |- context [exit_while_suspended mf ?t ?code app_id l m] =>
        destruct (stop_after_exit mf t code app_id l o m Hwf Ho)
          as (b & m' & o' & Heq & _ & _ & _ & _ & _ & Hex');
        rewrite Heq
    end; by eexists b, m', _.
Qed.



(** *** Shutdown *)

Lemma lookup_foldr_delete (t : gmap string loc) (ids : list string) k :
  foldr delete t ids !! k = if bool_decide (k ∈ ids) then None else t !! k.
Proof.
  induction ids as [|x ids IH]; cbn [foldr].
  { rewrite bool_decide_eq_false_2; [done | apply not_elem_of_nil]. }
  destruct (decide (x = k)) as [->|Hne].
  - rewrite lookup_delete_eq. rewrite bool_decide_eq_true_2; [done | left].
  - rewrite lookup_delete_ne, IH by done.
    assert (k ∈ x :: ids ↔ k ∈ ids) as Hiff by (rewrite elem_of_cons; intuition congruence).
    by rewrite (bool_decide_ext _ _ Hiff).
Qed.

Lemma stop_all_spec wr os mf clock ids m :
  wf m → NoDup ids → (∀ k, k ∈ ids → is_Some (running_apps m !! k)) →
  (∀ k, k ∈ ids → wr k = true ∨ exits_in_time (os k) = true) →
  ∃ m', stop_all wr os mf clock ids m = Some (None, m') ∧
        running_apps m' = foldr delete (running_apps m) (reverse ids) ∧
        (∀ l, exited l m → exited l m') ∧
        (∀ k l, k ∈ ids → running_apps m !! k = Some l → exited l m').
Proof.
  revert m. induction ids as [|k ids IH]; intros m Hwf Hnd Hin Hret; cbn [stop_all].
  { exists m. split; [done|]. split; [done|]. split; [done|].
    intros k l Hk. by apply elem_of_nil in Hk. }
  pose proof (NoDup_cons_1_1 _ _ Hnd) as Hk. apply NoDup_cons_1_2 in Hnd.
  destruct (Hin k) as [l Hl]; [by left|].
  rewrite stop_outcome_returned
    by (destruct (Hret k) as [?|?]; [by left | by left | by right; left]).
  destruct (stop_system (os k) (mf k) (clock k) k l m Hwf Hl) as (b & m1 & r & Heq & Hex).
  pose proof (wf_stop (os k) (mf k) (clock k) k None m Hwf) as Hwf1.
  pose proof (stop_application_frame (os k) (mf k) (clock k) k None m) as (_ & _ & Hdel).
  pose proof (λ l', exited_stop (os k) (mf k) (clock k) k None l' m) as Hmono.
  rewrite Heq in Hwf1, Hdel, Hmono |- *. simpl in Hwf1, Hdel, Hmono.
  destruct (IH m1 Hwf1 Hnd) as (m' & Hall & Htab & Hmono' & Hexs).
  { intros k' Hk'. rewrite Hdel, lookup_delete_ne; [apply Hin; by right|].
    intros ->. done. }
  { intros k' Hk'. apply Hret. by right. }
  exists m'. split; [done|]. split.
  { rewrite Htab, Hdel, reverse_cons, foldr_app. done. }
  split; [by auto|].
  intros k' l' [->|Hk']%elem_of_cons Hl'.
  - apply Hmono'. congruence.
  - apply (Hexs k' l' Hk'). rewrite Hdel, lookup_delete_ne; [done|]. intros ->. done.
Qed.

(** X1. [cleanup()] stops everything whose waits return: from a well-formed
    manager, when for every instance of the table the wait on its process
    returns (within the grace period after SIGTERM, or at last after
    SIGKILL), the loop ends without an exception, the table is empty
    afterwards, and the process of every instance that was in the table has
    exited, in whatever order the monitors run. *)
Theorem cleanup_empties_table wr os mf clock m :
  wf m →
  (∀ k, is_Some (running_apps m !! k) → wr k = true ∨ exits_in_time (os k) = true) →
  ∃ m', cleanup wr os mf clock m = Some (None, m') ∧
        running_apps m' = ∅ ∧
        ∀ k l, running_apps m !! k = Some l → exited l m'.
Proof.
  intros Hwf Hret. unfold cleanup.
  assert (∀ k, k ∈ (map_to_list (running_apps m)).*1 ↔ is_Some (running_apps m !! k)) as Hkeys.
  { intros k. rewrite list_elem_of_fmap. split.
    - intros ([k' l] & -> & Hin). apply elem_of_map_to_list in Hin. eauto.
    - intros [l Hl]. exists (k, l). split; [done|]. by apply elem_of_map_to_list. }
  destruct (stop_all_spec wr os mf clock (map_to_list (running_apps m)).*1 m Hwf)
    as (m' & Heq & Htab & _ & Hex).
  { apply NoDup_fst_map_to_list. }
  { intros k. apply Hkeys. }
  { intros k Hk. by apply Hret, Hkeys. }
  exists m'. split; [done|]. split.
  - apply map_empty. intros k. rewrite Htab, lookup_foldr_delete.
    case_bool_decide as Hk; [done|].
    destruct (running_apps m !! k) eqn:E; [|done].
    exfalso. apply Hk, elem_of_reverse, Hkeys. eauto.
  - intros k l Hl. apply (Hex k l); [|done]. apply Hkeys. eauto.
Qed.

Lemma cleanup_empties_table_witness :
  wf sample_running ∧
  (∀ k : string, is_Some (running_apps sample_running !! k) →
     (λ _ : string, true) k = true ∨ exits_in_time ((λ _ : string, sample_stubborn) k) = true) ∧
  ∃ m', cleanup (λ _, true) (λ _, sample_stubborn) (λ _, true) (λ _, 500%Z) sample_running
        = Some (None, m') ∧
        running_apps m' = ∅.
Proof.
  assert (wf sample_running) as Hwf
    by exact (proj1 (reachable_wf_monitored _ sample_running_reachable)).
  assert (∀ k : string, is_Some (running_apps sample_running !! k) →
            (λ _ : string, true) k = true
            ∨ exits_in_time ((λ _ : string, sample_stubborn) k) = true) as Hret
    by (intros k _; left; reflexivity).
  split; [exact Hwf|]. split; [exact Hret|].
  destruct (cleanup_empties_table (λ _, true) (λ _, sample_stubborn) (λ _, true)
              (λ _, 500%Z) sample_running Hwf Hret) as (m' & H1 & H2 & _).
  exists m'. split; [exact H1 | exact H2].
Defined.

(** *** Refused stops *)

(** X2. [stop_application] refuses an unknown id with [NotFound] and a
    requester that is neither empty nor the owner with [Forbidden]; in both
    cases no signal is sent and the manager is unchanged. *)
Theorem stop_application_refused os mf now app_id m :
  (running_apps m !! app_id = None →
     ∀ user_id, stop_application os mf now app_id user_id m = (inl NotFound, m, [])) ∧
  (∀ l o u, running_apps m !! app_id = Some l → store m !! l = Some o →
     u ≠ "" → u ≠ info_user_id o →
     stop_application os mf now app_id (Some u) m = (inl Forbidden, m, [])).
Proof.
  split.
  - intros Hnone user_id. unfold stop_application. by rewrite Hnone.
  - intros l o u Hl Ho Hu Hne. unfold stop_application. rewrite Hl, Ho. simpl.
    rewrite (bool_decide_eq_false_2 (u = "")) by done.
    rewrite (bool_decide_eq_false_2 (info_user_id o = u)) by done. done.
Qed.

Lemma stop_application_refused_witness :
  running_apps sample_running !! "tok" = Some 0 ∧
  stop_application sample_stubborn false 200 "tok" (Some "mallory") sample_running
    = (inl Forbidden, sample_running, []) ∧
  stop_application sample_stubborn false 200 "nope" (Some "alice") sample_running
    = (inl NotFound, sample_running, []).
Proof.
  split; [reflexivity|]. split.
  - refine (proj2 (stop_application_refused sample_stubborn false 200 "tok" sample_running)
              0 _ "mallory" _ _ _ _); [reflexivity | reflexivity | discriminate | discriminate].
  - refine (proj1 (stop_application_refused sample_stubborn false 200 "nope" sample_running)
              _ (Some "alice")). reflexivity.
Defined.


(** *** Starting and asking for the status *)

Lemma fresh_loc_unused (m : manager) k l :
  wf m → running_apps m !! k = Some l → l ≠ fresh (dom (store m)).
Proof.
  intros Hwf Hk ->. pose proof (Hwf _ _ Hk) as Hid.
  apply (is_fresh (dom (store m))), elem_of_dom.
  destruct (store m !! _); [eauto | done].
Qed.

(** A start that passes both checks and whose spawn succeeds. *)
Lemma start_succeeds token p now app_name user_id m :
  app_name ∈ allowed_apps m →
  (Z.of_nat (size (running_apps m)) < max_concurrent m)%Z →
  let l := fresh (dom (store m)) in
  let o := AppInfo token app_name user_id (Process p None) now "running" None in
  start_application token (Some p) now app_name user_id m
  = (inr l, Manager (<[l := o]> (store m)) (<[token := l]> (running_apps m))
                    (allowed_apps m) (max_concurrent m) (monitors m ++ [(token, l)])).
Proof.
  intros Hin Hlt. unfold start_application.
  rewrite bool_decide_eq_true_2 by done. simpl.
  by rewrite (proj2 (Z.leb_gt _ _) Hlt).
Qed.

(** X3. A start with an allowed name, below capacity, whose spawn succeeds
    and whose token is new enters exactly one record: the table grows by the
    token, a monitor is set up for it, [get_application_status] reports the
    new instance as "running" with the pid of the spawned process, and the
    status of every other id is what it was. *)
Theorem start_then_status token p now app_name user_id m :
  wf m →
  app_name ∈ allowed_apps m →
  (Z.of_nat (size (running_apps m)) < max_concurrent m)%Z →
  running_apps m !! token = None →
  ∃ l m',
    start_application token (Some p) now app_name user_id m = (inr l, m') ∧
    running_apps m' = <[token := l]> (running_apps m) ∧
    size (running_apps m') = S (size (running_apps m)) ∧
    (token, l) ∈ monitors m' ∧
    (∀ t, (get_application_status t token m').1
          = Some (AppView token app_name "running" p now None)) ∧
    (∀ t k, k ≠ token →
          (get_application_status t k m').1 = (get_application_status t k m).1).
Proof.
  intros Hwf Hin Hlt Hnew.
  rewrite (start_succeeds token p now app_name user_id m Hin Hlt).
  eexists _, _. split; [reflexivity|]. simpl. split; [done|].
  split; [by apply map_size_insert_None|].
  split; [apply elem_of_app; right; by apply list_elem_of_singleton|].
  split.
  - intros t. unfold get_application_status. simpl. by rewrite !lookup_insert_eq.
  - intros t k Hne. unfold get_application_status. simpl.
    rewrite lookup_insert_ne by done.
    destruct (running_apps m !! k) as [l|] eqn:Hk; [|done].
    rewrite lookup_insert_ne by (symmetry; by eapply fresh_loc_unused).
    by destruct (store m !! l).
Qed.

Lemma start_then_status_witness :
  wf sample_init ∧
  "firefox" ∈ allowed_apps sample_init ∧
  (get_application_status 150 "tok" sample_running).1
    = Some (AppView "tok" "firefox" "running" 4242 100 None).
Proof.
  assert (wf sample_init) as Hwf
    by exact (proj1 (reachable_wf_monitored _ (reach_init _ _))).
  assert ("firefox" ∈ allowed_apps sample_init) as Hin
    by (apply (bool_decide_unpack _); reflexivity).
  split; [exact Hwf|]. split; [exact Hin|].
  destruct (start_then_status "tok" 4242 100 "firefox" "alice" sample_init Hwf Hin)
    as (l & m' & Heq & _ & _ & _ & Hst & _); [reflexivity | reflexivity |].
  unfold sample_running. rewrite Heq. exact (Hst 150%Z).
Defined.

(** *** Starts that overlap *)

(** With nothing running in between, the two halves are the whole call. *)
Lemma start_application_halves token spawn now app_name user_id m :
  start_application token spawn now app_name user_id m
  = match start_check app_name m with
    | Some e => (inl e, m)
    | None => start_resume token spawn now app_name user_id m
    end.
Proof.
  unfold start_application, start_check, start_resume.
  destruct (negb _); [done|]. by destruct (max_concurrent m <=? _)%Z.
Qed.

(** X23. The limit is tested before the spawn and the record is entered
    after it: of two starts that overlap, both admitted and both spawned, both
    succeed and the table grows by two, so that with one place left the table
    ends up holding more than [max_concurrent] records. One after the other,
    the same two calls give one instance and a [CapacityExceeded]. *)
Theorem overlapping_starts_exceed_capacity c1 c2 p1 p2 m :
  start_check (call_app_name c1) m = None →
  start_check (call_app_name c2) m = None →
  call_spawn c1 = Some p1 →
  call_spawn c2 = Some p2 →
  running_apps m !! call_token c1 = None →
  running_apps m !! call_token c2 = None →
  call_token c1 ≠ call_token c2 →
  ∃ l1 l2 m2,
    start_overlapping c1 c2 m = (inr l1, inr l2, m2) ∧
    running_apps m2 = <[call_token c2 := l2]> (<[call_token c1 := l1]> (running_apps m)) ∧
    size (running_apps m2) = size (running_apps m) + 2 ∧
    max_concurrent m2 = max_concurrent m ∧
    ((max_concurrent m = Z.of_nat (size (running_apps m)) + 1)%Z →
     (max_concurrent m2 < Z.of_nat (size (running_apps m2)))%Z ∧
     (start_all [c1; c2] m).1 = [inr l1; inl CapacityExceeded]).
Proof.
  intros Hc1 Hc2 Hs1 Hs2 H1 H2 Hne. unfold start_overlapping.
  rewrite Hc1, Hc2. unfold start_resume. rewrite Hs1, Hs2.
  eexists _, _, _. split; [reflexivity|]. cbn [running_apps max_concurrent store].
  set (l1 := fresh (dom (store m))).
  set (l2 := fresh (dom (<[l1 := _]> (store m)))).
  assert (size (<[call_token c1 := l1]> (running_apps m)) = size (running_apps m) + 1)
    as Hsize1 by (rewrite map_size_insert, H1; simpl; lia).
  assert (size (<[call_token c2 := l2]> (<[call_token c1 := l1]> (running_apps m)))
          = size (running_apps m) + 2) as Hsize.
  { rewrite map_size_insert, lookup_insert_ne, H2 by done. rewrite Hsize1. simpl. lia. }
  split; [done|]. split; [done|]. split; [done|].
  intros Hmax. split; [rewrite Hsize; lia|].
  cbn [start_all]. unfold start_call_run.
  rewrite !start_application_halves, Hc1.
  unfold start_resume at 1. rewrite Hs1. fold l1.
  rewrite start_application_halves.
  assert (start_check (call_app_name c2)
            (Manager (<[l1 := AppInfo (call_token c1) (call_app_name c1) (call_user_id c1)
                              (Process p1 None) (call_now c1) "running" None]> (store m))
                     (<[call_token c1 := l1]> (running_apps m))
                     (allowed_apps m) (max_concurrent m)
                     (monitors m ++ [(call_token c1, l1)]))
          = Some CapacityExceeded) as ->; [|done].
  unfold start_check in *. cbn [allowed_apps max_concurrent running_apps].
  destruct (negb (bool_decide (call_app_name c2 ∈ allowed_apps m))); [done|].
  rewrite Hsize1. by rewrite (proj2 (Z.leb_le _ _)) by lia.
Qed.

Lemma overlapping_starts_exceed_capacity_witness :
  start_check "firefox" sample_init = None ∧
  start_check "gedit" sample_init = None ∧
  ∃ l1 l2 m2,
    start_overlapping (StartCall "t1" (Some 4242%Z) 100 "firefox" "alice")
                      (StartCall "t2" (Some 4243%Z) 101 "gedit" "bob") sample_init
    = (inr l1, inr l2, m2) ∧
    (max_concurrent m2 < Z.of_nat (size (running_apps m2)))%Z.
Proof.
  split; [reflexivity|]. split; [reflexivity|].
  destruct (overlapping_starts_exceed_capacity
              (StartCall "t1" (Some 4242%Z) 100 "firefox" "alice")
              (StartCall "t2" (Some 4243%Z) 101 "gedit" "bob") 4242 4243 sample_init
              eq_refl eq_refl eq_refl eq_refl eq_refl eq_refl)
    as (l1 & l2 & m2 & H1 & _ & _ & _ & H3); [discriminate|].
  exists l1, l2, m2. split; [exact H1|].
  exact (proj1 (H3 eq_refl)).
Defined.


(** *** Listing *)

Lemma same_entries_owned_by m m' user_id kv :
  same_entries m m' → owned_by m' user_id kv = owned_by m user_id kv.
Proof.
  intros [_ Hst]. unfold owned_by. specialize (Hst kv.2).
  destruct (store m' !! kv.2) as [o'|], (store m !! kv.2) as [o|]; simpl in *; try done.
  injection Hst as _ Hu. by rewrite Hu.
Qed.

Lemma same_entries_wf m m' : same_entries m m' → wf m → wf m'.
Proof.
  intros [Hr Hst] Hwf k l Hk. rewrite Hr in Hk. specialize (Hwf _ _ Hk).
  specialize (Hst l).
  destruct (store m' !! l) as [o'|], (store m !! l) as [o|]; simpl in *; try done.
  injection Hst as Hi _. congruence.
Qed.

Lemma list_step_entry now user_id apps m kv :
  wf m → running_apps m !! kv.1 = Some kv.2 →
  ∃ vs m', list_step now user_id (apps, m) kv = (apps ++ vs, m') ∧
           same_entries m m' ∧
           view_id <$> vs = if owned_by m user_id kv then [kv.1] else [].
Proof.
  intros Hwf Hk. pose proof (Hwf _ _ Hk) as Hid.
  unfold list_step, owned_by.
  destruct (store m !! kv.2) as [o|] eqn:Ho; [|done].
  simpl in Hid. injection Hid as Hid.
  case_bool_decide.
  - unfold get_application_status. rewrite Hk, Ho.
    exists [view_of (refresh now o)]. eexists. split; [reflexivity|].
    split; [|by rewrite <- Hid, <- (refresh_keeps_id now o)].
    split; [done|]. intros l. simpl.
    destruct (decide (kv.2 = l)) as [<-|Hne].
    + rewrite lookup_insert_eq, Ho. simpl.
      rewrite refresh_keeps_id. unfold refresh.
      by destruct (returncode (info_process o)).
    + by rewrite lookup_insert_ne.
  - exists [], m. rewrite app_nil_r. by repeat split.
Qed.

Lemma list_fold_entries now user_id (kvs : list (string * loc)) apps m :
  wf m → (∀ kv, kv ∈ kvs → running_apps m !! kv.1 = Some kv.2) →
  view_id <$> (foldl (list_step now user_id) (apps, m) kvs).1
  = (view_id <$> apps) ++ (filter (λ kv, owned_by m user_id kv = true) kvs).*1.
Proof.
  revert apps m. induction kvs as [|kv kvs IH]; intros apps m Hwf Hin; cbn [foldl].
  { simpl. by rewrite app_nil_r. }
  destruct (list_step_entry now user_id apps m kv Hwf) as (vs & m' & -> & Hsame & Hvs).
  { apply Hin. by left. }
  rewrite IH.
  - rewrite fmap_app, Hvs, <- app_assoc. f_equal.
    rewrite filter_cons.
    assert (filter (λ kv0, owned_by m' user_id kv0 = true) kvs
            = filter (λ kv0, owned_by m user_id kv0 = true) kvs) as ->.
    { apply list_filter_iff. intros kv0. by rewrite (same_entries_owned_by m m'). }
    destruct (owned_by m user_id kv) eqn:E.
    + by rewrite decide_True.
    + by rewrite decide_False.
  - by apply (same_entries_wf m m').
  - intros kv0 Hkv0. destruct Hsame as [-> _]. apply Hin. by right.
Qed.

(** X5. [list_running_applications] returns one view for every record of
    the table that passes the owner filter, carrying the key of the record
    as its id, and no other view: with a user, exactly the instances that
    user owns; without one, all of them. *)
Theorem list_returns_owned_entries now user_id m :
  wf m →
  view_id <$> (list_running_applications now user_id m).1
  = (filter (λ kv, owned_by m user_id kv = true) (map_to_list (running_apps m))).*1.
Proof.
  intros Hwf. unfold list_running_applications.
  rewrite list_fold_entries; [done | done |].
  intros [k l] Hin. by apply elem_of_map_to_list.
Qed.

Lemma list_returns_owned_entries_witness :
  wf sample_running ∧
  view_id <$> (list_running_applications 150 (Some "alice") sample_running).1 = ["tok"] ∧
  view_id <$> (list_running_applications 150 (Some "bob") sample_running).1 = [].
Proof.
  assert (wf sample_running) as Hwf
    by exact (proj1 (reachable_wf_monitored _ sample_running_reachable)).
  split; [exact Hwf|]. split.
  - rewrite (list_returns_owned_entries 150 (Some "alice") sample_running Hwf). reflexivity.
  - rewrite (list_returns_owned_entries 150 (Some "bob") sample_running Hwf). reflexivity.
Defined.


(** *** Starting and stopping again *)

(** X6. An instance that has just been started under a new token and is
    stopped by its owner leaves the table as it was before the start: when
    the wait on the process returns (within the grace period after SIGTERM,
    or at last after SIGKILL) the stop returns, the process has exited, and
    the record entered by the start is the only one the stop removes. *)
Theorem start_then_stop wr os mf token p t1 t2 app_name user_id m :
  wf m →
  app_name ∈ allowed_apps m →
  (Z.of_nat (size (running_apps m)) < max_concurrent m)%Z →
  running_apps m !! token = None →
  wr = true ∨ exits_in_time os = true →
  ∃ l m1 b m2 r,
    start_application token (Some p) t1 app_name user_id m = (inr l, m1) ∧
    stop_application_outcome wr os mf t2 token (Some user_id) m1
    = StopReturned (inr b, m2, r) ∧
    running_apps m2 = running_apps m ∧
    exited l m2.
Proof.
  intros Hwf Hin Hlt Hnew Hret.
  pose proof (wf_start token (Some p) t1 app_name user_id m Hwf) as Hwf1.
  pose proof (start_succeeds token p t1 app_name user_id m Hin Hlt) as Hstart.
  simpl in Hstart. rewrite Hstart in Hwf1. simpl in Hwf1.
  set (l := fresh (dom (store m))) in *.
  set (m1 := Manager _ _ _ _ _) in *.
  assert (running_apps m1 = <[token := l]> (running_apps m)) as Htab by done.
  assert (running_apps m1 !! token = Some l) as Hl by (by rewrite Htab, lookup_insert_eq).
  assert (store m1 !! l
          = Some (AppInfo token app_name user_id (Process p None) t1 "running" None)) as Ho.
  { simpl. by rewrite lookup_insert_eq. }
  pose proof (stop_application_frame os mf t2 token (Some user_id) m1) as (_ & _ & Hdel).
  assert (∃ b m2 r, stop_application os mf t2 token (Some user_id) m1 = (inr b, m2, r) ∧
                    exited l m2) as (b & m2 & r & Hstop & Hex).
  { unfold stop_application. rewrite Hl, Ho. simpl.
    rewrite (bool_decide_eq_true_2 (user_id = user_id)) by done.
    rewrite andb_false_r. simpl.
    destruct (term_exit os) as [[d c]|]; [destruct (d <? grace_period)%Z|];
      match goal with
      | |- context [exit_while_suspended mf ?t ?code token l m1] =>
          destruct (stop_after_exit mf t code token l _ m1 Hwf1 Ho)
            as (b & m' & o' & Heq & _ & _ & _ & _ & _ & Hex');
          rewrite Heq
      end; by eexists b, m', _. }
  exists l, m1, b, m2, r. rewrite Hstop in Hdel. cbn [fst snd] in Hdel.
  split; [done|]. split.
  { rewrite stop_outcome_returned; [by rewrite Hstop|].
    destruct Hret as [?|?]; [by left | by right; left]. }
  split; [|done].
  by rewrite Hdel, Htab, delete_insert_eq, delete_id.
Qed.

Lemma start_then_stop_witness :
  wf sample_init ∧
  "firefox" ∈ allowed_apps sample_init ∧
  ∃ b m2 r,
    stop_application_outcome true sample_stubborn true 200 "tok" (Some "alice") sample_running
      = StopReturned (inr b, m2, r) ∧
    running_apps m2 = running_apps sample_init.
Proof.
  assert (wf sample_init) as Hwf
    by exact (proj1 (reachable_wf_monitored _ (reach_init _ _))).
  assert ("firefox" ∈ allowed_apps sample_init) as Hin
    by (apply (bool_decide_unpack _); reflexivity).
  split; [exact Hwf|]. split; [exact Hin|].
  destruct (start_then_stop true sample_stubborn true "tok" 4242 100 200 "firefox" "alice"
              sample_init Hwf Hin)
    as (l & m1 & b & m2 & r & Hstart & Hstop & Htab & _);
    [reflexivity | reflexivity | left; reflexivity |].
  exists b, m2, r. split; [|exact Htab].
  unfold sample_running. rewrite Hstart. exact Hstop.
Defined.

End AppManagerExtra.

(** ** Facts about SessionManager *)

Module SessionManagerFacts.
Import SessionManager.

Lemma foldl_delete_lookup (us : gmap string string) (l : list string) u sid :
  foldl (λ us u, delete u us) us l !! u = Some sid → us !! u = Some sid.
Proof.
  revert us. induction l as [|x l IH]; intros us; simpl; [done|].
  intros H%IH. by apply lookup_delete_Some in H as [_ H].
Qed.

Lemma foldl_delete_not_in (us : gmap string string) (l : list string) u :
  u ∉ l → foldl (λ us u, delete u us) us l !! u = us !! u.
Proof.
  revert us. induction l as [|x l IH]; intros us Hu; simpl; [done|].
  apply not_elem_of_cons in Hu as [Hne Hu].
  rewrite IH by done. by rewrite lookup_delete_ne.
Qed.

Lemma foldl_delete_in (us : gmap string string) (l : list string) u :
  u ∈ l → foldl (λ us u, delete u us) us l !! u = None.
Proof.
  revert us. induction l as [|x l IH]; intros us Hu; simpl.
  { by apply elem_of_nil in Hu. }
  destruct (decide (u ∈ l)) as [Hin|Hnin]; [by apply IH|].
  apply elem_of_cons in Hu as [->|Hu]; [|done].
  rewrite foldl_delete_not_in by done. apply lookup_delete_eq.
Qed.

Section preservation.
Context (iter : set_order).

Lemma inv_insert_session sid s' r :
  is_Some (sessions r !! sid) → inv r → inv (set_sessions (<[sid := s']>) r).
Proof.
  intros Hs [H1 H2]. split; simpl.
  - intros sid' [Hx|Hx]%lookup_insert_is_Some; [subst; by apply H1 | apply H1, Hx].
  - intros u sid' Hu%H2. apply lookup_insert_is_Some.
    destruct (decide (sid = sid')); [by left | by right].
Qed.

Lemma inv_create uuid now owner name r : inv r → inv (create_session uuid now owner name r).2.
Proof.
  intros [H1 H2]. split; simpl.
  - intros sid [Hx|[Hne Hx]]%lookup_insert_is_Some.
    + subst. rewrite lookup_insert_eq. eauto.
    + rewrite lookup_insert_ne by done. by apply H1.
  - intros u sid Hu. apply lookup_insert_is_Some.
    destruct (decide (uuid = sid)) as [|Hne]; [by left|right; split; [done|]].
    apply lookup_insert_Some in Hu as [[_ ?]|[_ Hu]]; [done | by eapply H2].
Qed.

Lemma inv_close now sid r : inv r → inv (close_session iter now sid r).2.
Proof.
  intros [H1 H2]. unfold close_session.
  destruct (sessions r !! sid) as [s|] eqn:Hs; [|done].
  split; simpl.
  - intros sid' [Hx|[Hne Hx]]%lookup_insert_is_Some.
    + subst. rewrite lookup_insert_eq. eauto.
    + rewrite lookup_insert_ne by done. by apply H1.
  - intros u sid' Hu%foldl_delete_lookup%H2. apply lookup_insert_is_Some.
    destruct (decide (sid = sid')); [by left | by right].
Qed.

Lemma inv_join now sid user r : inv r → inv (join_session now sid user r).2.
Proof.
  intros Hinv. pose proof Hinv as [H1 H2]. unfold join_session.
  destruct (sessions r !! sid) as [s|] eqn:Hs; [|done].
  destruct (negb _); [done|]. destruct (_ <=? _)%Z; [done|].
  simpl. destruct (H1 sid) as [ps Hps]; [eauto|]. rewrite Hps.
  split; simpl.
  - intros sid' [Hx|[Hne Hx]]%lookup_insert_is_Some.
    + subst. rewrite lookup_insert_eq. eauto.
    + rewrite lookup_insert_ne by done. apply H1.
      by rewrite lookup_insert_ne in Hx.
  - intros u sid' Hu. rewrite !lookup_insert_is_Some.
    destruct (decide (sid = sid')) as [|Hne]; [by left|right; split; [done|]].
    right. split; [done|].
    apply lookup_insert_Some in Hu as [[_ ?]|[_ Hu]]; [done | by eapply H2].
Qed.

Lemma inv_leave now user r : inv r → inv (leave_session iter now user r).2.
Proof.
  intros Hinv. pose proof Hinv as [H1 H2]. unfold leave_session.
  destruct (user_sessions r !! user) as [sid|] eqn:Hu; [|done].
  destruct (sessions r !! sid) as [s|] eqn:Hs; [|done].
  simpl. destruct (H1 sid) as [ps Hps]; [eauto|]. rewrite Hps.
  set (s1 := set_participants (participants s ∖ {[user]}) s).
  set (r2 := set_sessions _ (set_user_sessions _ _)).
  assert (inv r2) as Hinv2.
  { split; simpl.
    - intros sid' [Hx|[Hne Hx]]%lookup_insert_is_Some.
      + subst. rewrite lookup_insert_eq. eauto.
      + rewrite lookup_insert_ne by done. apply H1.
        by rewrite lookup_insert_ne in Hx.
    - intros u sid' [_ Hu']%lookup_delete_Some. rewrite !lookup_insert_is_Some.
      destruct (decide (sid = sid')) as [|Hne]; [by left|right; split; [done|]].
      right. split; [done|]. by eapply H2. }
  assert (is_Some (sessions r2 !! sid)) as Hsid2.
  { simpl. rewrite lookup_insert_eq. eauto. }
  case_bool_decide; [|done].
  case_bool_decide; [by apply inv_close|].
  destruct (iter _); simpl; [done|]. by apply inv_insert_session.
Qed.

Lemma inv_add now sid app_id user r :
  inv r → inv (add_application_to_session now sid app_id user r).2.
Proof.
  intros Hinv. unfold add_application_to_session.
  destruct (sessions r !! sid) as [s|] eqn:Hs; [|done].
  destruct (negb _); [done|]. simpl. apply inv_insert_session; eauto.
Qed.

Lemma inv_remove now sid app_id user r :
  inv r → inv (remove_application_from_session now sid app_id user r).2.
Proof.
  intros Hinv. unfold remove_application_from_session.
  destruct (sessions r !! sid) as [s|] eqn:Hs; [|done].
  destruct (negb _); [done|].
  destruct (applications s !! app_id); [|done]. simpl. apply inv_insert_session; eauto.
Qed.

Lemma inv_update now sid user u r :
  inv r → inv (update_session_settings now sid user u r).2.
Proof.
  intros Hinv. unfold update_session_settings.
  destruct (sessions r !! sid) as [s|] eqn:Hs; [|done].
  destruct (negb _); [done|]. simpl. apply inv_insert_session; eauto.
Qed.

Lemma inv_cleanup now r : inv r → inv (cleanup_expired_sessions iter now r).
Proof.
  unfold cleanup_expired_sessions. generalize (expired_sessions now r).
  intros l. revert r. induction l as [|sid l IH]; intros r Hinv; simpl; [done|].
  by apply IH, inv_close.
Qed.

(** The invariant holds in every state the registry can reach. *)
Lemma reachable_registry_inv r : reachable iter r → inv r.
Proof.
  induction 1.
  - split; [intros sid [s Hs] | intros u sid Hu]; simpl in *; by rewrite lookup_empty in *.
  - by apply inv_create.
  - by apply inv_join.
  - by apply inv_leave.
  - by apply inv_close.
  - by apply inv_add.
  - by apply inv_remove.
  - by apply inv_update.
  - by apply inv_cleanup.
Qed.

End preservation.


Section mirrored.
Context (iter : set_order).

Lemma mirrored_insert_same sid s s' r :
  sessions r !! sid = Some s →
  participants s' = participants s →
  (session_status s' = "active" → session_status s = "active") →
  mirrored r → mirrored (set_sessions (<[sid := s']>) r).
Proof.
  intros Hs Hp Hst Hm sid' s0. simpl.
  intros [[<- <-]|[Hne Hx]]%lookup_insert_Some Hact.
  - rewrite Hp. apply Hm; auto.
  - by apply Hm.
Qed.

Lemma mirrored_close now sid r : mirrored r → mirrored (close_session iter now sid r).2.
Proof.
  intros Hm. unfold close_session.
  destruct (sessions r !! sid) as [s|] eqn:Hs; [|done].
  intros sid' s0. simpl.
  intros [[<- <-]|[Hne Hx]]%lookup_insert_Some Hact; [done|].
  rewrite lookup_insert_ne by done. by apply Hm.
Qed.

Lemma mirrored_create uuid now owner name r :
  mirrored r → mirrored (create_session uuid now owner name r).2.
Proof.
  intros Hm sid s0. simpl.
  intros [[<- <-]|[Hne Hx]]%lookup_insert_Some Hact.
  - by rewrite lookup_insert_eq.
  - rewrite lookup_insert_ne by done. by apply Hm.
Qed.

Lemma mirrored_join now sid user r : mirrored r → mirrored (join_session now sid user r).2.
Proof.
  intros Hm. unfold join_session.
  destruct (sessions r !! sid) as [s|] eqn:Hs; [|done].
  case_bool_decide as Hact; simpl; [|done].
  destruct (_ <=? _)%Z; [done|].
  simpl. rewrite (Hm _ _ Hs Hact).
  intros sid' s0. simpl.
  intros [[<- <-]|[Hne Hx]]%lookup_insert_Some Hact0.
  - by rewrite lookup_insert_eq.
  - rewrite lookup_insert_ne by done.
    rewrite lookup_insert_ne in Hx by done. by apply Hm.
Qed.

Lemma mirrored_leave now user r : mirrored r → mirrored (leave_session iter now user r).2.
Proof.
  intros Hm. unfold leave_session.
  destruct (user_sessions r !! user) as [sid|] eqn:Hu; [|done].
  destruct (sessions r !! sid) as [s|] eqn:Hs; [|done].
  simpl. destruct (session_participants r !! sid) as [ps|] eqn:Hps; simpl.
  2:{ intros sid' s0. simpl.
      intros [[<- <-]|[Hne Hx]]%lookup_insert_Some Hact.
      - simpl in Hact. pose proof (Hm _ _ Hs Hact). congruence.
      - by apply Hm. }
  set (s2 := set_last_activity now (set_participants (participants s ∖ {[user]}) s)).
  set (r2 := set_sessions _ (set_user_sessions _ _)).
  assert (mirrored r2) as Hm2.
  { intros sid' s0. simpl.
    intros [[<- <-]|[Hne Hx]]%lookup_insert_Some Hact.
    - rewrite lookup_insert_eq. simpl in *.
      pose proof (Hm _ _ Hs Hact). congruence.
    - rewrite lookup_insert_ne by done.
      rewrite lookup_insert_ne in Hx by done. by apply Hm. }
  assert (sessions r2 !! sid = Some s2) as Hsid2.
  { simpl. by rewrite lookup_insert_eq. }
  case_bool_decide; [|done].
  case_bool_decide; [by apply mirrored_close|].
  destruct (iter _); simpl; [done|].
  by apply (mirrored_insert_same sid s2).
Qed.

Lemma mirrored_add now sid app_id user r :
  mirrored r → mirrored (add_application_to_session now sid app_id user r).2.
Proof.
  intros Hm. unfold add_application_to_session.
  destruct (sessions r !! sid) as [s|] eqn:Hs; [|done].
  destruct (negb _); [done|]. simpl. by apply (mirrored_insert_same sid s).
Qed.

Lemma mirrored_remove now sid app_id user r :
  mirrored r → mirrored (remove_application_from_session now sid app_id user r).2.
Proof.
  intros Hm. unfold remove_application_from_session.
  destruct (sessions r !! sid) as [s|] eqn:Hs; [|done].
  destruct (negb _); [done|].
  destruct (applications s !! app_id); [|done]. simpl.
  by apply (mirrored_insert_same sid s).
Qed.

Lemma mirrored_update now sid user u r :
  mirrored r → mirrored (update_session_settings now sid user u r).2.
Proof.
  intros Hm. unfold update_session_settings.
  destruct (sessions r !! sid) as [s|] eqn:Hs; [|done].
  destruct (negb _); [done|]. simpl. by apply (mirrored_insert_same sid s).
Qed.

Lemma mirrored_cleanup now r : mirrored r → mirrored (cleanup_expired_sessions iter now r).
Proof.
  unfold cleanup_expired_sessions. generalize (expired_sessions now r).
  intros l. revert r. induction l as [|sid l IH]; intros r Hm; simpl; [done|].
  by apply IH, mirrored_close.
Qed.

Lemma reachable_mirrored r : reachable iter r → mirrored r.
Proof.
  induction 1.
  - intros sid s Hs. simpl in Hs. by rewrite lookup_empty in Hs.
  - by apply mirrored_create.
  - by apply mirrored_join.
  - by apply mirrored_leave.
  - by apply mirrored_close.
  - by apply mirrored_add.
  - by apply mirrored_remove.
  - by apply mirrored_update.
  - by apply mirrored_cleanup.
Qed.

End mirrored.


Section claims.
Context (iter : set_order).

Lemma iter_nonempty (X : gset string) :
  set_order_ok iter → X ≠ ∅ → ∃ x rest, iter X = x :: rest ∧ x ∈ X.
Proof.
  intros Hok HX. destruct (iter X) as [|x rest] eqn:E.
  - exfalso. apply HX, leibniz_equiv, elements_empty_inv.
    specialize (Hok X). rewrite E in Hok.
    symmetry in Hok. apply Permutation_nil_r in Hok. by rewrite Hok.
  - exists x, rest. split; [done|].
    apply elem_of_elements. rewrite <- (Hok X), E. by left.
Qed.

(** C4. When the owner of an active session leaves it, the call succeeds
    and the session keeps exactly the other participants. If some remain,
    the session stays active and its new owner is the first of them in
    iteration order, a function of the remaining set, hence one of them; if
    none remains, the session is closed. *)
Theorem owner_leave_transfers_or_closes now u sid s r :
  set_order_ok iter →
  reachable iter r →
  user_sessions r !! u = Some sid →
  sessions r !! sid = Some s →
  session_status s = "active" →
  owner_id s = u →
  (leave_session iter now u r).1 = true ∧
  ∃ s', sessions (leave_session iter now u r).2 !! sid = Some s' ∧
        participants s' = participants s ∖ {[u]} ∧
        (participants s ∖ {[u]} ≠ ∅ →
           session_status s' = "active" ∧
           owner_id s' ∈ participants s' ∧
           head (iter (participants s ∖ {[u]})) = Some (owner_id s')) ∧
        (participants s ∖ {[u]} = ∅ → session_status s' = "closed").
Proof.
  intros Hok Hreach Hu Hs Hact Hown.
  destruct (reachable_registry_inv iter r Hreach) as [H1 _].
  destruct (H1 sid) as [ps Hps]; [eauto|].
  unfold leave_session. rewrite Hu, Hs. simpl. rewrite Hps. simpl.
  rewrite (bool_decide_eq_true_2 (owner_id s = u)) by done.
  case_bool_decide as Hempty.
  - unfold close_session. simpl. rewrite lookup_insert_eq. simpl.
    split; [done|]. eexists. rewrite lookup_insert_eq. split; [done|].
    simpl. split; [done|]. split; [done|]. done.
  - destruct (iter_nonempty _ Hok Hempty) as (x & rest & Hx & Hin).
    rewrite Hx. simpl. split; [done|]. eexists. rewrite lookup_insert_eq.
    split; [done|]. simpl. split; [done|]. split; [done|]. done.
Qed.

(** C9. In an active session below its participant limit, a join by a user
    who is a member already succeeds and changes neither the participants
    of the session, nor their number, nor the entry of the session in
    [session_participants]; only the time of last activity moves. *)
Theorem join_session_idempotent now sid u s r :
  reachable iter r →
  sessions r !! sid = Some s →
  session_status s = "active" →
  (Z.of_nat (size (participants s)) < max_participants (session_settings s))%Z →
  u ∈ participants s →
  (join_session now sid u r).1 = true ∧
  sessions (join_session now sid u r).2 !! sid = Some (set_last_activity now s) ∧
  participants (set_last_activity now s) = participants s ∧
  size (participants (set_last_activity now s)) = size (participants s) ∧
  session_participants (join_session now sid u r).2 !! sid = session_participants r !! sid.
Proof.
  intros Hreach Hs Hact Hlim Hin.
  pose proof (reachable_mirrored iter r Hreach _ _ Hs Hact) as Hps.
  unfold join_session. rewrite Hs.
  rewrite (bool_decide_eq_true_2 (session_status s = "active")) by done. simpl.
  rewrite (proj2 (Z.leb_gt _ _) Hlim). rewrite Hps. simpl.
  assert (participants s ∪ {[u]} = participants s) as ->.
  { rewrite (comm_L (∪)). by apply subseteq_union_1_L, singleton_subseteq_l. }
  rewrite !lookup_insert_eq. split; [done|]. split; [|done].
  by destruct s.
Qed.

End claims.

(** C10. A user who is a participant of an active session [a] and then
    creates a session, or joins another session [b], is entered in the
    reverse map under the new session, while the record of [a] and its entry
    in [session_participants] stay as they are: the user is still one of the
    participants of [a]. *)
Theorem create_join_keep_membership now a sa u r :
  sessions r !! a = Some sa →
  session_status sa = "active" →
  u ∈ participants sa →
  (∀ uuid name, uuid ≠ a →
     let r' := (create_session uuid now u name r).2 in
     user_sessions r' !! u = Some uuid ∧
     sessions r' !! a = Some sa ∧
     session_participants r' !! a = session_participants r !! a) ∧
  (∀ b, b ≠ a →
     let r' := (join_session now b u r).2 in
     sessions r' !! a = Some sa ∧
     session_participants r' !! a = session_participants r !! a ∧
     ((join_session now b u r).1 = true → user_sessions r' !! u = Some b)).
Proof.
  intros Ha Hact Hin. split.
  - intros uuid name Hne r'. unfold r'. simpl.
    rewrite lookup_insert_eq, !lookup_insert_ne by done. done.
  - intros b Hne r'. unfold r', join_session.
    destruct (sessions r !! b) as [sb|] eqn:Hb; [|done].
    destruct (negb _); [done|]. destruct (_ <=? _)%Z; [done|]. simpl.
    destruct (session_participants r !! b) as [ps|] eqn:Hps; simpl.
    + rewrite !lookup_insert_ne by done. rewrite lookup_insert_eq. done.
    + rewrite !lookup_insert_ne by done. done.
Qed.


(** *** The expiry sweep *)

Section sweep.
Context (iter : set_order).

Lemma elem_of_expired_sessions now r sid :
  sid ∈ expired_sessions now r ↔
  ∃ s, sessions r !! sid = Some s ∧ expired now (session_timeout r) s = true.
Proof.
  unfold expired_sessions. rewrite list_elem_of_fmap. split.
  - intros ([k s] & -> & [Hexp Hin]%list_elem_of_filter).
    apply elem_of_map_to_list in Hin. eauto.
  - intros (s & Hs & Hexp). exists (sid, s). split; [done|].
    apply list_elem_of_filter. split; [done|]. by apply elem_of_map_to_list.
Qed.

Lemma close_all_sessions now (l : list string) r sid :
  sessions (foldl (λ r sid, (close_session iter now sid r).2) r l) !! sid =
  if bool_decide (sid ∈ l) then mark_closed now <$> sessions r !! sid
  else sessions r !! sid.
Proof.
  revert r. induction l as [|x l IH]; intros r; simpl; [done|].
  rewrite IH. unfold close_session.
  destruct (sessions r !! x) as [s|] eqn:Hx; simpl.
  - destruct (decide (x = sid)) as [->|Hne].
    + rewrite lookup_insert_eq, Hx. simpl.
      rewrite (bool_decide_eq_true_2 (sid ∈ sid :: l)) by left.
      by case_bool_decide.
    + rewrite lookup_insert_ne by done.
      assert (sid ∈ x :: l ↔ sid ∈ l) as Hiff by (rewrite elem_of_cons; intuition congruence).
      by rewrite (bool_decide_ext _ _ Hiff).
  - destruct (decide (x = sid)) as [->|Hne].
    + rewrite Hx. by repeat case_bool_decide.
    + assert (sid ∈ x :: l ↔ sid ∈ l) as Hiff by (rewrite elem_of_cons; intuition congruence).
      by rewrite (bool_decide_ext _ _ Hiff).
Qed.

Lemma close_all_participants now (l : list string) r sid :
  sid ∉ l →
  session_participants (foldl (λ r sid, (close_session iter now sid r).2) r l) !! sid =
  session_participants r !! sid.
Proof.
  revert r. induction l as [|x l IH]; intros r Hnin; simpl; [done|].
  apply not_elem_of_cons in Hnin as [Hne Hnin].
  rewrite IH by done. unfold close_session.
  destruct (sessions r !! x); simpl; [|done]. by rewrite lookup_insert_ne.
Qed.

(** What the sweep does to the session records: a session whose last
    activity is older than the timeout is marked closed, every other session
    keeps its record and its entry in [session_participants]. *)
Lemma cleanup_closes_expired now r sid s :
  sessions r !! sid = Some s →
  let r' := cleanup_expired_sessions iter now r in
  (expired now (session_timeout r) s = true →
     sessions r' !! sid = Some (mark_closed now s)) ∧
  (expired now (session_timeout r) s = false →
     sessions r' !! sid = Some s ∧
     session_participants r' !! sid = session_participants r !! sid).
Proof.
  intros Hs r'. unfold r', cleanup_expired_sessions.
  rewrite close_all_sessions, Hs. split; intros Hexp.
  - rewrite bool_decide_eq_true_2; [done|].
    apply elem_of_expired_sessions. eauto.
  - assert (sid ∉ expired_sessions now r) as Hnin.
    { intros (s0 & Hs0 & Hexp0)%elem_of_expired_sessions. congruence. }
    rewrite bool_decide_eq_false_2 by done. split; [done|].
    by apply close_all_participants.
Qed.

End sweep.

(** C5 fails on the code where the claim is about sessions that are closed
    already: the sweep does not look at the status, so a later sweep closes
    "sess-A" once more. It stamps "closed_at" anew, and it deletes the
    reverse-map entry of the former participant u1, who meanwhile owns the
    active, unexpired session "sess-B". *)
Lemma cleanup_closes_closed_session_again :
  session_status <$> (sessions sample_resumed !! "sess-A") = Some "closed" ∧
  closed_at <$> (sessions sample_resumed !! "sess-A") = Some (Some 4000%Z) ∧
  user_sessions sample_resumed !! "u1" = Some "sess-B" ∧
  (λ s, (session_status s, owner_id s, expired 4200 3600 s))
    <$> (sessions sample_resumed !! "sess-B") = Some ("active", "u1", false) ∧
  let r' := cleanup_expired_sessions sample_iter 4200 sample_resumed in
  closed_at <$> (sessions r' !! "sess-A") = Some (Some 4200%Z) ∧
  user_sessions r' !! "u1" = None ∧
  sessions r' !! "sess-B" = sessions sample_resumed !! "sess-B".
Proof. vm_compute. repeat split. Qed.


(** *** The theorems at the sample states *)

Lemma sample_joined_reachable : reachable sample_iter sample_joined.
Proof. apply reach_join, reach_create, reach_init. Defined.

Lemma owner_leave_transfers_or_closes_witness :
  set_order_ok sample_iter ∧
  reachable sample_iter sample_joined ∧
  user_sessions sample_joined !! "u1" = Some "sess-A" ∧
  (owner_id <$> sessions sample_joined !! "sess-A") = Some "u1" ∧
  (leave_session sample_iter 20 "u1" sample_joined).1 = true.
Proof.
  split; [exact sample_iter_ok|]. split; [exact sample_joined_reachable|].
  split; [reflexivity|]. split; [reflexivity|].
  refine (proj1 (owner_leave_transfers_or_closes sample_iter 20 "u1" "sess-A" _ sample_joined
                   sample_iter_ok sample_joined_reachable _ _ _ _)); reflexivity.
Defined.

(** The scenario of the specification: u1 creates a session, u2 joins, u1
    leaves (the session stays active and u2 owns it), then u2 leaves (the
    session is closed). *)
Example owner_leave_scenario :
  let r1 := (leave_session sample_iter 20 "u1" sample_joined).2 in
  let r2 := (leave_session sample_iter 30 "u2" r1).2 in
  (λ s, (session_status s, owner_id s)) <$> (sessions r1 !! "sess-A") = Some ("active", "u2") ∧
  session_status <$> (sessions r2 !! "sess-A") = Some "closed".
Proof. vm_compute. split; reflexivity. Qed.

Lemma join_session_idempotent_witness :
  reachable sample_iter sample_joined ∧
  "u2" ∈ participants (Session "sess-A" "alpha" "u1" 0 10 "active" {["u1"; "u2"]} ∅
                         default_settings None) ∧
  (join_session 20 "sess-A" "u2" sample_joined).1 = true.
Proof.
  split; [exact sample_joined_reachable|].
  assert ("u2" ∈ participants (Session "sess-A" "alpha" "u1" 0 10 "active" {["u1"; "u2"]} ∅
                                 default_settings None)) as Hin
    by (apply (bool_decide_unpack _); reflexivity).
  split; [exact Hin|].
  refine (proj1 (join_session_idempotent sample_iter 20 "sess-A" "u2" _ sample_joined
                   sample_joined_reachable _ _ _ Hin)); reflexivity.
Defined.

Lemma create_join_keep_membership_witness :
  sessions sample_joined !! "sess-A"
    = Some (Session "sess-A" "alpha" "u1" 0 10 "active" {["u1"; "u2"]} ∅ default_settings None) ∧
  user_sessions (create_session "sess-B" 20 "u2" None sample_joined).2 !! "u2" = Some "sess-B" ∧
  sessions (create_session "sess-B" 20 "u2" None sample_joined).2 !! "sess-A"
    = sessions sample_joined !! "sess-A".
Proof.
  assert (sessions sample_joined !! "sess-A"
          = Some (Session "sess-A" "alpha" "u1" 0 10 "active" {["u1"; "u2"]} ∅
                    default_settings None)) as Hs by reflexivity.
  split; [exact Hs|].
  destruct (create_join_keep_membership 20 "sess-A" _ "u2" sample_joined Hs) as [Hc _].
  - reflexivity.
  - apply (bool_decide_unpack _). reflexivity.
  - destruct (Hc "sess-B" None) as (H1 & H2 & _); [discriminate|].
    split; [exact H1|]. rewrite Hs. exact H2.
Defined.

End SessionManagerFacts.

(** ** More facts about SessionManager *)

Module SessionManagerExtra.
Import SessionManager SessionManagerFacts.

Lemma exec_reachable iter c r : reachable iter r → reachable iter (exec iter c r).
Proof. intros Hr. destruct c; simpl; by constructor. Qed.

Lemma runs_reachable iter r cs r' : reachable iter r → runs iter r cs r' → reachable iter r'.
Proof.
  intros Hr Hruns. induction Hruns as [|r c cs r' _ _ IH]; [done|].
  by apply IH, exec_reachable.
Qed.

(** *** The owner of an active session *)

Section owner.
Context (iter : set_order) (Hok : set_order_ok iter).

Lemma owner_member_insert_same sid s s' r :
  sessions r !! sid = Some s →
  (active s' → active s ∧ owner_id s' = owner_id s ∧ participants s' = participants s) →
  owner_member r → owner_member (set_sessions (<[sid := s']>) r).
Proof.
  intros Hs Hsame Hom sid' s0. simpl.
  intros [[<- <-]|[Hne Hx]]%lookup_insert_Some Hact.
  - destruct (Hsame Hact) as (Ha & -> & ->). by apply (Hom sid).
  - by apply (Hom sid').
Qed.

Lemma owner_member_close now sid r :
  owner_member r → owner_member (close_session iter now sid r).2.
Proof.
  intros Hom. unfold close_session.
  destruct (sessions r !! sid) as [s|] eqn:Hs; [|done].
  intros sid' s0. simpl.
  intros [[<- <-]|[Hne Hx]]%lookup_insert_Some Hact; [done|]. by apply (Hom sid').
Qed.

Lemma owner_member_cleanup now r :
  owner_member r → owner_member (cleanup_expired_sessions iter now r).
Proof.
  unfold cleanup_expired_sessions. generalize (expired_sessions now r).
  intros l. revert r. induction l as [|sid l IH]; intros r Hom; simpl; [done|].
  by apply IH, owner_member_close.
Qed.

Lemma owner_member_leave now user r :
  inv r → owner_member r → owner_member (leave_session iter now user r).2.
Proof using Hok.
  intros [H1 _] Hom. unfold leave_session.
  destruct (user_sessions r !! user) as [sid|] eqn:Hu; [|done].
  destruct (sessions r !! sid) as [s|] eqn:Hs; [|done].
  simpl. destruct (H1 sid) as [ps Hps]; [eauto|]. rewrite Hps.
  set (s2 := set_last_activity now (set_participants (participants s ∖ {[user]}) s)).
  set (r2 := set_sessions _ (set_user_sessions _ _)).
  assert (∀ sid' s0, sessions r2 !! sid' = Some s0 → active s0 →
            (sid' = sid ∧ s0 = s2) ∨ (sid' ≠ sid ∧ owner_id s0 ∈ participants s0)) as Hr2.
  { intros sid' s0. simpl.
    intros [[<- <-]|[Hne Hx]]%lookup_insert_Some Hact; [by left|].
    right. split; [done|]. rewrite lookup_insert_ne in Hx by done. by apply (Hom sid'). }
  assert (sessions r2 !! sid = Some s2) as Hsid2.
  { simpl. by rewrite lookup_insert_eq. }
  case_bool_decide as Hown.
  - case_bool_decide as Hempty.
    + unfold close_session. rewrite Hsid2. intros sid' s0. simpl.
      intros [[<- <-]|[Hne Hx]]%lookup_insert_Some Hact; [done|].
      destruct (Hr2 sid' s0 Hx Hact) as [[? _]|[_ ?]]; done.
    + destruct (iter_nonempty iter _ Hok Hempty) as (x & rest & Hx & Hin).
      rewrite Hx. intros sid' s0. simpl.
      intros [[<- <-]|[Hne Hx']]%lookup_insert_Some Hact; [done|].
      destruct (Hr2 sid' s0 Hx' Hact) as [[? _]|[_ ?]]; done.
  - intros sid' s0 Hx Hact.
    destruct (Hr2 sid' s0 Hx Hact) as [[-> ->]|[_ ?]]; [|done].
    simpl in *. apply elem_of_difference. split.
    + by apply (Hom sid s Hs).
    + intros Heq%elem_of_singleton. by apply Hown.
Qed.

Lemma owner_member_exec c r :
  inv r → owner_member r → owner_member (exec iter c r).
Proof using Hok.
  intros Hinv Hom.
  destruct c as [uuid now owner name | now sid user | now user | now sid
                | now sid app_id user | now sid app_id user | now sid user u | now]; simpl.
  - intros sid' s0. simpl.
    intros [[<- <-]|[Hne Hx]]%lookup_insert_Some Hact.
    + simpl. by apply elem_of_singleton.
    + by apply (Hom sid').
  - unfold join_session.
    destruct (sessions r !! sid) as [s|] eqn:Hs; [|done].
    case_bool_decide as Hact; simpl; [|done].
    destruct (_ <=? _)%Z; [done|]. simpl.
    assert (owner_id s ∈ participants s ∪ {[user]}) as Hin.
    { apply elem_of_union. left. by apply (Hom sid). }
    destruct (session_participants r !! sid) as [ps|]; simpl.
    + intros sid' s0. simpl.
      intros [[<- <-]|[Hne Hx]]%lookup_insert_Some Hact0; [done|].
      rewrite lookup_insert_ne in Hx by done. by apply (Hom sid').
    + intros sid' s0. simpl.
      intros [[<- <-]|[Hne Hx]]%lookup_insert_Some Hact0; [done|]. by apply (Hom sid').
  - by apply owner_member_leave.
  - by apply owner_member_close.
  - unfold add_application_to_session.
    destruct (sessions r !! sid) as [s|] eqn:Hs; [|done].
    destruct (negb _); [done|]. simpl. by apply (owner_member_insert_same sid s).
  - unfold remove_application_from_session.
    destruct (sessions r !! sid) as [s|] eqn:Hs; [|done].
    destruct (negb _); [done|].
    destruct (applications s !! app_id); [|done]. simpl.
    by apply (owner_member_insert_same sid s).
  - unfold update_session_settings.
    destruct (sessions r !! sid) as [s|] eqn:Hs; [|done].
    destruct (negb _); [done|]. simpl. by apply (owner_member_insert_same sid s).
  - by apply owner_member_cleanup.
Qed.

Lemma runs_owner_member r0 cs r :
  reachable iter r0 → owner_member r0 → runs iter r0 cs r → owner_member r.
Proof using Hok.
  intros Hr0 Hom0 Hruns. induction Hruns as [|r0 c cs r' _ _ IH]; [done|].
  apply IH; [by apply exec_reachable|].
  apply owner_member_exec; [by apply (reachable_registry_inv iter) | done].
Qed.

(** X7. However the registry has been used since [__init__], the owner of
    every active session is one of its participants; in particular an active
    session is never empty. *)
Theorem active_session_has_owner timeout cs r sid s :
  runs iter (init timeout) cs r →
  sessions r !! sid = Some s →
  active s →
  owner_id s ∈ participants s ∧ participants s ≠ ∅.
Proof using Hok.
  intros Hruns Hs Hact.
  assert (owner_member r) as Hom.
  { apply (runs_owner_member (init timeout) cs r); [constructor | | done].
    intros sid' s0 Hx. simpl in Hx. by rewrite lookup_empty in Hx. }
  split; [by apply (Hom sid)|].
  intros Hempty. pose proof (Hom sid s Hs Hact) as Hin. rewrite Hempty in Hin.
  by apply not_elem_of_empty in Hin.
Qed.

End owner.


(** *** The reverse map *)

Section reverse_map.
Context (iter : set_order) (Hok : set_order_ok iter).

Lemma pointed_insert_same sid s s' r :
  sessions r !! sid = Some s →
  (active s → active s') → participants s ⊆ participants s' →
  pointed r → pointed (set_sessions (<[sid := s']>) r).
Proof.
  intros Hs Hact Hsub Hp u sid' Hu. simpl in *.
  destruct (Hp u sid' Hu) as (s0 & Hs0 & Ha & Hin).
  destruct (decide (sid = sid')) as [<-|Hne].
  - exists s'. rewrite lookup_insert_eq. split; [done|].
    assert (s0 = s) as -> by congruence. split; [by apply Hact | by apply Hsub].
  - exists s0. by rewrite lookup_insert_ne.
Qed.

Lemma pointed_close now sid r : pointed r → pointed (close_session iter now sid r).2.
Proof using Hok.
  intros Hp. unfold close_session.
  destruct (sessions r !! sid) as [s|] eqn:Hs; [|done].
  intros u sid' Hu. simpl in *.
  pose proof (foldl_delete_lookup _ _ _ _ Hu) as Hu0.
  destruct (Hp u sid' Hu0) as (s0 & Hs0 & Ha & Hin).
  destruct (decide (sid = sid')) as [<-|Hne].
  - assert (s0 = s) as -> by congruence.
    rewrite foldl_delete_in in Hu; [done|].
    rewrite (Hok (participants s)). by apply elem_of_elements.
  - exists s0. by rewrite lookup_insert_ne.
Qed.

Lemma pointed_cleanup now r : pointed r → pointed (cleanup_expired_sessions iter now r).
Proof using Hok.
  unfold cleanup_expired_sessions. generalize (expired_sessions now r).
  intros l. revert r. induction l as [|sid l IH]; intros r Hp; simpl; [done|].
  by apply IH, pointed_close.
Qed.

Lemma pointed_leave now user r :
  inv r → pointed r → pointed (leave_session iter now user r).2.
Proof using Hok.
  intros [H1 _] Hp. unfold leave_session.
  destruct (user_sessions r !! user) as [sid|] eqn:Hu; [|done].
  destruct (sessions r !! sid) as [s|] eqn:Hs; [|done].
  simpl. destruct (H1 sid) as [ps Hps]; [eauto|]. rewrite Hps.
  set (s2 := set_last_activity now (set_participants (participants s ∖ {[user]}) s)).
  set (r2 := set_sessions _ (set_user_sessions _ _)).
  assert (pointed r2) as Hp2.
  { intros u sid' Hu0. simpl in Hu0.
    apply lookup_delete_Some in Hu0 as [Hne Hu']. simpl.
    destruct (Hp u sid' Hu') as (s0 & Hs0 & Ha & Hin).
    destruct (decide (sid = sid')) as [<-|Hne'].
    - exists s2. rewrite lookup_insert_eq. split; [done|].
      assert (s0 = s) as -> by congruence. split; [done|].
      simpl. apply elem_of_difference. split; [done|].
      intros ->%elem_of_singleton. done.
    - exists s0. rewrite !lookup_insert_ne by done. done. }
  assert (sessions r2 !! sid = Some s2) as Hsid2.
  { simpl. by rewrite lookup_insert_eq. }
  case_bool_decide; [|done].
  case_bool_decide; [by apply pointed_close|].
  destruct (iter _); simpl; [done|].
  by apply (pointed_insert_same sid s2).
Qed.

Lemma pointed_exec c r :
  inv r → fresh_call c r → pointed r → pointed (exec iter c r).
Proof using Hok.
  intros Hinv Hfresh Hp.
  destruct c as [uuid now owner name | now sid user | now user | now sid
                | now sid app_id user | now sid app_id user | now sid user u | now]; simpl.
  - simpl in Hfresh. intros u sid' Hu. simpl in *.
    destruct (decide (owner = u)) as [<-|Hne].
    + rewrite lookup_insert_eq in Hu. injection Hu as <-.
      eexists. rewrite lookup_insert_eq. split; [done|]. split; [done|].
      simpl. by apply elem_of_singleton.
    + rewrite lookup_insert_ne in Hu by done.
      destruct (Hp u sid' Hu) as (s0 & Hs0 & Ha & Hin).
      exists s0. rewrite lookup_insert_ne; [done|]. congruence.
  - unfold join_session.
    destruct (sessions r !! sid) as [s|] eqn:Hs; [|done].
    case_bool_decide as Hact; simpl; [|done].
    destruct (_ <=? _)%Z; [done|]. simpl.
    set (s1 := set_participants (participants s ∪ {[user]}) s).
    assert (∀ s', active s' → participants s ∪ {[user]} ⊆ participants s' →
              ∀ u sid', <[user := sid]> (user_sessions r) !! u = Some sid' →
              ∃ s0, <[sid := s']> (sessions r) !! sid' = Some s0 ∧ active s0 ∧
                    u ∈ participants s0) as Hstep.
    { intros s' Ha' Hsub u sid' Hu.
      destruct (decide (user = u)) as [<-|Hne].
      - rewrite lookup_insert_eq in Hu. injection Hu as <-.
        exists s'. rewrite lookup_insert_eq. split; [done|]. split; [done|].
        apply Hsub, elem_of_union. right. by apply elem_of_singleton.
      - rewrite lookup_insert_ne in Hu by done.
        destruct (Hp u sid' Hu) as (s0 & Hs0 & Ha & Hin).
        destruct (decide (sid = sid')) as [<-|Hne'].
        + exists s'. rewrite lookup_insert_eq. split; [done|]. split; [done|].
          assert (s0 = s) as -> by congruence.
          apply Hsub, elem_of_union. by left.
        + exists s0. by rewrite lookup_insert_ne. }
    destruct (session_participants r !! sid) as [ps|]; simpl.
    + intros u sid' Hu. simpl in *. rewrite insert_insert_eq.
      by apply (Hstep (set_last_activity now s1)).
    + intros u sid' Hu. simpl in *. by apply (Hstep s1).
  - by apply pointed_leave.
  - by apply pointed_close.
  - unfold add_application_to_session.
    destruct (sessions r !! sid) as [s|] eqn:Hs; [|done].
    destruct (negb _); [done|]. simpl. by apply (pointed_insert_same sid s).
  - unfold remove_application_from_session.
    destruct (sessions r !! sid) as [s|] eqn:Hs; [|done].
    destruct (negb _); [done|].
    destruct (applications s !! app_id); [|done]. simpl.
    by apply (pointed_insert_same sid s).
  - unfold update_session_settings.
    destruct (sessions r !! sid) as [s|] eqn:Hs; [|done].
    destruct (negb _); [done|]. simpl. by apply (pointed_insert_same sid s).
  - by apply pointed_cleanup.
Qed.

Lemma runs_pointed r0 cs r :
  reachable iter r0 → pointed r0 → runs iter r0 cs r → pointed r.
Proof using Hok.
  intros Hr0 Hp0 Hruns. induction Hruns as [|r0 c cs r' Hfresh _ IH]; [done|].
  apply IH; [by apply exec_reachable|].
  apply pointed_exec; [by apply (reachable_registry_inv iter) | done | done].
Qed.

(** X8. However the registry has been used since [__init__] (with session
    ids that are new when they are drawn), [get_user_session] never returns a
    closed session or one the user is not part of: a user with an entry in the
    reverse map gets a session, and that session is active and has the user
    among its participants. *)
Theorem user_session_is_active_membership timeout cs r u :
  runs iter (init timeout) cs r →
  (is_Some (user_sessions r !! u) → is_Some (get_user_session u r)) ∧
  (∀ s, get_user_session u r = Some s → active s ∧ u ∈ participants s).
Proof using Hok.
  intros Hruns.
  assert (pointed r) as Hp.
  { apply (runs_pointed (init timeout) cs r); [constructor | | done].
    intros u' sid' Hx. simpl in Hx. by rewrite lookup_empty in Hx. }
  unfold get_user_session. split.
  - intros [sid Hu]. rewrite Hu. destruct (Hp u sid Hu) as (s & -> & _). eauto.
  - intros s. destruct (user_sessions r !! u) as [sid|] eqn:Hu; [|done].
    destruct (Hp u sid Hu) as (s0 & Hs0 & Ha & Hin). intros Hs. by simplify_eq.
Qed.

End reverse_map.


(** *** Closed sessions *)

Section closed.
Context (iter : set_order).

Lemma kept_refl r : kept r r.
Proof. intros sid s Hs. eauto. Qed.

Lemma kept_trans r1 r2 r3 : kept r1 r2 → kept r2 r3 → kept r1 r3.
Proof.
  intros H12 H23 sid s Hs.
  destruct (H12 sid s Hs) as (s2 & Hs2 & Hc2 & Ht2).
  destruct (H23 sid s2 Hs2) as (s3 & Hs3 & Hc3 & Ht3).
  exists s3. split; [done|]. split; [auto | congruence].
Qed.

Lemma kept_insert sid s s' r r' :
  sessions r !! sid = Some s →
  sessions r' = <[sid := s']> (sessions r) →
  (session_status s = "closed" → session_status s' = "closed") →
  created_at s' = created_at s →
  kept r r'.
Proof.
  intros Hs Heq Hc Ht sid' s0 Hs0. rewrite Heq.
  destruct (decide (sid = sid')) as [<-|Hne].
  - exists s'. rewrite lookup_insert_eq. by simplify_eq.
  - exists s0. by rewrite lookup_insert_ne.
Qed.

Lemma kept_close now sid r : kept r (close_session iter now sid r).2.
Proof.
  unfold close_session. destruct (sessions r !! sid) as [s|] eqn:Hs; [|apply kept_refl].
  by apply (kept_insert sid s (mark_closed now s)).
Qed.

Lemma kept_cleanup now r : kept r (cleanup_expired_sessions iter now r).
Proof.
  unfold cleanup_expired_sessions. generalize (expired_sessions now r).
  intros l. revert r. induction l as [|sid l IH]; intros r; simpl; [apply kept_refl|].
  eapply kept_trans; [apply (kept_close now sid) | apply IH].
Qed.

Lemma kept_leave now user r : kept r (leave_session iter now user r).2.
Proof.
  unfold leave_session.
  destruct (user_sessions r !! user) as [sid|]; [|apply kept_refl].
  destruct (sessions r !! sid) as [s|] eqn:Hs; [|apply kept_refl].
  simpl. set (s1 := set_participants (participants s ∖ {[user]}) s).
  destruct (session_participants r !! sid) as [ps|]; simpl.
  2:{ by apply (kept_insert sid s s1). }
  set (s2 := set_last_activity now s1).
  set (r2 := set_sessions _ (set_user_sessions _ _)).
  assert (kept r r2) as Hk2.
  { apply (kept_insert sid s s2); try done. simpl. by rewrite insert_insert_eq. }
  assert (sessions r2 !! sid = Some s2) as Hsid2.
  { simpl. by rewrite lookup_insert_eq. }
  case_bool_decide; [|done].
  case_bool_decide.
  - eapply kept_trans; [exact Hk2 | apply kept_close].
  - destruct (iter _) as [|x rest]; simpl; [done|].
    eapply kept_trans; [exact Hk2|].
    by apply (kept_insert sid s2 (set_owner_id x s2)).
Qed.

Lemma kept_exec c r : fresh_call c r → kept r (exec iter c r).
Proof.
  intros Hfresh.
  destruct c as [uuid now owner name | now sid user | now user | now sid
                | now sid app_id user | now sid app_id user | now sid user u | now]; simpl.
  - simpl in Hfresh. intros sid s Hs. exists s. simpl.
    rewrite lookup_insert_ne; [done | congruence].
  - unfold join_session.
    destruct (sessions r !! sid) as [s|] eqn:Hs; [|apply kept_refl].
    destruct (negb _); [apply kept_refl|]. destruct (_ <=? _)%Z; [apply kept_refl|]. simpl.
    destruct (session_participants r !! sid) as [ps|]; simpl.
    + eapply (kept_insert sid s);
        [done | simpl; rewrite insert_insert_eq; reflexivity | done | done].
    + eapply (kept_insert sid s); [done | reflexivity | done | done].
  - apply kept_leave.
  - apply kept_close.
  - unfold add_application_to_session.
    destruct (sessions r !! sid) as [s|] eqn:Hs; [|apply kept_refl].
    destruct (negb _); [apply kept_refl|].
    eapply (kept_insert sid s); [done | reflexivity | done | done].
  - unfold remove_application_from_session.
    destruct (sessions r !! sid) as [s|] eqn:Hs; [|apply kept_refl].
    destruct (negb _); [apply kept_refl|].
    destruct (applications s !! app_id); [|apply kept_refl].
    eapply (kept_insert sid s); [done | reflexivity | done | done].
  - unfold update_session_settings.
    destruct (sessions r !! sid) as [s|] eqn:Hs; [|apply kept_refl].
    destruct (negb _); [apply kept_refl|].
    eapply (kept_insert sid s); [done | reflexivity | done | done].
  - apply kept_cleanup.
Qed.

(** X9. No call removes a session from the table, changes its time of
    creation, or brings a closed session back: whatever calls follow (with
    session ids that are new when they are drawn), a session of the table is
    still there afterwards, and it is closed if it was closed. *)
Theorem closed_session_stays_closed r cs r' sid s :
  runs iter r cs r' →
  sessions r !! sid = Some s →
  ∃ s', sessions r' !! sid = Some s' ∧
        (session_status s = "closed" → session_status s' = "closed") ∧
        created_at s' = created_at s.
Proof.
  intros Hruns. revert sid s. change (kept r r').
  induction Hruns as [|r c cs r' Hfresh _ IH]; [apply kept_refl|].
  eapply kept_trans; [by apply kept_exec | exact IH].
Qed.

End closed.


(** *** Joining, closing, binding applications *)

Section operations.
Context (iter : set_order).

(** X10. In every state the registry reaches, [join_session] succeeds
    exactly when the session exists, is active and is below its participant
    limit. A refused join changes nothing. After a successful one the user is
    a participant, the participants do not exceed the limit, the reverse map
    sends the user to the session, and the time of last activity is the time
    of the call. *)
Theorem join_session_outcome now sid user r :
  reachable iter r →
  let res := join_session now sid user r in
  (res.1 = true ↔
     ∃ s, sessions r !! sid = Some s ∧ active s ∧
          (Z.of_nat (size (participants s)) < max_participants (session_settings s))%Z) ∧
  (res.1 = false → res.2 = r) ∧
  (res.1 = true →
     ∃ s', sessions res.2 !! sid = Some s' ∧ user ∈ participants s' ∧
           (Z.of_nat (size (participants s')) ≤ max_participants (session_settings s'))%Z ∧
           last_activity s' = now ∧
           user_sessions res.2 !! user = Some sid).
Proof.
  intros Hreach. destruct (reachable_registry_inv iter r Hreach) as [H1 _].
  unfold join_session. simpl.
  destruct (sessions r !! sid) as [s|] eqn:Hs.
  2:{ simpl. split; [|done]. split; [done|]. by intros (s & ? & _). }
  unfold active. case_bool_decide as Hact; simpl.
  2:{ split; [|done]. split; [done|]. intros (s0 & [= <-] & ? & _). done. }
  destruct (_ <=? _)%Z eqn:Hfull.
  { apply Z.leb_le in Hfull. simpl. split; [|done].
    split; [done|]. intros (s0 & [= <-] & _ & ?). lia. }
  apply Z.leb_gt in Hfull. simpl.
  destruct (H1 sid) as [ps Hps]; [eauto|]. rewrite Hps. simpl.
  split; [|split; [done|]].
  { split; [|done]. intros _. exists s. done. }
  intros _. eexists. rewrite lookup_insert_eq. split; [done|]. simpl.
  split; [apply elem_of_union; right; by apply elem_of_singleton|].
  split; [|by rewrite lookup_insert_eq].
  rewrite size_union_alt.
  assert (size (({[user]} : gset string) ∖ participants s) ≤ 1).
  { etrans; [apply subseteq_size, subseteq_difference_l; reflexivity|].
    by rewrite size_singleton. }
  lia.
Qed.

(** X11. [close_session] of a session of the table marks it closed at the
    time of the call, empties its entry in [session_participants] and deletes
    the reverse-map entry of every participant of the session, wherever that
    entry points; the participants stay recorded in the session, and the
    other sessions and the other users are left alone. An unknown id is
    refused without any change. *)
Theorem close_session_effect now sid r :
  set_order_ok iter →
  (sessions r !! sid = None → close_session iter now sid r = (false, r)) ∧
  (∀ s, sessions r !! sid = Some s →
     let r' := (close_session iter now sid r).2 in
     (close_session iter now sid r).1 = true ∧
     sessions r' !! sid = Some (mark_closed now s) ∧
     session_participants r' !! sid = Some ∅ ∧
     (∀ u, u ∈ participants s → user_sessions r' !! u = None) ∧
     (∀ u, u ∉ participants s → user_sessions r' !! u = user_sessions r !! u) ∧
     (∀ sid', sid' ≠ sid →
        sessions r' !! sid' = sessions r !! sid' ∧
        session_participants r' !! sid' = session_participants r !! sid')).
Proof.
  intros Hok. unfold close_session. split.
  { by intros ->. }
  intros s ->. simpl. rewrite !lookup_insert_eq.
  split; [done|]. split; [done|]. split; [done|]. split; [|split].
  - intros u Hu. apply foldl_delete_in. rewrite (Hok (participants s)).
    by apply elem_of_elements.
  - intros u Hu. apply foldl_delete_not_in. rewrite (Hok (participants s)).
    by rewrite elem_of_elements.
  - intros sid' Hne. by rewrite !lookup_insert_ne.
Qed.

(** X12. A participant who binds an application that the session does not
    have yet and then unbinds it leaves the applications of the session as
    they were (both calls succeed and only the time of last activity moves);
    a user who is not a participant is refused by both calls, which then
    change nothing. *)
Theorem application_binding_round_trip t1 t2 sid app_id user r s :
  sessions r !! sid = Some s →
  (user ∈ participants s → applications s !! app_id = None →
     let r1 := (add_application_to_session t1 sid app_id user r).2 in
     let r2 := (remove_application_from_session t2 sid app_id user r1).2 in
     (add_application_to_session t1 sid app_id user r).1 = true ∧
     (applications <$> sessions r1 !! sid)
       = Some (<[app_id := Binding user t1 true]> (applications s)) ∧
     (remove_application_from_session t2 sid app_id user r1).1 = true ∧
     sessions r2 = <[sid := set_last_activity t2 s]> (sessions r) ∧
     user_sessions r2 = user_sessions r ∧
     session_participants r2 = session_participants r) ∧
  (user ∉ participants s →
     add_application_to_session t1 sid app_id user r = (false, r) ∧
     remove_application_from_session t2 sid app_id user r = (false, r)).
Proof.
  intros Hs. split.
  - intros Hin Hnone.
    set (b := Binding user t1 true).
    set (s1 := set_last_activity t1 (set_applications (<[app_id := b]>) s)).
    set (r1 := set_sessions (<[sid := s1]>) r).
    assert (add_application_to_session t1 sid app_id user r = (true, r1)) as ->.
    { unfold add_application_to_session. rewrite Hs.
      by rewrite (bool_decide_eq_true_2 (user ∈ participants s)) by done. }
    cbv zeta. cbn [fst snd].
    assert (sessions r1 !! sid = Some s1) as Hs1 by apply lookup_insert_eq.
    assert (remove_application_from_session t2 sid app_id user r1
            = (true, set_sessions
                       (<[sid := set_last_activity t2 (set_applications (delete app_id) s1)]>)
                       r1)) as ->.
    { unfold remove_application_from_session. rewrite Hs1.
      change (participants s1) with (participants s).
      rewrite (bool_decide_eq_true_2 (user ∈ participants s)) by done.
      change (applications s1) with (<[app_id := b]> (applications s)).
      by rewrite lookup_insert_eq. }
    cbn [fst snd]. split; [done|]. split; [by rewrite Hs1|]. split; [done|].
    split; [|done].
    change (<[sid := set_last_activity t2 (set_applications (delete app_id) s1)]>
              (<[sid := s1]> (sessions r)) = <[sid := set_last_activity t2 s]> (sessions r)).
    rewrite insert_insert_eq. f_equal.
    unfold set_last_activity, set_applications, s1. simpl.
    rewrite delete_insert_eq, (delete_id _ _ Hnone). by destruct s.
  - intros Hnin.
    unfold add_application_to_session, remove_application_from_session. rewrite Hs.
    by rewrite (bool_decide_eq_false_2 (user ∈ participants s)) by done.
Qed.

End operations.


(** *** Statistics *)

Section statistics.
Context (iter : set_order).

Lemma sum_list_at_least {A} (f : A → nat) (l : list A) :
  (∀ x, x ∈ l → 1 ≤ f x) → length l ≤ sum_list (f <$> l).
Proof.
  induction l as [|x l IH]; intros Hf; [done|].
  assert (1 ≤ f x) by (apply Hf; left).
  assert (length l ≤ sum_list (f <$> l)) by (apply IH; intros y Hy; apply Hf; by right).
  rewrite fmap_cons. change (S (length l) ≤ f x + sum_list (f <$> l)). lia.
Qed.

(** X13. However the registry has been used since [__init__], the
    statistics agree with the listing: [get_session_stats] counts as many
    active sessions as [list_sessions] returns, never more than there are
    sessions in the table, and every listed session has at least one
    participant, so that the participants counted are at least as many as the
    active sessions. *)
Theorem session_stats_consistent timeout cs r u :
  set_order_ok iter →
  runs iter (init timeout) cs r →
  active_sessions (get_session_stats r) = length (list_sessions u r) ∧
  active_sessions (get_session_stats r) ≤ total_sessions (get_session_stats r) ∧
  active_sessions (get_session_stats r) ≤ total_participants (get_session_stats r) ∧
  ∀ x, x ∈ list_sessions u r → 1 ≤ participant_count x.
Proof.
  intros Hok Hruns.
  assert (owner_member r) as Hom.
  { apply (runs_owner_member iter Hok (init timeout) cs r); [constructor | | done].
    intros sid' s0 Hx. simpl in Hx. by rewrite lookup_empty in Hx. }
  assert (∀ s, s ∈ filter active (map_to_list (sessions r)).*2 → 1 ≤ size (participants s))
    as Hsize.
  { intros s [Hact Hin]%list_elem_of_filter.
    apply list_elem_of_fmap in Hin as ([sid s'] & -> & Hin).
    apply elem_of_map_to_list in Hin. simpl in *.
    pose proof (Hom sid s' Hin Hact) as Hown.
    assert (size (participants s') ≠ 0); [|lia].
    apply size_non_empty_iff. intros Hempty. rewrite Hempty in Hown.
    by apply not_elem_of_empty in Hown. }
  unfold get_session_stats, list_sessions. simpl.
  split; [by rewrite length_fmap|]. split; [|split].
  - etrans; [apply length_filter|]. by rewrite length_fmap, length_map_to_list.
  - by apply sum_list_at_least.
  - intros x (s & -> & Hs)%list_elem_of_fmap. simpl. by apply Hsize.
Qed.

End statistics.

(** *** The theorems at the sample states *)

Lemma sample_runs : runs sample_iter (init 3600) sample_calls sample_joined.
Proof.
  apply runs_cons; [reflexivity|]. apply runs_cons; [exact I|]. apply runs_nil.
Defined.

Lemma active_session_has_owner_witness :
  runs sample_iter (init 3600) sample_calls sample_joined ∧
  (owner_id <$> sessions sample_joined !! "sess-A") = Some "u1" ∧
  "u1" ∈ ({["u1"; "u2"]} : gset string).
Proof.
  split; [exact sample_runs|]. split; [reflexivity|].
  refine (proj1 (active_session_has_owner sample_iter sample_iter_ok 3600 sample_calls
                   sample_joined "sess-A"
                   (Session "sess-A" "alpha" "u1" 0 10 "active" {["u1"; "u2"]} ∅
                      default_settings None)
                   sample_runs _ _)); reflexivity.
Defined.

Lemma user_session_is_active_membership_witness :
  runs sample_iter (init 3600) sample_calls sample_joined ∧
  is_Some (user_sessions sample_joined !! "u2") ∧
  is_Some (get_user_session "u2" sample_joined).
Proof.
  assert (is_Some (user_sessions sample_joined !! "u2")) as Hu by (eexists; reflexivity).
  split; [exact sample_runs|]. split; [exact Hu|].
  exact (proj1 (user_session_is_active_membership sample_iter sample_iter_ok 3600 sample_calls
                  sample_joined "u2" sample_runs) Hu).
Defined.

Lemma closed_session_stays_closed_witness :
  runs sample_iter sample_swept [JoinSession 5000 "sess-A" "u3"]
       (join_session 5000 "sess-A" "u3" sample_swept).2 ∧
  (session_status <$> sessions sample_swept !! "sess-A") = Some "closed" ∧
  ∃ s', sessions (join_session 5000 "sess-A" "u3" sample_swept).2 !! "sess-A" = Some s' ∧
        session_status s' = "closed".
Proof.
  assert (runs sample_iter sample_swept [JoinSession 5000 "sess-A" "u3"]
            (join_session 5000 "sess-A" "u3" sample_swept).2) as Hruns.
  { apply runs_cons; [exact I|]. apply runs_nil. }
  split; [exact Hruns|]. split; [reflexivity|].
  destruct (closed_session_stays_closed sample_iter sample_swept _ _ "sess-A"
              (mark_closed 4000 (Session "sess-A" "alpha" "u1" 0 0 "active" {["u1"]} ∅
                                   default_settings None))
              Hruns) as (s' & Hs' & Hc & _); [reflexivity|].
  exists s'. split; [exact Hs' | apply Hc; reflexivity].
Defined.

Lemma join_session_outcome_witness :
  reachable sample_iter sample_created ∧
  (join_session 10 "sess-A" "u2" sample_created).1 = true ∧
  (join_session 10 "no-such-session" "u2" sample_created).2 = sample_created.
Proof.
  assert (reachable sample_iter sample_created) as Hr by apply reach_create, reach_init.
  split; [exact Hr|]. split; [reflexivity|].
  refine (proj1 (proj2 (join_session_outcome sample_iter 10 "no-such-session" "u2"
                          sample_created Hr)) _). reflexivity.
Defined.

Lemma close_session_effect_witness :
  set_order_ok sample_iter ∧
  user_sessions sample_joined !! "u2" = Some "sess-A" ∧
  user_sessions (close_session sample_iter 50 "sess-A" sample_joined).2 !! "u2" = None.
Proof.
  split; [exact sample_iter_ok|]. split; [reflexivity|].
  destruct (proj2 (close_session_effect sample_iter 50 "sess-A" sample_joined sample_iter_ok)
              (Session "sess-A" "alpha" "u1" 0 10 "active" {["u1"; "u2"]} ∅
                 default_settings None))
    as (_ & _ & _ & Hgone & _); [reflexivity|].
  apply Hgone. apply (bool_decide_unpack _). reflexivity.
Defined.

Lemma application_binding_round_trip_witness :
  sessions sample_joined !! "sess-A"
    = Some (Session "sess-A" "alpha" "u1" 0 10 "active" {["u1"; "u2"]} ∅ default_settings None) ∧
  (add_application_to_session 20 "sess-A" "app-1" "u2" sample_joined).1 = true ∧
  add_application_to_session 20 "sess-A" "app-1" "u9" sample_joined = (false, sample_joined).
Proof.
  assert (sessions sample_joined !! "sess-A"
          = Some (Session "sess-A" "alpha" "u1" 0 10 "active" {["u1"; "u2"]} ∅
                    default_settings None)) as Hs by reflexivity.
  split; [exact Hs|].
  destruct (application_binding_round_trip 20 30 "sess-A" "app-1" "u2" sample_joined _ Hs)
    as [Hyes _].
  destruct (application_binding_round_trip 20 30 "sess-A" "app-1" "u9" sample_joined _ Hs)
    as [_ Hno].
  split.
  - refine (proj1 (Hyes _ _)); [apply (bool_decide_unpack _)|]; reflexivity.
  - refine (proj1 (Hno _)). apply (bool_decide_unpack _). reflexivity.
Defined.

Lemma session_stats_consistent_witness :
  set_order_ok sample_iter ∧
  runs sample_iter (init 3600) sample_calls sample_joined ∧
  active_sessions (get_session_stats sample_joined)
    = length (list_sessions (Some "u2") sample_joined).
Proof.
  split; [exact sample_iter_ok|]. split; [exact sample_runs|].
  exact (proj1 (session_stats_consistent sample_iter 3600 sample_calls sample_joined
                  (Some "u2") sample_iter_ok sample_runs)).
Defined.


(** *** Leaving without owning *)

Section leaving.
Context (iter : set_order).

(** X14. A user without an entry in the reverse map cannot leave: the call
    returns [False] and changes nothing. A participant who is not the owner
    leaves with [True]: the session keeps its owner and its status, loses
    exactly this participant in both participant sets, has the time of the
    call as its last activity, and the reverse-map entry of the user is
    gone. *)
Theorem leave_session_non_owner now user r :
  reachable iter r →
  (user_sessions r !! user = None → leave_session iter now user r = (false, r)) ∧
  (∀ sid s, user_sessions r !! user = Some sid → sessions r !! sid = Some s →
     owner_id s ≠ user →
     let r' := (leave_session iter now user r).2 in
     (leave_session iter now user r).1 = true ∧
     sessions r' !! sid
       = Some (set_last_activity now (set_participants (participants s ∖ {[user]}) s)) ∧
     (∀ ps, session_participants r !! sid = Some ps →
            session_participants r' !! sid = Some (ps ∖ {[user]})) ∧
     user_sessions r' = delete user (user_sessions r)).
Proof.
  intros Hreach. destruct (reachable_registry_inv iter r Hreach) as [H1 _].
  split.
  - intros Hn. unfold leave_session. by rewrite Hn.
  - intros sid s Hu Hs Hne. unfold leave_session. rewrite Hu, Hs. simpl.
    destruct (H1 sid) as [ps Hps]; [eauto|]. rewrite Hps. simpl.
    rewrite (bool_decide_eq_false_2 (owner_id s = user)) by done. simpl.
    rewrite !lookup_insert_eq. split; [done|]. split; [done|]. split; [|done].
    by intros ps' [= <-].
Qed.

End leaving.

Lemma leave_session_non_owner_witness :
  reachable sample_iter sample_joined ∧
  user_sessions sample_joined !! "u2" = Some "sess-A" ∧
  (leave_session sample_iter 40 "u2" sample_joined).1 = true ∧
  leave_session sample_iter 40 "u7" sample_joined = (false, sample_joined).
Proof.
  split; [exact sample_joined_reachable|]. split; [reflexivity|].
  destruct (leave_session_non_owner sample_iter 40 "u2" sample_joined sample_joined_reachable)
    as [_ Hyes].
  destruct (leave_session_non_owner sample_iter 40 "u7" sample_joined sample_joined_reachable)
    as [Hno _].
  split.
  - refine (proj1 (Hyes "sess-A" _ _ _ _)); [reflexivity | reflexivity | discriminate].
  - apply Hno. reflexivity.
Defined.


(** *** The expiry sweep, table by table *)

Section sweep_tables.
Context (iter : set_order) (Hok : set_order_ok iter).

Abbreviation close_all now := (foldl (λ r sid, (close_session iter now sid r).2)).

Lemma close_session_sessions now x r sid :
  participants <$> (sessions (close_session iter now x r).2 !! sid)
  = participants <$> (sessions r !! sid).
Proof.
  unfold close_session. destruct (sessions r !! x) as [s|] eqn:Hx; [|done]. simpl.
  destruct (decide (x = sid)) as [<-|Hne].
  - by rewrite lookup_insert_eq, Hx.
  - by rewrite lookup_insert_ne.
Qed.

Lemma close_all_user_sessions_lookup now l r u x :
  user_sessions (close_all now r l) !! u = Some x → user_sessions r !! u = Some x.
Proof.
  revert r. induction l as [|y l IH]; intros r; simpl; [done|].
  intros H%IH. unfold close_session in H.
  destruct (sessions r !! y); [|done]. simpl in H. by apply foldl_delete_lookup in H.
Qed.

Lemma close_all_deletes now l r sid s u :
  sid ∈ l → sessions r !! sid = Some s → u ∈ participants s →
  user_sessions (close_all now r l) !! u = None.
Proof using Hok.
  revert r s. induction l as [|x l IH]; intros r s Hin Hs Hu; simpl.
  { by apply elem_of_nil in Hin. }
  destruct (decide (x = sid)) as [->|Hne].
  - destruct (user_sessions (close_all now _ l) !! u) as [y|] eqn:E; [|done].
    apply close_all_user_sessions_lookup in E.
    unfold close_session in E. rewrite Hs in E. simpl in E.
    rewrite foldl_delete_in in E; [done|].
    rewrite (Hok (participants s)). by apply elem_of_elements.
  - apply elem_of_cons in Hin as [->|Hin]; [done|].
    pose proof (close_session_sessions now x r sid) as Hp. rewrite Hs in Hp. simpl in Hp.
    destruct (sessions (close_session iter now x r).2 !! sid) as [s'|] eqn:Hs'; [|done].
    injection Hp as Hp. apply (IH _ s'); [done | done | by rewrite Hp].
Qed.

Lemma close_all_keeps now l r u :
  (∀ sid s, sid ∈ l → sessions r !! sid = Some s → u ∉ participants s) →
  user_sessions (close_all now r l) !! u = user_sessions r !! u.
Proof using Hok.
  revert r. induction l as [|x l IH]; intros r Hnot; simpl; [done|].
  rewrite IH.
  - unfold close_session. destruct (sessions r !! x) as [s|] eqn:Hx; [|done]. simpl.
    apply foldl_delete_not_in. rewrite (Hok (participants s)), elem_of_elements.
    apply (Hnot x s); [left | done].
  - intros sid s' Hin Hs'.
    pose proof (close_session_sessions now x r sid) as Hp. rewrite Hs' in Hp. simpl in Hp.
    destruct (sessions r !! sid) as [s|] eqn:Hs; [|done].
    injection Hp as Hp. rewrite Hp. apply (Hnot sid s); [by right | done].
Qed.

Lemma close_all_emptied now l r sid :
  session_participants r !! sid = Some ∅ →
  session_participants (close_all now r l) !! sid = Some ∅.
Proof.
  revert r. induction l as [|x l IH]; intros r Hsp; simpl; [done|].
  apply IH. unfold close_session. destruct (sessions r !! x); [|done]. simpl.
  destruct (decide (x = sid)) as [->|Hne];
    [by rewrite lookup_insert_eq | by rewrite lookup_insert_ne].
Qed.

Lemma close_all_empties now l r sid :
  sid ∈ l → is_Some (sessions r !! sid) →
  session_participants (close_all now r l) !! sid = Some ∅.
Proof.
  revert r. induction l as [|x l IH]; intros r Hin [s Hs]; simpl.
  { by apply elem_of_nil in Hin. }
  destruct (decide (x = sid)) as [->|Hne].
  - apply close_all_emptied. unfold close_session. rewrite Hs. simpl.
    by rewrite lookup_insert_eq.
  - apply elem_of_cons in Hin as [->|Hin]; [done|]. apply IH; [done|].
    unfold close_session. destruct (sessions r !! x); [|by eauto]. simpl.
    rewrite lookup_insert_ne by done. eauto.
Qed.

(** X15. What one sweep does, table by table. A session whose last activity
    is older than the timeout is marked closed with the time of the sweep
    (also when it was closed before), its entry in [session_participants] is
    emptied and the reverse-map entries of its participants are deleted. Every
    other session keeps its record and its entry in [session_participants],
    no session is added, and a user who is a participant of no expired session
    keeps the reverse-map entry. *)
Theorem sweep_effect now r :
  let r' := cleanup_expired_sessions iter now r in
  (∀ sid s, sessions r !! sid = Some s →
     expired now (session_timeout r) s = true →
     sessions r' !! sid = Some (mark_closed now s) ∧
     session_participants r' !! sid = Some ∅ ∧
     ∀ u, u ∈ participants s → user_sessions r' !! u = None) ∧
  (∀ sid s, sessions r !! sid = Some s →
     expired now (session_timeout r) s = false →
     sessions r' !! sid = Some s ∧
     session_participants r' !! sid = session_participants r !! sid) ∧
  (∀ sid, sessions r !! sid = None → sessions r' !! sid = None) ∧
  (∀ u, (∀ sid s, sessions r !! sid = Some s →
                  expired now (session_timeout r) s = true → u ∉ participants s) →
        user_sessions r' !! u = user_sessions r !! u).
Proof using Hok.
  intros r'. unfold r', cleanup_expired_sessions.
  split; [|split; [|split]].
  - intros sid s Hs Hexp.
    assert (sid ∈ expired_sessions now r) as Hin
      by (apply elem_of_expired_sessions; eauto).
    split; [by apply (cleanup_closes_expired iter now r sid s)|].
    split; [apply close_all_empties; eauto|].
    intros u Hu. by apply (close_all_deletes now _ r sid s).
  - intros sid s Hs Hexp. by apply (cleanup_closes_expired iter now r sid s).
  - intros sid Hnone. rewrite close_all_sessions, Hnone. by case_bool_decide.
  - intros u Hnot. apply close_all_keeps.
    intros sid s (s0 & Hs0 & Hexp)%elem_of_expired_sessions Hs.
    apply (Hnot sid s); [done | congruence].
Qed.

End sweep_tables.

Lemma sweep_effect_witness :
  set_order_ok sample_iter ∧
  (session_status <$> sessions (cleanup_expired_sessions sample_iter 4000 sample_created)
                        !! "sess-A") = Some "closed" ∧
  user_sessions (cleanup_expired_sessions sample_iter 4000 sample_created) !! "u1" = None.
Proof.
  split; [exact sample_iter_ok|].
  destruct (proj1 (sweep_effect sample_iter sample_iter_ok 4000 sample_created) "sess-A"
              (Session "sess-A" "alpha" "u1" 0 0 "active" {["u1"]} ∅ default_settings None))
    as (Hs & _ & Hu); [reflexivity | reflexivity |].
  split; [by rewrite Hs|].
  apply Hu. apply (bool_decide_unpack _). reflexivity.
Defined.

End SessionManagerExtra.

(** ** Facts about WebSocketHandler and LiveStreamer *)

Module StreamFacts.

Lemma iter_NoDup (iter : set_order) (X : gset string) : set_order_ok iter → NoDup (iter X).
Proof. intros Hok. rewrite (Hok X). apply NoDup_elements. Qed.

Lemma elem_of_iter (iter : set_order) (X : gset string) c :
  set_order_ok iter → c ∈ iter X ↔ c ∈ X.
Proof. intros Hok. rewrite (Hok X). apply elem_of_elements. Qed.

(** *** Broadcasts of the WebSocket handler *)

Section broadcast.
Import WebSocketHandler.
Context (iter : set_order) (w : world).

Lemma send_to_client_spec c data h :
  same_tables h (send_to_client w c data h) ∧
  ∀ c', sent_to c' (send_to_client w c data h)
        = sent_to c' h ++ received (bool_decide (c' = c) && send_ok w c') data.
Proof.
  unfold send_to_client, same_tables. split.
  { by destruct (send_ok w c). }
  intros c'. case_bool_decide as Hc; simpl.
  - subst c'. destruct (send_ok w c); simpl; [|by rewrite app_nil_r].
    unfold sent_to at 1. simpl. by rewrite lookup_insert_eq.
  - rewrite app_nil_r. destruct (send_ok w c); [|done].
    unfold sent_to. simpl. by rewrite lookup_insert_ne.
Qed.

Lemma send_loop_spec data exclude (l : list string) h :
  NoDup l →
  let h' := foldl (λ h c, if bool_decide (Some c ≠ exclude)
                          then send_to_client w c data h else h) h l in
  same_tables h h' ∧
  ∀ c, sent_to c h'
       = sent_to c h ++ received (bool_decide (c ∈ l ∧ Some c ≠ exclude) && send_ok w c) data.
Proof.
  revert h. induction l as [|x l IH]; intros h Hnd; cbn [foldl].
  { split; [done|]. intros c.
    rewrite bool_decide_eq_false_2; [by rewrite app_nil_r|].
    intros [Hin _]. by apply elem_of_nil in Hin. }
  pose proof (NoDup_cons_1_1 _ _ Hnd) as Hx. apply NoDup_cons_1_2 in Hnd.
  set (h1 := if bool_decide (Some x ≠ exclude) then send_to_client w x data h else h).
  assert (same_tables h h1 ∧
          ∀ c, sent_to c h1 = sent_to c h
                 ++ received (bool_decide (c = x ∧ Some c ≠ exclude) && send_ok w c) data)
    as [Ht1 Hs1].
  { unfold h1. case_bool_decide as Hex.
    - destruct (send_to_client_spec x data h) as [Ht Hs]. split; [done|].
      intros c. rewrite Hs. f_equal. f_equal. f_equal.
      apply bool_decide_ext. split; [intros ->; done | intros [-> _]; done].
    - split; [done|]. intros c.
      rewrite bool_decide_eq_false_2; [by rewrite app_nil_r|].
      intros [-> ?]. done. }
  destruct (IH h1 Hnd) as [Ht Hs]. split.
  { destruct Ht1 as (?&?&?&?), Ht as (?&?&?&?). repeat split; congruence. }
  intros c. rewrite Hs, Hs1, <- app_assoc. f_equal.
  destruct (decide (c = x)) as [->|Hne].
  - rewrite (bool_decide_eq_false_2 (x ∈ l ∧ _)) by (intros [? _]; done).
    simpl. rewrite app_nil_r. f_equal. f_equal.
    apply bool_decide_ext. rewrite elem_of_cons. intuition.
  - rewrite (bool_decide_eq_false_2 (c = x ∧ _)) by (intros [? _]; done).
    simpl. f_equal. f_equal.
    apply bool_decide_ext. rewrite elem_of_cons. intuition.
Qed.

Lemma broadcast_to_app_spec app_id data exclude h :
  set_order_ok iter →
  let h' := broadcast_to_app iter w app_id data exclude h in
  same_tables h h' ∧
  ∀ c, sent_to c h'
       = sent_to c h
         ++ received (bool_decide (c ∈ room app_id h ∧ Some c ≠ exclude) && send_ok w c) data.
Proof.
  intros Hok. unfold broadcast_to_app, room.
  destruct (app_sessions h !! app_id) as [X|] eqn:HX; simpl.
  - destruct (send_loop_spec data exclude (iter X) h (iter_NoDup iter X Hok)) as [Ht Hs].
    split; [done|]. intros c. rewrite Hs. f_equal. f_equal. f_equal.
    apply bool_decide_ext. by rewrite elem_of_iter.
  - split; [done|]. intros c.
    rewrite bool_decide_eq_false_2; [by rewrite app_nil_r|].
    intros [Hin _]. by apply not_elem_of_empty in Hin.
Qed.


End broadcast.


(** *** Input events *)

Section input.
Import WebSocketHandler.
Context (iter : set_order) (w : world).

Lemma add_nothing h :
  h = Handler (connected_clients h) (app_sessions h) (client_apps h) (sent h)
              (injected h ++ []).
Proof. rewrite app_nil_r. by destruct h. Qed.

Lemma send_mouse_event_spec win data h :
  send_mouse_event win (mouse_type data) (default 0%Z (mouse_x data))
    (default 0%Z (mouse_y data)) (default 1%Z (mouse_button data)) h
  = Handler (connected_clients h) (app_sessions h) (client_apps h) (sent h)
            (injected h ++ mouse_commands (Some win) data).
Proof.
  unfold send_mouse_event, mouse_commands. destruct (mouse_type data) as [t|].
  - case_bool_decide; [done | apply add_nothing].
  - apply add_nothing.
Qed.

Lemma send_keyboard_event_spec win data h :
  send_keyboard_event win (keyboard_key data) (default [] (keyboard_modifiers data)) h
  = Handler (connected_clients h) (app_sessions h) (client_apps h) (sent h)
            (injected h ++ keyboard_commands (Some win) data).
Proof.
  unfold send_keyboard_event, keyboard_commands.
  destruct (keyboard_key data) as [k|]; [done | apply add_nothing].
Qed.

Lemma forwarded_intro c app_id cmds msg h :
  set_order_ok iter →
  forwarded w c app_id cmds msg h
    (broadcast_to_app iter w app_id msg (Some c)
       (Handler (connected_clients h) (app_sessions h) (client_apps h) (sent h)
                (injected h ++ cmds))).
Proof.
  intros Hok.
  destruct (broadcast_to_app_spec iter w app_id msg (Some c)
              (Handler (connected_clients h) (app_sessions h) (client_apps h) (sent h)
                       (injected h ++ cmds)) Hok) as [(H1 & H2 & H3 & H4) Hs].
  simpl in *. split; [done|]. split; [done|]. split; [done|]. split; [done|].
  intros c'. rewrite Hs. unfold sent_to, room. simpl. f_equal. f_equal. f_equal.
  apply bool_decide_ext. split; intros [? Hne]; (split; [done|]); congruence.
Qed.

End input.


Section input_claim.
Import WebSocketHandler.
Context (iter : set_order) (w : world).

(** C7 (as the code has it). An input event of a client that is in no room
    is dropped: nothing changes. Otherwise the event goes to the input
    injector of the room: it is run on the first window of the application of
    the room, as the one command that carries the type, the coordinates and
    the button of a mouse event, or the key and the modifiers of a keyboard
    event (no command is run when the application has no window, when the
    type of a mouse event is none of the four that the window manager knows,
    or when a keyboard event has no key). The event is also broadcast, as a
    "mouse_event" or "keyboard_event" message, to every other subscriber of
    the room whose send goes through; the sender gets nothing back and the
    tables are as before. *)
Theorem input_event_forwarded now c md kd h :
  set_order_ok iter →
  (client_apps h !! c = None ∨ client_apps h !! c = Some "" →
     handle_mouse_event iter w now c md h = h ∧
     handle_keyboard_event iter w now c kd h = h) ∧
  (∀ app_id, client_apps h !! c = Some app_id → app_id ≠ "" →
     forwarded w c app_id (mouse_commands (main_window w app_id) md)
       (MouseEvent c (mouse_type md) (default 0%Z (mouse_x md)) (default 0%Z (mouse_y md))
                   (default 1%Z (mouse_button md)) now)
       h (handle_mouse_event iter w now c md h) ∧
     forwarded w c app_id (keyboard_commands (main_window w app_id) kd)
       (KeyboardEvent c (keyboard_key kd) (default [] (keyboard_modifiers kd)) now)
       h (handle_keyboard_event iter w now c kd h)) ∧
  (∀ win t, mouse_type md = Some t → t ∈ ["click"; "mousemove"; "mousedown"; "mouseup"] →
     mouse_commands (Some win) md
     = [InjectMouse win t (default 0%Z (mouse_x md)) (default 0%Z (mouse_y md))
                    (default 1%Z (mouse_button md))]) ∧
  (∀ win k, keyboard_key kd = Some k →
     keyboard_commands (Some win) kd
     = [InjectKey win k (default [] (keyboard_modifiers kd))]).
Proof.
  intros Hok. split; [|split; [|split]].
  - intros [Hnone|Hnone]; unfold handle_mouse_event, handle_keyboard_event;
      by rewrite Hnone.
  - intros app_id Happ Hne. unfold handle_mouse_event, handle_keyboard_event.
    rewrite Happ, (bool_decide_eq_false_2 (app_id = "")) by done.
    split.
    + destruct (main_window w app_id) as [win|].
      * rewrite send_mouse_event_spec. by apply forwarded_intro.
      * rewrite (add_nothing h) at 2.
        change (mouse_commands None md) with (@nil injection). by apply forwarded_intro.
    + destruct (main_window w app_id) as [win|].
      * rewrite send_keyboard_event_spec. by apply forwarded_intro.
      * rewrite (add_nothing h) at 2.
        change (keyboard_commands None kd) with (@nil injection). by apply forwarded_intro.
  - intros win t Ht Hin. unfold mouse_commands. rewrite Ht.
    by rewrite bool_decide_eq_true_2.
  - intros win k Hk. unfold keyboard_commands. by rewrite Hk.
Qed.

End input_claim.

(** *** Frames of the live streamer *)

Section frames.
Import LiveStreamer.
Context (iter : set_order) (ok : string → bool).

Lemma send_spec message st c :
  clients (send ok message st c) = clients st ∧
  ∀ c', delivered_to c' (send ok message st c)
        = delivered_to c' st ++ (if bool_decide (c' = c) && ok c' then [message] else []).
Proof.
  unfold send. split; [by destruct (ok c)|].
  intros c'. case_bool_decide as Hc; simpl.
  - subst c'. destruct (ok c); simpl; [|by rewrite app_nil_r].
    unfold delivered_to at 1. simpl. by rewrite lookup_insert_eq.
  - rewrite app_nil_r. destruct (ok c); [|done].
    unfold delivered_to. simpl. by rewrite lookup_insert_ne.
Qed.

Lemma gather_spec message (l : list string) st :
  NoDup l →
  clients (foldl (send ok message) st l) = clients st ∧
  ∀ c, delivered_to c (foldl (send ok message) st l)
       = delivered_to c st ++ (if bool_decide (c ∈ l) && ok c then [message] else []).
Proof.
  revert st. induction l as [|x l IH]; intros st Hnd; cbn [foldl].
  { split; [done|]. intros c. rewrite bool_decide_eq_false_2; [by rewrite app_nil_r|].
    apply not_elem_of_nil. }
  pose proof (NoDup_cons_1_1 _ _ Hnd) as Hx. apply NoDup_cons_1_2 in Hnd.
  destruct (send_spec message st x) as [Hc1 Hs1].
  destruct (IH (send ok message st x) Hnd) as [Hc Hs].
  split; [congruence|].
  intros c. rewrite Hs, Hs1, <- app_assoc. f_equal.
  destruct (decide (c = x)) as [->|Hne].
  - rewrite (bool_decide_eq_false_2 (x ∈ l)) by done.
    rewrite (bool_decide_eq_true_2 (x = x)) by done.
    rewrite (bool_decide_eq_true_2 (x ∈ x :: l)) by left.
    simpl. by rewrite app_nil_r.
  - rewrite (bool_decide_eq_false_2 (c = x)) by done. simpl.
    assert (c ∈ x :: l ↔ c ∈ l) as Hiff by (rewrite elem_of_cons; intuition).
    by rewrite (bool_decide_ext _ _ Hiff).
Qed.

Lemma capture_and_stream_step_spec screenshot now st :
  set_order_ok iter →
  let st' := capture_and_stream_step iter ok screenshot now st in
  clients st' = clients st ∧
  ∀ c, delivered_to c st'
       = delivered_to c st
         ++ (if bool_decide (c ∈ clients st) && ok c then frames_of [(screenshot, now)] else []).
Proof.
  intros Hok. unfold capture_and_stream_step, frames_of. simpl.
  assert (clients st = clients st ∧
          ∀ c, delivered_to c st
               = delivered_to c st ++ (if bool_decide (c ∈ clients st) && ok c then [] else []))
    as Hnothing.
  { split; [done|]. intros c. by destruct (_ && _); rewrite app_nil_r. }
  destruct screenshot as [data|]; simpl; [|done].
  case_bool_decide as Hdata; simpl; [|done].
  case_bool_decide as Hcl; simpl.
  - destruct (gather_spec (Frame data now) (iter (clients st)) st
                (iter_NoDup iter _ Hok)) as [Hc Hs].
    split; [done|]. intros c. rewrite Hs.
    by rewrite (bool_decide_ext _ _ (elem_of_iter iter (clients st) c Hok)).
  - split; [done|]. intros c. rewrite Hcl.
    rewrite bool_decide_eq_false_2 by apply not_elem_of_empty.
    simpl. by rewrite app_nil_r.
Qed.

Lemma capture_and_stream_spec captures st :
  set_order_ok iter →
  let st' := capture_and_stream iter ok captures st in
  clients st' = clients st ∧
  ∀ c, delivered_to c st'
       = delivered_to c st
         ++ (if bool_decide (c ∈ clients st) && ok c then frames_of captures else []).
Proof.
  intros Hok. revert st.
  induction captures as [|[screenshot now] captures IH]; intros st;
    cbn [capture_and_stream foldl].
  { split; [done|]. intros c. simpl. by destruct (_ && _); rewrite app_nil_r. }
  destruct (capture_and_stream_step_spec screenshot now st Hok) as [Hc1 Hs1].
  destruct (IH (capture_and_stream_step iter ok screenshot now st)) as [Hc Hs].
  unfold capture_and_stream in Hc, Hs. simpl in *.
  split; [congruence|].
  intros c. rewrite Hs, Hs1, Hc1, <- app_assoc. f_equal.
  destruct (_ && _); [|done].
  unfold frames_of. simpl. by destruct screenshot as [d|]; [case_bool_decide|].
Qed.

End frames.

(** *** The streaming loop and the keep-alive loops together *)

Section serving.
Import LiveStreamer.
Context (iter : set_order) (open : string → bool).





End serving.



(** *** The theorems at the sample states *)

Section samples.
Import WebSocketHandler.


Lemma input_event_forwarded_witness :
  set_order_ok sample_iter ∧
  client_apps sample_room !! "a" = Some "app1" ∧
  (let h' := handle_mouse_event sample_iter sample_world 20 "a"
               (MouseData (Some "click") (Some 5%Z) (Some 7%Z) None) sample_room in
   injected h' = injected sample_room ++ [InjectMouse "0x2a" "click" 5 7 1] ∧
   app_sessions h' = app_sessions sample_room) ∧
  client_apps sample_room !! "zed" = None ∧
  handle_mouse_event sample_iter sample_world 20 "zed"
    (MouseData (Some "click") (Some 5%Z) (Some 7%Z) None) sample_room = sample_room.
Proof.
  pose proof (input_event_forwarded sample_iter sample_world 20 "a"
                (MouseData (Some "click") (Some 5%Z) (Some 7%Z) None)
                (KeyboardData None None) sample_room sample_iter_ok) as (_ & Ha & _).
  pose proof (input_event_forwarded sample_iter sample_world 20 "zed"
                (MouseData (Some "click") (Some 5%Z) (Some 7%Z) None)
                (KeyboardData None None) sample_room sample_iter_ok) as (Hz & _).
  destruct (Ha "app1" eq_refl) as ((_ & Hrooms & _ & Hinj & _) & _); [discriminate|].
  split; [exact sample_iter_ok|]. split; [reflexivity|].
  split; [split; [exact Hinj | exact Hrooms]|].
  split; [reflexivity|].
  exact (proj1 (Hz (or_introl eq_refl))).
Defined.

(** C7, as the specification states it, fails: the click of a, a subscriber
    of "app1", is run on the main window of the application and is also
    delivered to b, another subscriber of the room. *)
Lemma input_event_reaches_other_subscriber :
  let h' := handle_mouse_event sample_iter sample_world 20 "a"
              (MouseData (Some "click") (Some 5%Z) (Some 7%Z) None) sample_room in
  client_apps sample_room !! "a" = Some "app1" ∧
  client_apps sample_room !! "b" = Some "app1" ∧
  sent_to "b" sample_room = [AppJoined "app1" 2] ∧
  injected h' = [InjectMouse "0x2a" "click" 5 7 1] ∧
  sent_to "b" h' = [AppJoined "app1" 2; MouseEvent "a" (Some "click") 5 7 1 20].
Proof. vm_compute. repeat split. Qed.

End samples.

End StreamFacts.

(** ** More facts about WebSocketHandler and LiveStreamer *)

Module StreamExtra.
Import StreamFacts.

(** *** Rooms *)

Section rooms.
Import WebSocketHandler.
Context (iter : set_order) (w : world).

Lemma consistent_same h h' :
  app_sessions h' = app_sessions h → client_apps h' = client_apps h →
  consistent h → consistent h'.
Proof.
  intros Ha Hc [H1 H2]. unfold consistent, room. rewrite Ha, Hc. by split.
Qed.

Lemma room_entry app_id c h :
  c ∈ room app_id h → app_sessions h !! app_id = Some (room app_id h).
Proof.
  unfold room. destruct (app_sessions h !! app_id); simpl; [done|].
  intros Hc. by apply not_elem_of_empty in Hc.
Qed.

(** [leave_application] takes the client out of every room. *)
Lemma leave_application_spec c h :
  consistent h →
  let h' := leave_application c h in
  consistent h' ∧
  client_apps h' = delete c (client_apps h) ∧
  (∀ app_id, room app_id h' = room app_id h ∖ {[c]}) ∧
  connected_clients h' = connected_clients h ∧ sent h' = sent h ∧ injected h' = injected h.
Proof.
  intros [H1 H2]. unfold leave_application.
  destruct (client_apps h !! c) as [app|] eqn:Hc; simpl.
  2:{ split; [done|]. split; [by rewrite delete_id|]. split; [|done].
      intros app'. apply set_eq. intros c'. rewrite elem_of_difference, elem_of_singleton.
      split; [|by intros [? _]]. intros Hin. split; [done|].
      intros ->. apply H1 in Hin. congruence. }
  pose proof (proj2 (H1 c app) Hc) as Hin.
  pose proof (room_entry app c h Hin) as Hentry. rewrite Hentry.
  set (X := room app h) in *. set (rest := X ∖ {[c]}).
  assert (∀ h1, app_sessions h1
                = (if bool_decide (rest = ∅) then delete app (app_sessions h)
                   else <[app := rest]> (app_sessions h)) →
                ∀ app', room app' h1 = room app' h ∖ {[c]}) as Hroom.
  { intros h1 Heq app'. unfold room at 1. rewrite Heq.
    destruct (decide (app = app')) as [<-|Hne].
    - fold X. case_bool_decide as Hrest.
      + by rewrite lookup_delete_eq.
      + by rewrite lookup_insert_eq.
    - assert (room app' h ∖ {[c]} = room app' h) as ->.
      { apply set_eq. intros c'. rewrite elem_of_difference, elem_of_singleton.
        split; [by intros [? _]|]. intros Hin'. split; [done|].
        intros ->. apply H1 in Hin'. congruence. }
      case_bool_decide; by rewrite ?lookup_delete_ne, ?lookup_insert_ne. }
  assert (∀ h1, app_sessions h1
                = (if bool_decide (rest = ∅) then delete app (app_sessions h)
                   else <[app := rest]> (app_sessions h)) →
                client_apps h1 = delete c (client_apps h) → consistent h1) as Hcons.
  { intros h1 Heq Hca. split.
    - intros c' app'. rewrite (Hroom h1 Heq app'), Hca.
      rewrite elem_of_difference, elem_of_singleton, lookup_delete_Some, H1.
      intuition congruence.
    - intros app'. rewrite Heq. case_bool_decide as Hrest.
      + destruct (decide (app = app')) as [<-|Hne];
          [by rewrite lookup_delete_eq | by rewrite lookup_delete_ne].
      + destruct (decide (app = app')) as [<-|Hne];
          [rewrite lookup_insert_eq; congruence | by rewrite lookup_insert_ne]. }
  case_bool_decide; simpl.
  - split; [by apply Hcons|]. split; [done|]. split; [|done]. by apply Hroom.
  - split; [by apply Hcons|]. split; [done|]. split; [|done]. by apply Hroom.
Qed.

(** [join_application] before the acknowledgement is sent. *)
Lemma join_application_tables now c app_id h :
  consistent h →
  let h' := join_application w now c app_id h in
  let h1 := leave_application c h in
  app_sessions h' = <[app_id := room app_id h1 ∪ {[c]}]> (app_sessions h1) ∧
  client_apps h' = <[c := app_id]> (client_apps h1) ∧
  connected_clients h' = connected_clients h ∧ injected h' = injected h ∧
  ∀ c', sent_to c' h'
        = sent_to c' h ++ received (bool_decide (c' = c) && send_ok w c') (AppJoined app_id now).
Proof.
  intros Hcons. destruct (leave_application_spec c h Hcons) as (_ & _ & _ & Hcc & Hsent & Hinj).
  unfold join_application. simpl.
  set (h3 := set_client_apps _ _).
  destruct (send_to_client_spec w c (AppJoined app_id now) h3) as [(T1 & T2 & T3 & T4) Hs].
  rewrite T1, T2, T3, T4. simpl. split; [done|]. split; [done|].
  split; [done|]. split; [done|].
  intros c'. rewrite Hs. unfold sent_to. simpl. by rewrite Hsent.
Qed.

Lemma consistent_join now c app_id h :
  consistent h → consistent (join_application w now c app_id h).
Proof.
  intros Hcons.
  destruct (join_application_tables now c app_id h Hcons) as (Ha & Hc & _).
  destruct (leave_application_spec c h Hcons) as ([H1 H2] & Hca & _).
  simpl in *. split.
  - intros c' app'. unfold room at 1. rewrite Ha, Hc.
    destruct (decide (app_id = app')) as [<-|Hne].
    + rewrite lookup_insert_eq. simpl. rewrite elem_of_union, elem_of_singleton, H1.
      destruct (decide (c = c')) as [<-|Hne'].
      * rewrite lookup_insert_eq. intuition.
      * rewrite lookup_insert_ne by done. intuition congruence.
    + rewrite lookup_insert_ne by done. fold (room app' (leave_application c h)).
      rewrite H1. destruct (decide (c = c')) as [<-|Hne'].
      * rewrite lookup_insert_eq, Hca, lookup_delete_eq. intuition congruence.
      * by rewrite lookup_insert_ne.
  - intros app'. rewrite Ha. destruct (decide (app_id = app')) as [<-|Hne].
    + rewrite lookup_insert_eq. intros [= Hempty].
      apply (not_elem_of_empty (C:=gset string) c). rewrite <- Hempty.
      apply elem_of_union. right. by apply elem_of_singleton.
    + by rewrite lookup_insert_ne.
Qed.

Lemma send_loop_tables data exclude (l : list string) h :
  same_tables h (foldl (λ h c, if bool_decide (Some c ≠ exclude)
                               then send_to_client w c data h else h) h l).
Proof.
  revert h. induction l as [|x l IH]; intros h; cbn [foldl]; [done|].
  set (h1 := if bool_decide (Some x ≠ exclude) then send_to_client w x data h else h).
  assert (same_tables h h1) as (?&?&?&?).
  { unfold h1. case_bool_decide; [apply send_to_client_spec | done]. }
  destruct (IH h1) as (?&?&?&?). repeat split; congruence.
Qed.

Lemma broadcast_to_app_tables app_id data exclude h :
  same_tables h (broadcast_to_app iter w app_id data exclude h).
Proof.
  unfold broadcast_to_app. destruct (app_sessions h !! app_id); [|done].
  apply send_loop_tables.
Qed.

Lemma input_tables_mouse now c data h :
  app_sessions (handle_mouse_event iter w now c data h) = app_sessions h ∧
  client_apps (handle_mouse_event iter w now c data h) = client_apps h.
Proof.
  unfold handle_mouse_event. destruct (client_apps h !! c) as [app|]; [|done].
  case_bool_decide; [done|].
  match goal with |- context [broadcast_to_app iter w app ?msg ?ex ?h1] =>
    destruct (broadcast_to_app_tables app msg ex h1) as (_ & -> & -> & _);
    assert (app_sessions h1 = app_sessions h ∧ client_apps h1 = client_apps h) as [-> ->]
  end; [|done].
  destruct (main_window w app) as [win|]; [|done].
  unfold send_mouse_event. destruct (mouse_type data) as [t|]; [|done].
  by case_bool_decide.
Qed.

Lemma input_tables_keyboard now c data h :
  app_sessions (handle_keyboard_event iter w now c data h) = app_sessions h ∧
  client_apps (handle_keyboard_event iter w now c data h) = client_apps h.
Proof.
  unfold handle_keyboard_event. destruct (client_apps h !! c) as [app|]; [|done].
  case_bool_decide; [done|].
  match goal with |- context [broadcast_to_app iter w app ?msg ?ex ?h1] =>
    destruct (broadcast_to_app_tables app msg ex h1) as (_ & -> & -> & _);
    assert (app_sessions h1 = app_sessions h ∧ client_apps h1 = client_apps h) as [-> ->]
  end; [|done].
  destruct (main_window w app) as [win|]; [|done].
  unfold send_keyboard_event. by destruct (keyboard_key data).
Qed.

Lemma consistent_exec c h : consistent h → consistent (exec iter w c h).
Proof.
  intros Hcons.
  destruct c as [c | c | now c app | c | now c data | now c data | app data ex | data ex];
    simpl.
  - by apply (consistent_same h).
  - unfold handle_disconnect. apply leave_application_spec.
    by apply (consistent_same h).
  - by apply consistent_join.
  - by apply leave_application_spec.
  - destruct (input_tables_mouse now c data h). by apply (consistent_same h).
  - destruct (input_tables_keyboard now c data h). by apply (consistent_same h).
  - destruct (broadcast_to_app_tables app data ex h) as (_ & ? & ? & _).
    by apply (consistent_same h).
  - destruct (send_loop_tables data ex (iter (connected_clients h)) h) as (_ & ? & ? & _).
    by apply (consistent_same h).
Qed.

Lemma consistent_run cs h : consistent h → consistent (run iter w cs h).
Proof.
  revert h. induction cs as [|c cs IH]; intros h Hcons; simpl; [done|].
  by apply IH, consistent_exec.
Qed.

Lemma consistent_init : consistent init.
Proof.
  split.
  - intros c app. unfold room. simpl. rewrite !lookup_empty. simpl.
    split; [by intros ?%not_elem_of_empty | done].
  - intros app. simpl. by rewrite lookup_empty.
Qed.

(** X16. Whatever calls the handler has served since it was created, its
    two tables agree: a client is a subscriber of a room exactly when
    [client_apps] names that room for it, so no client is ever in two rooms,
    and no room of the table is empty. *)
Theorem client_in_at_most_one_room cs :
  let h := run iter w cs init in
  (∀ c app_id, c ∈ room app_id h ↔ client_apps h !! c = Some app_id) ∧
  (∀ c a b, c ∈ room a h → c ∈ room b h → a = b) ∧
  (∀ app_id, app_sessions h !! app_id ≠ Some ∅).
Proof.
  intros h. destruct (consistent_run cs init consistent_init) as [H1 H2]. fold h in H1, H2.
  split; [done|]. split; [|done].
  intros c a b Ha%H1 Hb%H1. congruence.
Qed.

End rooms.


(** *** Joining, leaving, disconnecting *)

Section membership.
Import WebSocketHandler.
Context (iter : set_order) (w : world).

(** X17. [join_application] moves the client: afterwards the client is a
    subscriber of the room it asked for and of no other, the other clients
    are where they were, and the only message sent is the "app_joined"
    acknowledgement to the client itself (when that send goes through). *)
Theorem join_application_moves_client now c app_id h :
  consistent h →
  let h' := join_application w now c app_id h in
  client_apps h' !! c = Some app_id ∧
  (∀ a, c ∈ room a h' ↔ a = app_id) ∧
  (∀ c' a, c' ≠ c → (c' ∈ room a h' ↔ c' ∈ room a h)) ∧
  (∀ c', sent_to c' h'
         = sent_to c' h ++ received (bool_decide (c' = c) && send_ok w c') (AppJoined app_id now)).
Proof.
  intros Hcons h'.
  destruct (consistent_join w now c app_id h Hcons) as [H1' _].
  destruct (join_application_tables w now c app_id h Hcons) as (_ & Hc & _ & _ & Hs).
  destruct (leave_application_spec c h Hcons) as (_ & Hca & _).
  destruct Hcons as [H1 _]. fold h' in H1', Hc, Hs. simpl in *.
  assert (client_apps h' !! c = Some app_id) as Hcc.
  { by rewrite Hc, lookup_insert_eq. }
  split; [done|]. split; [|split; [|done]].
  - intros a. rewrite H1', Hcc. split; [by intros [= ->] | by intros ->].
  - intros c' a Hne. rewrite H1', H1, Hc, Hca.
    by rewrite lookup_insert_ne, lookup_delete_ne.
Qed.

(** X18. Joining a room and leaving again undoes the join: the tables are
    what [leave_application] alone would have made of them, so for a client
    that was in no room they are what they were before. *)
Theorem join_then_leave now c app_id h :
  consistent h →
  let h' := leave_application c (join_application w now c app_id h) in
  app_sessions h' = app_sessions (leave_application c h) ∧
  client_apps h' = client_apps (leave_application c h) ∧
  (client_apps h !! c = None →
     app_sessions h' = app_sessions h ∧ client_apps h' = client_apps h).
Proof.
  intros Hcons.
  assert (client_apps h !! c = None → leave_application c h = h) as Hnoop.
  { intros Hn. unfold leave_application. by rewrite Hn. }
  assert (let h' := leave_application c (join_application w now c app_id h) in
          app_sessions h' = app_sessions (leave_application c h) ∧
          client_apps h' = client_apps (leave_application c h)) as [Ha Hc].
  2:{ intros h'. split; [done|]. split; [done|]. intros Hn.
      fold h' in Ha, Hc. by rewrite Ha, Hc, (Hnoop Hn). }
  destruct (join_application_tables w now c app_id h Hcons) as (Ha & Hc & _).
  destruct (leave_application_spec c h Hcons) as ([H1 H2] & Hca & _).
  simpl in *. set (h1 := leave_application c h) in *.
  set (hj := join_application w now c app_id h) in *.
  assert (c ∉ room app_id h1) as Hnin.
  { rewrite H1, Hca, lookup_delete_eq. done. }
  assert ((room app_id h1 ∪ {[c]}) ∖ {[c]} = room app_id h1) as Hrest.
  { apply set_eq. intros c'. rewrite elem_of_difference, elem_of_union, elem_of_singleton.
    split; [intros [[?|?] ?]; done|]. intros Hin. split; [by left|]. by intros ->. }
  unfold leave_application. rewrite Hc, lookup_insert_eq, Ha, lookup_insert_eq, Hrest.
  case_bool_decide as Hempty; simpl.
  - rewrite Ha, Hc, delete_insert_eq, delete_insert_eq. split.
    + apply delete_id. unfold room in Hempty.
      destruct (app_sessions h1 !! app_id) as [X|] eqn:E; [|done].
      simpl in Hempty. subst X. by destruct (H2 app_id).
    + apply delete_id. by rewrite Hca, lookup_delete_eq.
  - rewrite Ha, Hc, insert_insert_eq, delete_insert_eq. split.
    + apply insert_id. unfold room in *.
      destruct (app_sessions h1 !! app_id) as [X|] eqn:E; [done|]. done.
    + apply delete_id. by rewrite Hca, lookup_delete_eq.
Qed.

(** X19. [handle_disconnect] removes the client everywhere: it is no longer
    connected, has no entry in [client_apps] and is in no room; the other
    clients keep their connection and their room, and nothing is sent. *)
Theorem disconnect_removes_client c h :
  consistent h →
  let h' := handle_disconnect c h in
  (c ∉ connected_clients h') ∧
  client_apps h' !! c = None ∧
  (∀ a, c ∉ room a h') ∧
  (∀ c', c' ≠ c →
     (c' ∈ connected_clients h' ↔ c' ∈ connected_clients h) ∧
     client_apps h' !! c' = client_apps h !! c' ∧
     ∀ a, c' ∈ room a h' ↔ c' ∈ room a h) ∧
  sent h' = sent h.
Proof.
  intros Hcons h'. unfold h', handle_disconnect.
  set (h0 := set_connected_clients (λ X, X ∖ {[c]}) h).
  assert (consistent h0) as Hcons0 by (by apply (consistent_same h)).
  destruct (leave_application_spec c h0 Hcons0) as (_ & Hca & Hroom & Hcc & Hsent & _).
  simpl in *. rewrite Hcc, Hca, Hsent. simpl.
  split; [rewrite elem_of_difference, elem_of_singleton; by intros [_ ?]|].
  split; [apply lookup_delete_eq|]. split; [|split; [|done]].
  - intros a. rewrite Hroom, elem_of_difference, elem_of_singleton. by intros [_ ?].
  - intros c' Hne. split; [|split].
    + rewrite elem_of_difference, elem_of_singleton. intuition.
    + by rewrite lookup_delete_ne.
    + intros a. rewrite Hroom, elem_of_difference, elem_of_singleton.
      unfold room. simpl. intuition.
Qed.

End membership.

(** *** Who receives a broadcast *)

Section reach.
Import WebSocketHandler.
Context (iter : set_order) (w : world).

(** X20. A screenshot, window or application update for a room is delivered
    once to every client whose current application is that room and whose
    send goes through, and to nobody else: clients of other rooms and clients
    in no room receive nothing. The tables are not touched. *)
Theorem room_update_reaches_room_only now app_id payload update_type h :
  set_order_ok iter →
  consistent h →
  let reach c msg := received (bool_decide (client_apps h !! c = Some app_id) && send_ok w c) msg in
  (∀ c, sent_to c (send_screenshot_update iter w now app_id payload h)
        = sent_to c h ++ reach c (ScreenshotUpdate payload now)) ∧
  (∀ c, sent_to c (send_window_update iter w now app_id payload h)
        = sent_to c h ++ reach c (WindowUpdate payload now)) ∧
  (∀ c, sent_to c (send_app_update iter w now app_id update_type payload h)
        = sent_to c h ++ reach c (AppUpdate update_type payload now)) ∧
  same_tables h (send_screenshot_update iter w now app_id payload h) ∧
  same_tables h (send_window_update iter w now app_id payload h) ∧
  same_tables h (send_app_update iter w now app_id update_type payload h).
Proof.
  intros Hok [H1 _] reach.
  assert (∀ msg c, sent_to c (broadcast_to_app iter w app_id msg None h)
                   = sent_to c h ++ reach c msg) as Hs.
  { intros msg c.
    destruct (broadcast_to_app_spec iter w app_id msg None h Hok) as [_ ->].
    unfold reach. f_equal. f_equal. f_equal. apply bool_decide_ext.
    rewrite H1. intuition discriminate. }
  unfold send_screenshot_update, send_window_update, send_app_update.
  split; [apply Hs|]. split; [apply Hs|]. split; [apply Hs|].
  split; [|split]; by apply broadcast_to_app_spec.
Qed.

(** X21. [broadcast_to_all] delivers the message once to every connected
    client, the excluded one apart, whose send goes through, and changes no
    table; a client that is not connected receives nothing. *)
Theorem broadcast_to_all_reaches_connected data exclude h :
  set_order_ok iter →
  let h' := broadcast_to_all iter w data exclude h in
  same_tables h h' ∧
  ∀ c, sent_to c h'
       = sent_to c h
         ++ received (bool_decide (c ∈ connected_clients h ∧ Some c ≠ exclude) && send_ok w c)
                     data.
Proof.
  intros Hok h'. unfold h', broadcast_to_all.
  destruct (send_loop_spec w data exclude (iter (connected_clients h)) h
              (iter_NoDup iter _ Hok)) as [Ht Hs].
  split; [done|]. intros c. rewrite Hs. f_equal. f_equal. f_equal.
  apply bool_decide_ext. by rewrite elem_of_iter.
Qed.

End reach.

(** *** Clients of the live streamer *)

Section streamer.
Import LiveStreamer.
Context (iter : set_order) (ok : string → bool).

(** X22. Frames go to the clients of the streamer and to nobody else: a
    client that is not in the client set, in particular one whose connection
    has been closed, receives nothing from any number of turns of the loop,
    while the frames of the other clients are what they would have been with
    that client still connected. *)
Theorem disconnected_client_gets_no_frames captures st c :
  set_order_ok iter →
  (c ∉ clients st →
     delivered_to c (capture_and_stream iter ok captures st) = delivered_to c st) ∧
  delivered_to c (capture_and_stream iter ok captures (client_disconnected c st))
    = delivered_to c st ∧
  (∀ c', c' ≠ c →
     delivered_to c' (capture_and_stream iter ok captures (client_disconnected c st))
     = delivered_to c' (capture_and_stream iter ok captures st)).
Proof.
  intros Hok.
  pose proof (λ st, proj2 (capture_and_stream_spec iter ok captures st Hok)) as Hs.
  split; [|split].
  - intros Hnin. rewrite Hs. rewrite bool_decide_eq_false_2 by done. simpl. apply app_nil_r.
  - rewrite Hs. simpl. rewrite bool_decide_eq_false_2; [apply app_nil_r|].
    rewrite elem_of_difference, elem_of_singleton. by intros [_ ?].
  - intros c' Hne. rewrite !Hs. simpl. f_equal.
    assert (c' ∈ clients st ∖ {[c]} ↔ c' ∈ clients st) as Hiff.
    { rewrite elem_of_difference, elem_of_singleton. intuition. }
    by rewrite (bool_decide_ext _ _ Hiff).
Qed.

End streamer.


(** *** The theorems at the sample states *)

Section more_samples.
Import WebSocketHandler.

Lemma sample_room_consistent : consistent sample_room.
Proof.
  exact (consistent_run sample_iter sample_world
           [JoinApplication 1 "a" "app1"; JoinApplication 2 "b" "app1";
            JoinApplication 3 "f" "app1"] init consistent_init).
Defined.

Lemma join_application_moves_client_witness :
  consistent sample_room ∧
  client_apps sample_room !! "b" = Some "app1" ∧
  client_apps (join_application sample_world 9 "b" "app2" sample_room) !! "b" = Some "app2".
Proof.
  split; [exact sample_room_consistent|]. split; [reflexivity|].
  exact (proj1 (join_application_moves_client sample_world 9 "b" "app2" sample_room
                  sample_room_consistent)).
Defined.

Lemma join_then_leave_witness :
  consistent sample_room ∧
  client_apps sample_room !! "zed" = None ∧
  app_sessions (leave_application "zed" (join_application sample_world 9 "zed" "app2" sample_room))
    = app_sessions sample_room.
Proof.
  split; [exact sample_room_consistent|]. split; [reflexivity|].
  refine (proj1 (proj2 (proj2 (join_then_leave sample_world 9 "zed" "app2" sample_room
                                 sample_room_consistent)) _)).
  reflexivity.
Defined.

Lemma disconnect_removes_client_witness :
  consistent sample_room ∧
  client_apps sample_room !! "b" = Some "app1" ∧
  client_apps (handle_disconnect "b" sample_room) !! "b" = None.
Proof.
  split; [exact sample_room_consistent|]. split; [reflexivity|].
  exact (proj1 (proj2 (disconnect_removes_client "b" sample_room sample_room_consistent))).
Defined.

Lemma room_update_reaches_room_only_witness :
  set_order_ok sample_iter ∧ consistent sample_room ∧
  sent_to "zed" (send_screenshot_update sample_iter sample_world 30 "app1" "img" sample_room)
    = sent_to "zed" sample_room
      ++ received (bool_decide (client_apps sample_room !! "zed" = Some "app1")
                   && send_ok sample_world "zed") (ScreenshotUpdate "img" 30).
Proof.
  split; [exact sample_iter_ok|]. split; [exact sample_room_consistent|].
  exact (proj1 (room_update_reaches_room_only sample_iter sample_world 30 "app1" "img" "resize"
                  sample_room sample_iter_ok sample_room_consistent) "zed").
Defined.

Lemma broadcast_to_all_reaches_connected_witness :
  set_order_ok sample_iter ∧
  same_tables sample_room
    (broadcast_to_all sample_iter sample_world (AppUpdate "notice" "hello" 31) None sample_room).
Proof.
  split; [exact sample_iter_ok|].
  exact (proj1 (broadcast_to_all_reaches_connected sample_iter sample_world
                  (AppUpdate "notice" "hello" 31) None sample_room sample_iter_ok)).
Defined.

Lemma disconnected_client_gets_no_frames_witness :
  set_order_ok sample_iter ∧
  LiveStreamer.delivered_to "b"
    (LiveStreamer.capture_and_stream sample_iter (send_ok sample_world)
       [(Some "img-1", 10%Z); (Some "img-2", 11%Z)]
       (LiveStreamer.client_disconnected "b" LiveStreamer.sample_streamer))
  = LiveStreamer.delivered_to "b" LiveStreamer.sample_streamer.
Proof.
  split; [exact sample_iter_ok|].
  exact (proj1 (proj2 (disconnected_client_gets_no_frames sample_iter (send_ok sample_world)
                         [(Some "img-1", 10%Z); (Some "img-2", 11%Z)]
                         LiveStreamer.sample_streamer "b" sample_iter_ok))).
Defined.

End more_samples.

End StreamExtra.
